(** * hoa2pg: from parity automata (HOA) to parity games (PGSolver)

    A shallow embedding of [hoa2pg.c] and of the data structures of
    [simplehoa.h], followed by the properties of the label evaluator, of
    the priority adjustment and of the game construction. *)

From Stdlib Require Import ZArith List String Ascii Bool Lia Arith.
From Stdlib Require Import Sorting.Sorted Sorting.Permutation.
From Stdlib Require DecimalString.
Import ListNotations.
Local Open Scope Z_scope.

(** ** Machine integers

    [int] is a 32-bit two's complement integer and [unsigned] a 32-bit
    natural number; both are carried by [Z], with the wrap-around of the
    arithmetic written out. *)

Definition INT_MIN : Z := - 2 ^ 31.
Definition INT_MAX : Z := 2 ^ 31 - 1.

Definition int_wrap (z : Z) : Z := (z + 2 ^ 31) mod 2 ^ 32 - 2 ^ 31.
Definition uint_wrap (z : Z) : Z := z mod 2 ^ 32.

Definition int_add (a b : Z) : Z := int_wrap (a + b).
Definition int_sub (a b : Z) : Z := int_wrap (a - b).
Definition int_mul (a b : Z) : Z := int_wrap (a * b).
(** [1 << n] on [int]. *)
Definition int_shl (a n : Z) : Z := int_wrap (Z.shiftl a n).
(** [mask << 1] on [unsigned]. *)
Definition uint_shl (a n : Z) : Z := uint_wrap (Z.shiftl a n).

Definition in_int (z : Z) : Prop := INT_MIN <= z <= INT_MAX.

(** ** The data structures of simplehoa.h *)

Inductive NodeType : Type :=
| NT_BOOL | NT_AND | NT_OR | NT_FIN
| NT_INF | NT_NOT | NT_SET
| NT_AP | NT_ALIAS.

(** [BTree*]: either the null pointer or a node with its five fields
    [left], [right], [alias], [id] and [type].  The [alias] field is only
    read on [NT_ALIAS] nodes. *)
Inductive BTree : Type :=
| BNull
| BNode (left right : BTree) (alias : string) (id : Z) (type : NodeType).

(** One cell of an [AliasList]; the list itself is a [list]. *)
Record AliasList : Type := mkAlias {
  alias : string;
  labelExpr : BTree
}.

(** One cell of a [TransList]; [IntList*] is a [list Z], null being [[]]. *)
Record TransList : Type := mkTrans {
  label : BTree;
  successors : list Z;
  accSig : list Z
}.

(** One cell of a [StateList]; a null [name] is [None]. *)
Record StateList : Type := mkState {
  s_id : Z;
  s_name : option string;
  s_label : BTree;
  s_accSig : list Z;
  transitions : list TransList
}.

Record HoaData : Type := mkHoa {
  noStates : Z;
  aps : list string;
  accNameParameters : list string;
  properties : list string;
  states : list StateList;
  aliases : list AliasList;
  start : list Z;
  cntAPs : list Z;
  noAccSets : Z;
  noAPs : Z;
  acc : BTree;
  version : option string;
  accNameID : string;
  toolName : option string;
  toolVersion : option string;
  name : option string
}.

(** ** Results of fallible code

    [AssertFail] is a failed [assert], which aborts the process: the
    assertions are taken as compiled in, as in the build that also prints
    the diagnostics guarded by [NDEBUG].  [OutOfFuel] says that the
    recursion budget of the model was used up, which is how a run that does
    not return shows. *)
Inductive result (A : Type) : Type :=
| Ret (a : A)
| AssertFail
| OutOfFuel.
Arguments Ret {A} a.
Arguments AssertFail {A}.
Arguments OutOfFuel {A}.

Definition bind {A B : Type} (m : result A) (f : A -> result B) : result B :=
  match m with
  | Ret a => f a
  | AssertFail => AssertFail
  | OutOfFuel => OutOfFuel
  end.

Notation "x <- m ;; k" := (bind m (fun x => k))
  (at level 61, m at next level, right associativity).

(** ** evalLabel *)

(** The [for] loop of the [NT_AP] case: [apIds] is the array with its
    [numAPs] cells, [mask] the running one-bit mask. *)
Fixpoint apLoop (id : Z) (apIds : list Z) (mask value : Z) : Z :=
  match apIds with
  | [] => 0
  | a :: rest =>
      if id =? a
      then (if Z.land mask value =? mask then 1 else -1)
      else apLoop id rest (uint_shl mask 1) value
  end.

(** The [for] loop of the [NT_ALIAS] case: the bound expression of the
    first cell whose name is the one looked for. *)
Fixpoint aliasLoop (a : list AliasList) (nm : string) : option BTree :=
  match a with
  | [] => None
  | c :: next =>
      if String.eqb (alias c) nm then Some (labelExpr c)
      else aliasLoop next nm
  end.

(** [evalLabel label aliases numAPs apIds value], with [numAPs] the length
    of [apIds].  [fuel] bounds the depth of the recursion, which in the
    program is unbounded: an alias may be bound to an expression that
    refers to it. *)
Fixpoint evalLabel (fuel : nat) (lbl : BTree) (als : list AliasList)
    (apIds : list Z) (value : Z) : result Z :=
  match fuel with
  | O => OutOfFuel
  | S fuel' =>
      match lbl with
      | BNull => AssertFail
      | BNode l r nm id ty =>
          match ty with
          | NT_BOOL => Ret (if id =? 0 then -1 else 1)
          | NT_AND =>
              left <- evalLabel fuel' l als apIds value ;;
              right <- evalLabel fuel' r als apIds value ;;
              if (left =? -1) || (right =? -1) then Ret (-1)
              else if (left =? 0) || (right =? 0) then Ret 0
              else Ret 1
          | NT_OR =>
              left <- evalLabel fuel' l als apIds value ;;
              right <- evalLabel fuel' r als apIds value ;;
              if (left =? 1) || (right =? 1) then Ret 1
              else if (left =? 0) || (right =? 0) then Ret 0
              else Ret (-1)
          | NT_NOT =>
              v <- evalLabel fuel' l als apIds value ;;
              Ret (int_mul (-1) v)
          | NT_AP => Ret (apLoop id apIds 1 value)
          | NT_ALIAS =>
              match aliasLoop als nm with
              | Some e => evalLabel fuel' e als apIds value
              | None => Ret (-2)
              end
          | NT_FIN | NT_INF | NT_SET => AssertFail
          end
      end
  end.

(** ** adjustPriority *)

Definition adjustPriority (p : Z) (maxPriority : bool) (winRes : Z)
    (noPriorities : Z) : Z :=
  let evenMax := noPriorities in
  let evenMax :=
    if negb (Z.rem evenMax 2 =? 0) then int_add evenMax 1 else evenMax in
  let pForMax := if maxPriority then p else int_sub evenMax p in
  let shifted := int_add pForMax (int_sub 2 winRes) in
  shifted.

(** ** The text written to stdout

    Every [printf] sequence of [main] that ends a line is one [OutLine].
    [Header n] is the line [parity n;]; [Vertex k id priority owner succs
    lbl] is a vertex line with its identifier, priority, owner, successor
    list and quoted label.  The tag [k] records which of the three places
    of [main] printed the line and is not part of the text.  What goes to
    stderr is left out. *)

Inductive VertexKind : Type := CompatV | ValuationV | DecisionV.

Inductive PgLabel : Type :=
| LInt (z : Z)        (* printed with [%d] *)
| LStr (s : string).  (* printed with [%s] *)

Inductive OutLine : Type :=
| Header (n : Z)
| Vertex (k : VertexKind) (id priority owner : Z) (succs : list Z)
    (lbl : PgLabel).

Definition print_int (z : Z) : string :=
  DecimalString.NilZero.string_of_int (Z.to_int z).

Definition quote : string := String (ascii_of_nat 34) EmptyString.
Definition newline : string := String (ascii_of_nat 10) EmptyString.

Definition print_label (l : PgLabel) : string :=
  match l with
  | LInt z => print_int z
  | LStr s => s
  end.

Definition print_line (o : OutLine) : string :=
  match o with
  | Header n => ("parity " ++ print_int n ++ ";" ++ newline)%string
  | Vertex _ id priority owner succs lbl =>
      (print_int id ++ " " ++ print_int priority ++ " " ++ print_int owner
       ++ " " ++ String.concat "," (map print_int succs)
       ++ " " ++ quote ++ print_label lbl ++ quote ++ newline)%string
  end.

Definition print_lines (out : list OutLine) : string :=
  String.concat "" (map print_line out).

(** Identifiers of the vertex lines of [out], in the order of the lines. *)
Fixpoint vertex_ids (out : list OutLine) : list Z :=
  match out with
  | [] => []
  | Header _ :: rest => vertex_ids rest
  | Vertex _ id _ _ _ _ :: rest => id :: vertex_ids rest
  end.

Definition kind_eqb (a b : VertexKind) : bool :=
  match a, b with
  | CompatV, CompatV | ValuationV, ValuationV | DecisionV, DecisionV => true
  | _, _ => false
  end.

(** Identifiers of the vertex lines of [out] printed at place [k]. *)
Fixpoint ids_of_kind (k : VertexKind) (out : list OutLine) : list Z :=
  match out with
  | [] => []
  | Header _ :: rest => ids_of_kind k rest
  | Vertex k' id _ _ _ _ :: rest =>
      if kind_eqb k k' then id :: ids_of_kind k rest else ids_of_kind k rest
  end.

(** ** List helpers of simplehoa.h *)

(** Modelled from the spec: [prependIntNode] is declared in simplehoa.h and
    defined outside the files at hand; it adds the integer in a new cell at
    the front of the list (adding to the front of a collection, so that the
    stored order is the reverse of the order of insertion). *)
Definition prependIntNode (node : list Z) (i : Z) : list Z := i :: node.

(** ** main *)

(** What the loop over [accNameParameters] leaves in the four locals.
    [maxPriority] and [winRes] are not initialised by the program; they are
    read only after [foundOrd] and [foundRes] were found true. *)
Record ParamLocals : Type := mkParamLocals {
  foundOrd : bool;
  maxPriority : bool;
  foundRes : bool;
  winRes : Z
}.

Definition paramStep (l : ParamLocals) (str : string) : ParamLocals :=
  let l := if String.eqb str "max"
           then mkParamLocals true true (foundRes l) (winRes l) else l in
  let l := if String.eqb str "min"
           then mkParamLocals true false (foundRes l) (winRes l) else l in
  let l := if String.eqb str "even"
           then mkParamLocals (foundOrd l) (maxPriority l) true 0 else l in
  let l := if String.eqb str "odd"
           then mkParamLocals (foundOrd l) (maxPriority l) true 1 else l in
  l.

Definition paramLoop (params : list string) : ParamLocals :=
  fold_left paramStep params (mkParamLocals false false false 0).

Record PropLocals : Type := mkPropLocals {
  det : bool;
  complete : bool;
  colored : bool
}.

Definition propStep (l : PropLocals) (str : string) : PropLocals :=
  let l := if String.eqb str "deterministic"
           then mkPropLocals true (complete l) (colored l) else l in
  let l := if String.eqb str "complete"
           then mkPropLocals (det l) true (colored l) else l in
  let l := if String.eqb str "colored"
           then mkPropLocals (det l) (complete l) true else l in
  l.

Definition propLoop (props : list string) : PropLocals :=
  fold_left propStep props (mkPropLocals false false false).

(** Step 1: [numUcntAPs] is [noAPs] decremented once per cell of [cntAPs]. *)
Definition countUcntAPs (noAPs : Z) (cnt : list Z) : Z :=
  fold_left (fun n _ => int_sub n 1) cnt noAPs.

(** The inner loop of step 1: is [i] among the controllable APs? *)
Fixpoint foundIn (i : Z) (cnt : list Z) : bool :=
  match cnt with
  | [] => false
  | c :: next => if i =? c then true else foundIn i next
  end.

(** The outer loop of step 1: the cells written to [ucntAPs], in order.
    The array has [numUcntAPs] cells; when the loop finds another number
    of uncontrollable APs, the assertion after it fails. *)
Definition collectUcntAPs (noAPs : Z) (cnt : list Z) : list Z :=
  filter (fun i => negb (foundIn i cnt))
         (map Z.of_nat (seq 0 (Z.to_nat noAPs))).

(** The integers [lo, lo+1, ..., hi-1] (none when [hi <= lo]). *)
Definition intRange (lo hi : Z) : list Z :=
  map (fun k => lo + Z.of_nat k) (seq 0 (Z.to_nat (hi - lo))).

(** A run of the printing part of [main]: the lines written so far and how
    the run went on. *)
Definition run (A : Type) : Type := (list OutLine * result A)%type.

Definition rbind {A B : Type} (m : run A) (f : A -> run B) : run B :=
  match m with
  | (out, Ret a) => let (out', r) := f a in (out ++ out', r)
  | (out, AssertFail) => (out, AssertFail)
  | (out, OutOfFuel) => (out, OutOfFuel)
  end.

Definition rret {A : Type} (a : A) : run A := ([], Ret a).
Definition lift {A : Type} (r : result A) : run A := ([], r).
Definition printf (o : OutLine) : run unit := ([o], Ret tt).
Definition assert (b : bool) : run unit :=
  ([], if b then Ret tt else AssertFail).

Notation "x <-- m ;; k" := (rbind m (fun x => k))
  (at level 61, m at next level, right associativity).
Notation "m ;;; k" := (rbind m (fun _ => k))
  (at level 61, right associativity).

Section Construction.

(** What the loops of step 2 read and do not change. *)
Variable fuel : nat.
Variable data : HoaData.
Variable maxPrio : bool.
Variable winR : Z.
Variable ucntAPs : list Z.
Variable numValuations : Z.

(** The loop over the transitions of [state], for one valuation; it carries
    [nextIndex] and [validVals]. *)
Fixpoint transLoop (state : StateList) (value : Z) (trans : list TransList)
    (nextIndex : Z) (validVals : list Z) : run (Z * list Z) :=
  match trans with
  | [] => rret (nextIndex, validVals)
  | t :: next =>
      assert (match successors t with [_] => true | _ => false end) ;;;
      let lbl := match s_label state with
                 | BNull => label t
                 | BNode _ _ _ _ _ => s_label state
                 end in
      assert (match lbl with BNull => false | _ => true end) ;;;
      let acc := match s_accSig state with
                 | [] => accSig t
                 | _ :: _ => s_accSig state
                 end in
      assert (match acc with [_] => true | _ => false end) ;;;
      let priority :=
        adjustPriority (hd 0 acc) maxPrio winR (noAccSets data) in
      evald <-- lift (evalLabel fuel lbl (aliases data) ucntAPs value) ;;
      if negb (evald =? -1) then
        let fullVal := nextIndex in
        let nextIndex := int_add nextIndex 1 in
        printf (Vertex CompatV fullVal priority 0
                  [hd 0 (successors t)] (LInt fullVal)) ;;;
        transLoop state value next nextIndex
          (prependIntNode validVals fullVal)
      else
        transLoop state value next nextIndex validVals
  end.

(** The body of the loop over the valuations. *)
Definition valuationBody (state : StateList) (firstSucc value : Z)
    (nextIndex : Z) : run Z :=
  let partVal := int_wrap (uint_wrap (firstSucc + value)) in
  r <-- transLoop state value (transitions state) nextIndex [] ;;
  let (nextIndex, validVals) := r : Z * list Z in
  assert (match validVals with [] => false | _ => true end) ;;;
  printf (Vertex ValuationV partVal 0 0 validVals (LInt partVal)) ;;;
  rret nextIndex.

Fixpoint valuationLoop (state : StateList) (firstSucc : Z)
    (values : list Z) (nextIndex : Z) : run Z :=
  match values with
  | [] => rret nextIndex
  | value :: rest =>
      nextIndex <-- valuationBody state firstSucc value nextIndex ;;
      valuationLoop state firstSucc rest nextIndex
  end.

(** The values taken by [unsigned value] while [value < numValuations]. *)
Definition valuations : list Z :=
  map Z.of_nat (seq 0 (Z.to_nat (uint_wrap numValuations))).

(** The body of the loop over the states. *)
Definition stateBody (state : StateList) (nextIndex : Z) : run Z :=
  let firstSucc := nextIndex in
  let nextIndex := int_add nextIndex numValuations in
  nextIndex <-- valuationLoop state firstSucc valuations nextIndex ;;
  printf (Vertex DecisionV (s_id state) 0 1
            (firstSucc ::
               intRange firstSucc (int_add firstSucc numValuations))
            (match s_name state with
             | Some nm => LStr nm
             | None => LInt (s_id state)
             end)) ;;;
  rret nextIndex.

Fixpoint stateLoop (sts : list StateList) (nextIndex : Z) : run Z :=
  match sts with
  | [] => rret nextIndex
  | state :: next =>
      nextIndex <-- stateBody state nextIndex ;;
      stateLoop next nextIndex
  end.

End Construction.

Definition EXIT_SUCCESS : Z := 0.

(** [main], given what [parseHoa] returned and the data it filled in. *)
Definition main (fuel : nat) (ret : Z) (data : HoaData) : run Z :=
  if negb (ret =? 0) then rret ret else
  if negb (String.eqb (accNameID data) "parity") then rret 100 else
  let pl := paramLoop (accNameParameters data) in
  if negb (foundOrd pl) then rret 101 else
  if negb (foundRes pl) then rret 102 else
  let pr := propLoop (properties data) in
  if negb (det pr) then rret 200 else
  if negb (complete pr) then rret 201 else
  if negb (colored pr) then rret 202 else
  match start data with
  | [_] =>
      let numUcntAPs := countUcntAPs (noAPs data) (cntAPs data) in
      let ucntAPs := collectUcntAPs (noAPs data) (cntAPs data) in
      assert (Z.of_nat (List.length ucntAPs) =? numUcntAPs) ;;;
      let numValuations := int_shl 1 numUcntAPs in
      let nextIndex := noStates data in
      printf (Header (int_sub (int_mul nextIndex (int_add numValuations 1)) 1)) ;;;
      stateLoop fuel data (maxPriority pl) (winRes pl) ucntAPs numValuations
        (states data) nextIndex ;;;
      rret EXIT_SUCCESS
  | _ => rret 300
  end.

(** *** A few runs *)

Definition bool_node (b : bool) : BTree :=
  BNode BNull BNull EmptyString (if b then 1 else 0) NT_BOOL.
Definition ap_node (i : Z) : BTree := BNode BNull BNull EmptyString i NT_AP.
Definition alias_node (nm : string) : BTree := BNode BNull BNull nm 0 NT_ALIAS.
Definition and_node (l r : BTree) : BTree := BNode l r EmptyString 0 NT_AND.
Definition or_node (l r : BTree) : BTree := BNode l r EmptyString 0 NT_OR.
Definition not_node (l : BTree) : BTree := BNode l BNull EmptyString 0 NT_NOT.
Definition fin_node (i : Z) : BTree := BNode BNull BNull EmptyString i NT_FIN.

(** One state with a self-loop labelled [t], colour 0, no atomic
    proposition: parity max even. *)
Definition loop_hoa (lbls : list BTree) (params : list string) : HoaData :=
  mkHoa 1 [] params ["deterministic"; "complete"; "colored"]%string
    [mkState 0 None BNull [] (map (fun l => mkTrans l [0] [0]) lbls)]
    [] [0] [] 1 0 BNull None "parity" None None None.

(** ** Notions used to state the properties *)

(** [noPriorities] rounded up to an even number. *)
Definition evenCeil (n : Z) : Z := if Z.even n then n else n + 1.

(** Is the token [s] in the list? *)
Definition mem (s : string) (l : list string) : bool :=
  existsb (fun x => String.eqb x s) l.

(** The parameter check as [main] makes it: both flags found. *)
Definition paramCheckPasses (params : list string) : bool :=
  foundOrd (paramLoop params) && foundRes (paramLoop params).

(** The parameter check as the specification words it: exactly one of
    [a], [b] in the list. *)
Definition exactlyOneOf (a b : string) (l : list string) : bool :=
  (count_occ string_dec l a + count_occ string_dec l b =? 1)%nat.

Definition paramsExactlyOne (params : list string) : bool :=
  exactlyOneOf "max" "min" params && exactlyOneOf "even" "odd" params.

(** The checks of the validation gate in their order, each with the exit
    code of its failure. *)
Definition validationChecks : list ((HoaData -> bool) * Z) :=
  [ (fun d => String.eqb (accNameID d) "parity", 100);
    (fun d => mem "max" (accNameParameters d)
              || mem "min" (accNameParameters d), 101);
    (fun d => mem "even" (accNameParameters d)
              || mem "odd" (accNameParameters d), 102);
    (fun d => mem "deterministic" (properties d), 200);
    (fun d => mem "complete" (properties d), 201);
    (fun d => mem "colored" (properties d), 202);
    (fun d => (List.length (start d) =? 1)%nat, 300) ].

(** The exit code of the first check that fails, if one does. *)
Definition firstFailure (d : HoaData) : option Z :=
  option_map snd (find (fun c => negb (fst c d)) validationChecks).

(** Once the gate is passed, [main] ends with [EXIT_SUCCESS], a failed
    assertion, or not at all. *)
Definition construction_result (r : result Z) : Prop :=
  r = Ret EXIT_SUCCESS \/ r = AssertFail \/ r = OutOfFuel.

(** A Rabin automaton with two start states and no property at all. *)
Definition rabin_two_starts : HoaData :=
  mkHoa 2 [] [] [] [] [] [0; 1] [] 1 0 BNull None "Rabin" None None None.

(** The three truth values as [evalLabel] encodes them: false is -1,
    unknown is 0, true is 1. *)
Definition ternary (v : Z) : Prop := v = -1 \/ v = 0 \/ v = 1.

(** Kleene negation on that encoding. *)
Definition flip (v : Z) : Z := - v.

(** A label: a tree of constants, conjunctions, disjunctions, negations and
    atomic propositions, and of aliases that the table resolves, through
    finitely many look-ups, to labels. *)
Inductive wf_label (als : list AliasList) : BTree -> Prop :=
| wf_bool l r nm id : wf_label als (BNode l r nm id NT_BOOL)
| wf_and l r nm id :
    wf_label als l -> wf_label als r -> wf_label als (BNode l r nm id NT_AND)
| wf_or l r nm id :
    wf_label als l -> wf_label als r -> wf_label als (BNode l r nm id NT_OR)
| wf_not l r nm id :
    wf_label als l -> wf_label als (BNode l r nm id NT_NOT)
| wf_ap l r nm id : wf_label als (BNode l r nm id NT_AP)
| wf_alias l r nm id e :
    aliasLoop als nm = Some e -> wf_label als e ->
    wf_label als (BNode l r nm id NT_ALIAS).

(** The weaker reading: the tree is built of the five label kinds and of
    aliases whose names the table binds; nothing is asked of what the names
    are bound to. *)
Fixpoint names_resolve (als : list AliasList) (e : BTree) : bool :=
  match e with
  | BNull => false
  | BNode l r nm _ ty =>
      match ty with
      | NT_BOOL | NT_AP => true
      | NT_AND | NT_OR => names_resolve als l && names_resolve als r
      | NT_NOT => names_resolve als l
      | NT_ALIAS => match aliasLoop als nm with Some _ => true | None => false end
      | NT_FIN | NT_INF | NT_SET => false
      end
  end.

(** [evalLabel] returns [v] on [e]: it does so with every large enough
    budget. *)
Definition evaluates (als : list AliasList) (apIds : list Z) (value : Z)
    (e : BTree) (v : Z) : Prop :=
  exists n, forall fuel, (n <= fuel)%nat ->
    evalLabel fuel e als apIds value = Ret v.

(** An alias table that binds [a] to a reference to itself. *)
Definition self_alias : list AliasList := [mkAlias "a" (alias_node "a")].

(** A line as the transition loop prints it: owner 0, one successor, the
    vertex's own identifier as its label. *)
Definition is_compat_line (o : OutLine) : Prop :=
  exists id prio succ, o = Vertex CompatV id prio 0 [succ] (LInt id).

(** An upper bound on the number of identifiers that the loop over the
    states allocates: per state, [numValuations] valuation vertices and, for
    each of them, at most one vertex per transition. *)
Fixpoint idBudget (numValuations : Z) (sts : list StateList) : Z :=
  match sts with
  | [] => 0
  | s :: rest =>
      numValuations * (1 + Z.of_nat (List.length (transitions s)))
      + idBudget numValuations rest
  end.

(** The identifiers that [out] gives to valuation and compatible-transition
    vertices are fresh ones of [lo, hi): each kind in increasing order,
    none given twice. *)
Definition fresh_block (lo hi : Z) (out : list OutLine) : Prop :=
  StronglySorted Z.lt (ids_of_kind CompatV out)
  /\ StronglySorted Z.lt (ids_of_kind ValuationV out)
  /\ Forall (fun i => lo <= i < hi) (ids_of_kind CompatV out)
  /\ Forall (fun i => lo <= i < hi) (ids_of_kind ValuationV out)
  /\ (forall i, In i (ids_of_kind CompatV out) ->
                In i (ids_of_kind ValuationV out) -> False).

(** [numValuations], as [main] computes it from the data. *)
Definition numValuationsOf (data : HoaData) : Z :=
  int_shl 1 (countUcntAPs (noAPs data) (cntAPs data)).

(** The output of a completed loop over the states, cut into the blocks of
    the states: the block of a state uses the fresh identifiers of one
    interval, the valuation vertices first and the compatible-transition
    vertices after them, and the next state goes on where it ended. *)
Inductive state_blocks (numValuations : Z) :
  Z -> list StateList -> list OutLine -> Z -> Prop :=
| sb_nil n : state_blocks numValuations n [] [] n
| sb_cons n m k s sts blk rest :
    ids_of_kind ValuationV blk = intRange n (n + numValuations) ->
    ids_of_kind CompatV blk = intRange (n + numValuations) m ->
    n + numValuations <= m ->
    ids_of_kind DecisionV blk = [s_id s] ->
    state_blocks numValuations m sts rest k ->
    state_blocks numValuations n (s :: sts) (blk ++ rest) k.

(** [out] does not end with the line of a compatible transition. *)
Definition closed (out : list OutLine) : Prop :=
  forall pre o, out = pre ++ [o] -> ~ is_compat_line o.

(** Every line of a valuation vertex in [out] has priority 0 and owner 0
    and its own identifier as label; right before it stands a run [cs] of
    lines of compatible transitions, not empty and not a part of a longer
    run, and the successors on the line are the identifiers of [cs], last
    printed first. *)
Definition valuation_lines_ok (out : list OutLine) : Prop :=
  forall pre id p o succs lbl post,
    out = pre ++ Vertex ValuationV id p o succs lbl :: post ->
    p = 0 /\ o = 0 /\ lbl = LInt id
    /\ exists pre' cs,
         pre = pre' ++ cs /\ closed pre'
         /\ Forall is_compat_line cs /\ cs <> []
         /\ succs = rev (vertex_ids cs).

(** The number on the [parity] line. *)
Fixpoint declared_bound (out : list OutLine) : option Z :=
  match out with
  | [] => None
  | Header n :: _ => Some n
  | Vertex _ _ _ _ _ _ :: rest => declared_bound rest
  end.

(** The largest identifier of a vertex line (0 when there is none). *)
Definition highest_id (out : list OutLine) : Z :=
  fold_right Z.max 0 (vertex_ids out).

(** One state with self-loops labelled by [lbls], colour 0, one atomic
    proposition, which is not controllable: parity max even. *)
Definition one_ap_hoa (lbls : list BTree) : HoaData :=
  mkHoa 1 ["a"]%string ["max"; "even"]%string
    ["deterministic"; "complete"; "colored"]%string
    [mkState 0 (Some "q0"%string) BNull []
       (map (fun l => mkTrans l [0] [0]) lbls)]
    [] [0] [] 1 1 BNull None "parity" None None None.

(** A line of a decision vertex is the line of a state of the automaton:
    the state's identifier, priority 0, owner 1, the state's name or else
    its identifier as label, and as successors [firstSucc] followed by the
    identifiers from [firstSucc] up to [firstSucc + numValuations]
    (excluded).  Nothing is asked of the other lines. *)
Definition decision_line_ok (data : HoaData) (numValuations : Z)
    (L : OutLine) : Prop :=
  match L with
  | Vertex DecisionV id p o succs lbl =>
      p = 0 /\ o = 1
      /\ exists s firstSucc,
           In s (states data) /\ id = s_id s
           /\ lbl = match s_name s with
                    | Some nm => LStr nm
                    | None => LInt (s_id s)
                    end
           /\ succs = firstSucc
                        :: intRange firstSucc
                             (int_add firstSucc numValuations)
  | _ => True
  end.

Definition not_decision (L : OutLine) : Prop :=
  match L with
  | Vertex DecisionV _ _ _ _ _ => False
  | _ => True
  end.

(** The label that [main] evaluates for a transition of a state: the
    label of the state if it has one, else the label of the transition. *)
Definition effective_label (s : StateList) (t : TransList) : BTree :=
  match s_label s with
  | BNull => label t
  | BNode _ _ _ _ _ => s_label s
  end.

(** All labels that [main] evaluates are labels. *)
Definition labels_wf (data : HoaData) : Prop :=
  forall s t, In s (states data) -> In t (transitions s) ->
    wf_label (aliases data) (effective_label s t).

(** ** Notions used for the further properties *)

(** Two valuations give the same truth value to the first [n] relevant
    atomic propositions. *)
Definition agree_below (n : nat) (v w : Z) : Prop :=
  forall k, (k < n)%nat ->
    Z.testbit v (Z.of_nat k) = Z.testbit w (Z.of_nat k).

(** [w] says at least what [v] says: [v] is unknown or the two are the
    same. *)
Definition refines (v w : Z) : Prop := v = 0 \/ v = w.

(** The same on the results of [evalLabel]: both runs end the same way, and
    when they return, the second value says at least what the first says. *)
Definition result_refines (r r' : result Z) : Prop :=
  match r, r' with
  | Ret v, Ret w => refines v w
  | AssertFail, AssertFail => True
  | OutOfFuel, OutOfFuel => True
  | _, _ => False
  end.

(** The mask of [evalLabel] after [k] turns of the loop over [apIds]. *)
Fixpoint maskAt (k : nat) : Z :=
  match k with
  | O => 1
  | S k' => uint_shl (maskAt k') 1
  end.

(** The condition of the assertion that ends step 1 of [main]. *)
Definition apAssertion (data : HoaData) : bool :=
  Z.of_nat (List.length (collectUcntAPs (noAPs data) (cntAPs data)))
  =? countUcntAPs (noAPs data) (cntAPs data).

(** The number that [main] prints on the [parity] line. *)
Definition headerOf (data : HoaData) : Z :=
  int_sub (int_mul (noStates data) (int_add (numValuationsOf data) 1)) 1.

(** The acceptance signature that [main] reads for a transition of a
    state: the one of the state if it has one, else the one of the
    transition. *)
Definition effective_acc (s : StateList) (t : TransList) : list Z :=
  match s_accSig s with
  | [] => accSig t
  | _ :: _ => s_accSig s
  end.

(** The test [evald != -1] of [main] for a transition and a valuation. *)
Definition compatible (fuel : nat) (data : HoaData) (ucntAPs : list Z)
    (value : Z) (s : StateList) (t : TransList) : bool :=
  match evalLabel fuel (effective_label s t) (aliases data) ucntAPs value
  with
  | Ret evald => negb (evald =? -1)
  | AssertFail | OutOfFuel => false
  end.

(** [L] is the line of the vertex of transition [t] of state [s]: the
    adjusted priority of its acceptance set, owner 0, the successor of [t]
    as only successor, its identifier as label. *)
Definition compat_line_of (data : HoaData) (maxPrio : bool) (winR : Z)
    (s : StateList) (t : TransList) (L : OutLine) : Prop :=
  exists i,
    L = Vertex CompatV i
          (adjustPriority (hd 0 (effective_acc s t)) maxPrio winR
             (noAccSets data))
          0 [hd 0 (successors t)] (LInt i).

(** What the assertions of the transition loop ask of a transition. *)
Definition transition_checked (s : StateList) (t : TransList) : Prop :=
  (exists succ, successors t = [succ])
  /\ effective_label s t <> BNull
  /\ exists p, effective_acc s t = [p].

(** What a completed turn of the valuation loop shows of a state and a
    valuation: every transition passed the assertions and had its label
    evaluated, and at least one transition is compatible. *)
Definition valuation_served (fuel : nat) (data : HoaData)
    (ucntAPs : list Z) (s : StateList) (value : Z) : Prop :=
  (forall t, In t (transitions s) ->
     transition_checked s t
     /\ exists evald,
          evalLabel fuel (effective_label s t) (aliases data) ucntAPs value
          = Ret evald)
  /\ exists t, In t (transitions s)
               /\ compatible fuel data ucntAPs value s t = true.

(** A state with one transition labelled true and one labelled false. *)
Definition two_way_state : StateList :=
  mkState 0 None BNull []
    [mkTrans (bool_node true) [0] [0]; mkTrans (bool_node false) [0] [1]].

(** The successors on the line [L] are vertices of [out]: those of a
    valuation vertex are compatible-transition vertices, those of a
    decision vertex are valuation vertices. *)
Definition edges_ok (out : list OutLine) (L : OutLine) : Prop :=
  match L with
  | Vertex ValuationV _ _ _ succs _ =>
      forall x, In x succs -> In x (ids_of_kind CompatV out)
  | Vertex DecisionV _ _ _ succs _ =>
      forall x, In x succs -> In x (ids_of_kind ValuationV out)
  | _ => True
  end.

(** [L] is the line of a transition among [trans] of the state [s] that
    passed the assertions and is compatible with the valuation. *)
Definition compat_line_from (fuel : nat) (data : HoaData) (maxPrio : bool)
    (winR : Z) (ucntAPs : list Z) (s : StateList) (value : Z)
    (trans : list TransList) (L : OutLine) : Prop :=
  exists t,
    In t trans /\ transition_checked s t
    /\ compatible fuel data ucntAPs value s t = true
    /\ compat_line_of data maxPrio winR s t L.

(** If [L] is the line of a compatible-transition vertex, it comes from a
    state among [sts] and a valuation among [values]. *)
Definition compat_lines_from (fuel : nat) (data : HoaData) (maxPrio : bool)
    (winR : Z) (ucntAPs : list Z) (values : list Z) (sts : list StateList)
    (L : OutLine) : Prop :=
  match L with
  | Vertex CompatV _ _ _ _ _ =>
      exists s value,
        In s sts /\ In value values
        /\ compat_line_from fuel data maxPrio winR ucntAPs s value
             (transitions s) L
  | _ => True
  end.

(** A line of a compatible-transition vertex comes from the automaton:
    from a state, a transition of it and a valuation that [main] goes
    through. *)
Definition compat_line_origin (fuel : nat) (data : HoaData)
    (L : OutLine) : Prop :=
  compat_lines_from fuel data
    (maxPriority (paramLoop (accNameParameters data)))
    (winRes (paramLoop (accNameParameters data)))
    (collectUcntAPs (noAPs data) (cntAPs data))
    (valuations (numValuationsOf data)) (states data) L.

(** * Properties *)

(** ** Machine integers *)

Lemma int_wrap_small (z : Z) : in_int z -> int_wrap z = z.
Proof.
  unfold in_int, INT_MIN, INT_MAX, int_wrap. intros H.
  rewrite Z.mod_small; lia.
Qed.

Lemma int_wrap_range (z : Z) : in_int (int_wrap z).
Proof.
  unfold in_int, INT_MIN, INT_MAX, int_wrap.
  pose proof (Z.mod_pos_bound (z + 2 ^ 31) (2 ^ 32) ltac:(lia)). lia.
Qed.

Lemma int_add_small (a b : Z) : in_int (a + b) -> int_add a b = a + b.
Proof. apply int_wrap_small. Qed.

Lemma int_sub_small (a b : Z) : in_int (a - b) -> int_sub a b = a - b.
Proof. apply int_wrap_small. Qed.

Lemma int_mul_small (a b : Z) : in_int (a * b) -> int_mul a b = a * b.
Proof. apply int_wrap_small. Qed.

Lemma uint_wrap_small (z : Z) : 0 <= z < 2 ^ 32 -> uint_wrap z = z.
Proof. apply Z.mod_small. Qed.

(** ** adjustPriority *)

Section AdjustPriority.

Variables (p noPriorities winRes0 : Z) (maxPriority0 : bool).
Hypothesis p_range : 0 <= p < noPriorities.
Hypothesis small : noPriorities <= INT_MAX - 3.
Hypothesis winRes_bit : winRes0 = 0 \/ winRes0 = 1.

Lemma adjustPriority_eq :
  adjustPriority p maxPriority0 winRes0 noPriorities =
  (if maxPriority0 then p else evenCeil noPriorities - p) + (2 - winRes0).
Proof using p_range small winRes_bit.
  unfold adjustPriority, evenCeil, INT_MAX in *.
  assert (Hrem : (Z.rem noPriorities 2 =? 0) = Z.even noPriorities).
  { rewrite Z.rem_mod_nonneg by lia.
    rewrite Zeven_mod. reflexivity. }
  rewrite Hrem.
  destruct (Z.even noPriorities); cbn [negb];
    destruct maxPriority0;
    repeat (rewrite ?int_add_small, ?int_sub_small;
            unfold in_int, INT_MIN, INT_MAX; try lia).
Qed.

End AdjustPriority.

(** At the edge of [int] the sums of [adjustPriority] wrap around. *)
Example adjustPriority_wraps :
  adjustPriority (INT_MAX - 1) true 0 INT_MAX = INT_MIN.
Proof. vm_compute. reflexivity. Qed.

(** C2, as stated, fails: with an odd winning parity the shift is 1, so
    the raw priority 0 of a max objective is mapped to 1, which is below
    2. *)
Lemma adjustPriority_not_always_ge_2 :
  ~ (forall p noPriorities winRes0 maxPriority0,
        0 <= p < noPriorities -> winRes0 = 0 \/ winRes0 = 1 ->
        2 <= adjustPriority p maxPriority0 winRes0 noPriorities).
Proof.
  intros H. specialize (H 0 4 1 true ltac:(lia) ltac:(right; reflexivity)).
  vm_compute in H. apply H. reflexivity.
Qed.

(** C2, amended: for a raw priority [0 <= p < noPriorities] (with
    [noPriorities] small enough for the sums not to overflow) the adjusted
    priority is [pForMax + (2 - winRes)]; it is at least [2 - winRes], hence
    at least 1 and never the reserved 0, and at least 2 when even wins or
    when the objective is min.  With 4 priorities, max and even, 0 goes to
    2 and 3 to 5; with min the map reverses the order. *)
Theorem adjustPriority_lower_bound :
  forall p noPriorities winRes0 maxPriority0,
    0 <= p < noPriorities -> noPriorities <= INT_MAX - 3 ->
    winRes0 = 0 \/ winRes0 = 1 ->
    let out := adjustPriority p maxPriority0 winRes0 noPriorities in
    out = (if maxPriority0 then p else evenCeil noPriorities - p)
          + (2 - winRes0)
    /\ 2 - winRes0 <= out
    /\ 1 <= out
    /\ (winRes0 = 0 \/ maxPriority0 = false -> 2 <= out)
    /\ (forall q, p < q < noPriorities ->
          adjustPriority q false winRes0 noPriorities
          < adjustPriority p false winRes0 noPriorities)
    /\ adjustPriority 0 true 0 4 = 2
    /\ adjustPriority 3 true 0 4 = 5
    /\ adjustPriority 3 false 0 4 < adjustPriority 0 false 0 4.
Proof.
  intros p n w m Hp Hn Hw out.
  assert (Hout : out = (if m then p else evenCeil n - p) + (2 - w))
    by (apply adjustPriority_eq; assumption).
  assert (Hceil : n <= evenCeil n)
    by (unfold evenCeil; destruct (Z.even n); lia).
  repeat split.
  - exact Hout.
  - rewrite Hout. destruct m; lia.
  - rewrite Hout. destruct m; lia.
  - intros [Hw0 | Hm]; rewrite Hout.
    + destruct m; lia.
    + subst m. lia.
  - intros q Hq.
    rewrite (adjustPriority_eq q n w false), (adjustPriority_eq p n w false)
      by (assumption || lia).
    lia.
Qed.

Lemma adjustPriority_lower_bound_witness :
  adjustPriority 0 true 1 4 = 1 /\ adjustPriority 1 false 1 3 = 4.
Proof.
  pose proof (adjustPriority_lower_bound 0 4 1 true
                ltac:(lia) ltac:(unfold INT_MAX; lia)
                ltac:(right; reflexivity)) as H1.
  pose proof (adjustPriority_lower_bound 1 3 1 false
                ltac:(lia) ltac:(unfold INT_MAX; lia)
                ltac:(right; reflexivity)) as H2.
  cbv zeta in H1, H2.
  destruct H1 as [H1 _]. destruct H2 as [H2 _].
  split; [exact H1 | exact H2].
Defined.

(** ** The validation gate *)

Lemma paramStep_foundOrd (l : ParamLocals) (s : string) :
  foundOrd (paramStep l s)
  = foundOrd l || (String.eqb s "max" || String.eqb s "min").
Proof.
  unfold paramStep.
  destruct (String.eqb s "max"), (String.eqb s "min"),
    (String.eqb s "even"), (String.eqb s "odd"); cbn;
    rewrite ?orb_true_r, ?orb_false_r; reflexivity.
Qed.

Lemma paramStep_foundRes (l : ParamLocals) (s : string) :
  foundRes (paramStep l s)
  = foundRes l || (String.eqb s "even" || String.eqb s "odd").
Proof.
  unfold paramStep.
  destruct (String.eqb s "max"), (String.eqb s "min"),
    (String.eqb s "even"), (String.eqb s "odd"); cbn;
    rewrite ?orb_true_r, ?orb_false_r; reflexivity.
Qed.

Lemma mem_cons (s x : string) (l : list string) :
  mem s (x :: l) = String.eqb x s || mem s l.
Proof. reflexivity. Qed.

Lemma fold_paramStep_foundOrd (ps : list string) (l : ParamLocals) :
  foundOrd (fold_left paramStep ps l)
  = foundOrd l || (mem "max" ps || mem "min" ps).
Proof.
  revert l. induction ps as [|s ps IH]; intros l; cbn [fold_left].
  - cbn. now rewrite orb_false_r.
  - rewrite IH, paramStep_foundOrd, !mem_cons.
    destruct (foundOrd l), (String.eqb s "max"), (String.eqb s "min"),
      (mem "max" ps), (mem "min" ps); reflexivity.
Qed.

Lemma fold_paramStep_foundRes (ps : list string) (l : ParamLocals) :
  foundRes (fold_left paramStep ps l)
  = foundRes l || (mem "even" ps || mem "odd" ps).
Proof.
  revert l. induction ps as [|s ps IH]; intros l; cbn [fold_left].
  - cbn. now rewrite orb_false_r.
  - rewrite IH, paramStep_foundRes, !mem_cons.
    destruct (foundRes l), (String.eqb s "even"), (String.eqb s "odd"),
      (mem "even" ps), (mem "odd" ps); reflexivity.
Qed.

Lemma paramLoop_foundOrd (ps : list string) :
  foundOrd (paramLoop ps) = mem "max" ps || mem "min" ps.
Proof. unfold paramLoop. now rewrite fold_paramStep_foundOrd. Qed.

Lemma paramLoop_foundRes (ps : list string) :
  foundRes (paramLoop ps) = mem "even" ps || mem "odd" ps.
Proof. unfold paramLoop. now rewrite fold_paramStep_foundRes. Qed.

Lemma propStep_flags (l : PropLocals) (s : string) :
  det (propStep l s) = det l || String.eqb s "deterministic"
  /\ complete (propStep l s) = complete l || String.eqb s "complete"
  /\ colored (propStep l s) = colored l || String.eqb s "colored".
Proof.
  unfold propStep.
  destruct (String.eqb s "deterministic"), (String.eqb s "complete"),
    (String.eqb s "colored"); cbn;
    rewrite ?orb_true_r, ?orb_false_r; repeat split.
Qed.

Lemma fold_propStep_flags (ps : list string) (l : PropLocals) :
  det (fold_left propStep ps l) = det l || mem "deterministic" ps
  /\ complete (fold_left propStep ps l) = complete l || mem "complete" ps
  /\ colored (fold_left propStep ps l) = colored l || mem "colored" ps.
Proof.
  revert l. induction ps as [|s ps IH]; intros l; cbn [fold_left].
  - cbn. rewrite !orb_false_r. repeat split.
  - destruct (IH (propStep l s)) as (-> & -> & ->).
    destruct (propStep_flags l s) as (-> & -> & ->).
    rewrite !mem_cons, <- !orb_assoc. repeat split.
Qed.

Lemma propLoop_flags (ps : list string) :
  det (propLoop ps) = mem "deterministic" ps
  /\ complete (propLoop ps) = mem "complete" ps
  /\ colored (propLoop ps) = mem "colored" ps.
Proof. unfold propLoop. apply fold_propStep_flags. Qed.

Lemma mem_In (s : string) (l : list string) : mem s l = true <-> In s l.
Proof.
  unfold mem. rewrite existsb_exists. split.
  - intros (x & Hx & Heq). apply String.eqb_eq in Heq. now subst.
  - intros H. exists s. split; [assumption | apply String.eqb_refl].
Qed.

(** [main] after a successful parse, with the flags of the two loops
    replaced by membership tests. *)
Lemma main_gate (fuel : nat) (data : HoaData) :
  main fuel 0 data =
  if negb (String.eqb (accNameID data) "parity") then rret 100 else
  if negb (mem "max" (accNameParameters data)
           || mem "min" (accNameParameters data)) then rret 101 else
  if negb (mem "even" (accNameParameters data)
           || mem "odd" (accNameParameters data)) then rret 102 else
  if negb (mem "deterministic" (properties data)) then rret 200 else
  if negb (mem "complete" (properties data)) then rret 201 else
  if negb (mem "colored" (properties data)) then rret 202 else
  match start data with
  | [_] =>
      let pl := paramLoop (accNameParameters data) in
      let numUcntAPs := countUcntAPs (noAPs data) (cntAPs data) in
      let ucntAPs := collectUcntAPs (noAPs data) (cntAPs data) in
      assert (Z.of_nat (List.length ucntAPs) =? numUcntAPs) ;;;
      let numValuations := int_shl 1 numUcntAPs in
      printf (Header (int_sub (int_mul (noStates data)
                                 (int_add numValuations 1)) 1)) ;;;
      stateLoop fuel data (maxPriority pl) (winRes pl) ucntAPs numValuations
        (states data) (noStates data) ;;;
      rret EXIT_SUCCESS
  | _ => rret 300
  end.
Proof.
  unfold main. cbn [Z.eqb negb].
  rewrite paramLoop_foundOrd, paramLoop_foundRes.
  destruct (propLoop_flags (properties data)) as (-> & -> & ->).
  reflexivity.
Qed.

Lemma rbind_construction_result {A : Type} (m : run A) (k : run Z) :
  construction_result (snd k) -> construction_result (snd (m ;;; k)).
Proof.
  unfold construction_result.
  destruct m as [out [a| |]], k as [out' r]; cbn; auto.
Qed.

Lemma main_past_gate_result (fuel : nat) (data : HoaData) :
  firstFailure data = None ->
  construction_result (snd (main fuel 0 data)).
Proof.
  rewrite main_gate. unfold firstFailure, validationChecks.
  cbn [find fst snd option_map].
  destruct (String.eqb (accNameID data) "parity"); cbn [negb];
    [|discriminate].
  destruct (mem "max" (accNameParameters data)
            || mem "min" (accNameParameters data)); cbn [negb];
    [|discriminate].
  destruct (mem "even" (accNameParameters data)
            || mem "odd" (accNameParameters data)); cbn [negb];
    [|discriminate].
  destruct (mem "deterministic" (properties data)); cbn [negb];
    [|discriminate].
  destruct (mem "complete" (properties data)); cbn [negb]; [|discriminate].
  destruct (mem "colored" (properties data)); cbn [negb]; [|discriminate].
  destruct (start data) as [|s0 [|s1 rest]];
    cbn [List.length Nat.eqb negb]; try discriminate.
  intros _. cbv zeta.
  repeat apply rbind_construction_result.
  left. reflexivity.
Qed.

(** C10: the exit code of [main] is the code of the first check of the
    gate that fails, in the order 100, 101, 102, 200, 201, 202, 300,
    whatever the later checks would say, and nothing is printed. *)
Theorem main_exit_code_first_failure :
  forall (fuel : nat) (data : HoaData) (code : Z),
    firstFailure data = Some code ->
    main fuel 0 data = ([], Ret code).
Proof.
  intros fuel data code. rewrite main_gate.
  unfold firstFailure, validationChecks. cbn [find fst snd option_map].
  destruct (String.eqb (accNameID data) "parity"); cbn [negb];
    [|intros [= <-]; reflexivity].
  destruct (mem "max" (accNameParameters data)
            || mem "min" (accNameParameters data)); cbn [negb];
    [|intros [= <-]; reflexivity].
  destruct (mem "even" (accNameParameters data)
            || mem "odd" (accNameParameters data)); cbn [negb];
    [|intros [= <-]; reflexivity].
  destruct (mem "deterministic" (properties data)); cbn [negb];
    [|intros [= <-]; reflexivity].
  destruct (mem "complete" (properties data)); cbn [negb];
    [|intros [= <-]; reflexivity].
  destruct (mem "colored" (properties data)); cbn [negb];
    [|intros [= <-]; reflexivity].
  destruct (start data) as [|s0 [|s1 rest]]; cbn;
    solve [discriminate | intros [= <-]; reflexivity].
Qed.

Lemma main_exit_code_first_failure_witness :
  firstFailure rabin_two_starts = Some 100
  /\ main 0 0 rabin_two_starts = ([], Ret 100).
Proof.
  split.
  - reflexivity.
  - apply (main_exit_code_first_failure 0 rabin_two_starts 100).
    reflexivity.
Defined.

Lemma paramCheckPasses_mem (ps : list string) :
  paramCheckPasses ps
  = (mem "max" ps || mem "min" ps) && (mem "even" ps || mem "odd" ps).
Proof.
  unfold paramCheckPasses.
  now rewrite paramLoop_foundOrd, paramLoop_foundRes.
Qed.

(** C6, as stated, fails: a parameter list with both [max] and [min] does
    not have exactly one of the pair, and yet it passes the check; the
    game is built and the run ends with [EXIT_SUCCESS]. *)
Lemma param_check_accepts_both_members :
  paramsExactlyOne ["max"; "min"; "even"]%string = false
  /\ paramCheckPasses ["max"; "min"; "even"]%string = true
  /\ main 2 0 (loop_hoa [bool_node true] ["max"; "min"; "even"]%string)
     = ([Header 1;
         Vertex CompatV 2 4 0 [0] (LInt 2);
         Vertex ValuationV 1 0 0 [2] (LInt 1);
         Vertex DecisionV 0 0 1 [1; 1] (LInt 0)], Ret EXIT_SUCCESS).
Proof. repeat split. Qed.

(** C6, amended: the parameter check passes if and only if the list has
    at least one of [max], [min] and at least one of [even], [odd]; so a
    list with both members of a pair passes.  For a parity automaton, a
    list without [max] and [min] gives exit code 101, a list with one of
    them and without [even] and [odd] gives 102, these are the only runs
    that end with 101 or 102, and nothing is printed when the check
    fails. *)
Theorem param_check_at_least_one :
  forall (fuel : nat) (data : HoaData),
    let ps := accNameParameters data in
    (paramCheckPasses ps = true <->
       (In "max"%string ps \/ In "min"%string ps)
       /\ (In "even"%string ps \/ In "odd"%string ps))
    /\ (String.eqb (accNameID data) "parity" = true ->
        (~ In "max"%string ps /\ ~ In "min"%string ps ->
           main fuel 0 data = ([], Ret 101))
        /\ (In "max"%string ps \/ In "min"%string ps ->
            ~ In "even"%string ps /\ ~ In "odd"%string ps ->
            main fuel 0 data = ([], Ret 102))
        /\ (paramCheckPasses ps = false <->
              snd (main fuel 0 data) = Ret 101
              \/ snd (main fuel 0 data) = Ret 102)
        /\ (paramCheckPasses ps = false -> fst (main fuel 0 data) = [])).
Proof.
  intros fuel data ps.
  assert (Hpass : paramCheckPasses ps = true <->
                  (In "max"%string ps \/ In "min"%string ps)
                  /\ (In "even"%string ps \/ In "odd"%string ps)).
  { rewrite paramCheckPasses_mem, andb_true_iff, !orb_true_iff, !mem_In.
    reflexivity. }
  split; [exact Hpass|].
  intros Hparity.
  assert (Hord : mem "max" ps || mem "min" ps = true <->
                 In "max"%string ps \/ In "min"%string ps)
    by (rewrite orb_true_iff, !mem_In; reflexivity).
  assert (Hres : mem "even" ps || mem "odd" ps = true <->
                 In "even"%string ps \/ In "odd"%string ps)
    by (rewrite orb_true_iff, !mem_In; reflexivity).
  assert (H101 : mem "max" ps || mem "min" ps = false ->
                 main fuel 0 data = ([], Ret 101)).
  { intros H. rewrite main_gate, Hparity. fold ps. rewrite H. reflexivity. }
  assert (H102 : mem "max" ps || mem "min" ps = true ->
                 mem "even" ps || mem "odd" ps = false ->
                 main fuel 0 data = ([], Ret 102)).
  { intros H H'. rewrite main_gate, Hparity. fold ps. rewrite H, H'.
    reflexivity. }
  repeat split.
  - intros [Hmax Hmin]. apply H101.
    apply not_true_is_false. intros E. apply Hord in E. tauto.
  - intros Ho [Heven Hodd]. apply H102.
    + now apply Hord.
    + apply not_true_is_false. intros E. apply Hres in E. tauto.
  - rewrite paramCheckPasses_mem. intros Hfail.
    destruct (mem "max" ps || mem "min" ps) eqn:E.
    + cbn in Hfail. right. rewrite (H102 eq_refl Hfail). reflexivity.
    + left. rewrite (H101 eq_refl). reflexivity.
  - intros Hcodes.
    destruct (paramCheckPasses ps) eqn:E; [exfalso|reflexivity].
    rewrite paramCheckPasses_mem, andb_true_iff in E. destruct E as [E1 E2].
    revert Hcodes. rewrite main_gate, Hparity. fold ps. rewrite E1, E2.
    cbn [negb].
    destruct (mem "deterministic" (properties data)); cbn [negb];
      [|cbn; intros [H|H]; discriminate].
    destruct (mem "complete" (properties data)); cbn [negb];
      [|cbn; intros [H|H]; discriminate].
    destruct (mem "colored" (properties data)); cbn [negb];
      [|cbn; intros [H|H]; discriminate].
    destruct (start data) as [|s0 [|s1 rest]];
      try (cbn; intros [H|H]; discriminate).
    cbv zeta.
    match goal with
    | |- snd ?m = _ \/ _ -> _ =>
        assert (Hc : construction_result (snd m))
          by (repeat apply rbind_construction_result; left; reflexivity);
        destruct Hc as [Hc|[Hc|Hc]]; rewrite Hc;
        intros [H|H]; discriminate
    end.
  - rewrite paramCheckPasses_mem. intros Hfail.
    destruct (mem "max" ps || mem "min" ps) eqn:E.
    + cbn in Hfail. rewrite (H102 eq_refl Hfail). reflexivity.
    + rewrite (H101 eq_refl). reflexivity.
Qed.

Lemma param_check_at_least_one_witness :
  main 0 0 (loop_hoa [] ["even"]%string) = ([], Ret 101)
  /\ main 0 0 (loop_hoa [] ["min"]%string) = ([], Ret 102).
Proof.
  split.
  - apply (param_check_at_least_one 0 (loop_hoa [] ["even"]%string));
      [reflexivity|].
    split; intros [H|[]]; discriminate H.
  - apply (param_check_at_least_one 0 (loop_hoa [] ["min"]%string));
      [reflexivity| |].
    + right. left. reflexivity.
    + split; intros [H|[]]; discriminate H.
Defined.

(** ** evalLabel *)

Lemma apLoop_ternary (id : Z) (apIds : list Z) (mask value : Z) :
  ternary (apLoop id apIds mask value).
Proof.
  unfold ternary. revert mask.
  induction apIds as [|a rest IH]; intros mask; cbn.
  - auto.
  - destruct (id =? a); [|apply IH].
    destruct (Z.land mask value =? mask); auto.
Qed.

Lemma apLoop_not_in (id : Z) (apIds : list Z) (mask value : Z) :
  ~ In id apIds -> apLoop id apIds mask value = 0.
Proof.
  revert mask. induction apIds as [|a rest IH]; intros mask Hin; cbn.
  - reflexivity.
  - destruct (Z.eqb_spec id a) as [->|Hne].
    + exfalso. apply Hin. now left.
    + apply IH. intros H. apply Hin. now right.
Qed.

(** The cell of the [k]-th relevant AP decides by bit [k] of the
    valuation. *)
Lemma apLoop_bit (id : Z) (pre post : list Z) (value : Z) :
  ~ In id pre -> (List.length pre < 32)%nat ->
  apLoop id (pre ++ id :: post) 1 value
  = if Z.testbit value (Z.of_nat (List.length pre)) then 1 else -1.
Proof.
  intros Hpre Hlen.
  assert (Hgen : forall k, (k + List.length pre < 32)%nat ->
            apLoop id (pre ++ id :: post) (2 ^ Z.of_nat k) value
            = if Z.testbit value (Z.of_nat (k + List.length pre))
              then 1 else -1).
  { revert Hpre. clear Hlen.
    induction pre as [|a pre IH]; intros Hpre k Hk; cbn [app apLoop].
    - rewrite Z.eqb_refl, Nat.add_0_r.
      set (K := Z.of_nat k). assert (0 <= K) by lia.
      destruct (Z.testbit value K) eqn:Hbit.
      + replace (Z.land (2 ^ K) value) with (2 ^ K).
        * now rewrite Z.eqb_refl.
        * symmetry. apply Z.bits_inj'. intros n Hn.
          rewrite Z.land_spec. destruct (Z.eq_dec n K) as [->|Hne].
          -- rewrite Hbit, andb_true_r. reflexivity.
          -- rewrite Z.pow2_bits_false by lia. reflexivity.
      + destruct (Z.eqb_spec (Z.land (2 ^ K) value) (2 ^ K)) as [Heq|];
          [|reflexivity].
        exfalso.
        assert (Hb : Z.testbit (Z.land (2 ^ K) value) K = true)
          by (rewrite Heq; apply Z.pow2_bits_true; lia).
        rewrite Z.land_spec, Hbit, andb_false_r in Hb. discriminate.
    - destruct (Z.eqb_spec id a) as [->|Hne].
      + exfalso. apply Hpre. now left.
      + cbn [List.length] in Hk.
        replace (uint_shl (2 ^ Z.of_nat k) 1) with (2 ^ Z.of_nat (S k)).
        * rewrite IH by (try lia; intros H; apply Hpre; now right).
          cbn [List.length]. now rewrite Nat.add_succ_r.
        * unfold uint_shl. rewrite Z.shiftl_mul_pow2 by lia.
          rewrite Nat2Z.inj_succ, Z.pow_succ_r by lia.
          rewrite uint_wrap_small; [lia|].
          split; [lia|].
          replace (2 ^ Z.of_nat k * 2 ^ 1) with (2 ^ (Z.of_nat k + 1))
            by (rewrite Z.pow_add_r; lia).
          apply Z.pow_lt_mono_r; lia. }
  apply (Hgen 0%nat). lia.
Qed.

Lemma evalLabel_fuel_mono (als : list AliasList) (apIds : list Z)
    (value : Z) (n : nat) :
  forall (e : BTree) (r : result Z),
    evalLabel n e als apIds value = r -> r <> OutOfFuel ->
    forall m, (n <= m)%nat -> evalLabel m e als apIds value = r.
Proof.
  induction n as [|n IH]; intros e r He Hr m Hm.
  - cbn in He. congruence.
  - destruct m as [|m]; [lia|]. assert (Hnm : (n <= m)%nat) by lia.
    cbn [evalLabel] in *.
    destruct e as [|l r0 nm id ty]; [assumption|].
    destruct ty; try assumption.
    + destruct (evalLabel n l als apIds value) as [vl| |] eqn:El;
        cbn [bind] in He; try congruence.
      * rewrite (IH l (Ret vl) El ltac:(discriminate) m Hnm). cbn [bind].
        destruct (evalLabel n r0 als apIds value) as [vr| |] eqn:Er;
          cbn [bind] in He; try congruence.
        -- now rewrite (IH r0 (Ret vr) Er ltac:(discriminate) m Hnm).
        -- now rewrite (IH r0 AssertFail Er ltac:(discriminate) m Hnm).
      * now rewrite (IH l AssertFail El ltac:(discriminate) m Hnm).
    + destruct (evalLabel n l als apIds value) as [vl| |] eqn:El;
        cbn [bind] in He; try congruence.
      * rewrite (IH l (Ret vl) El ltac:(discriminate) m Hnm). cbn [bind].
        destruct (evalLabel n r0 als apIds value) as [vr| |] eqn:Er;
          cbn [bind] in He; try congruence.
        -- now rewrite (IH r0 (Ret vr) Er ltac:(discriminate) m Hnm).
        -- now rewrite (IH r0 AssertFail Er ltac:(discriminate) m Hnm).
      * now rewrite (IH l AssertFail El ltac:(discriminate) m Hnm).
    + destruct (evalLabel n l als apIds value) as [vl| |] eqn:El;
        cbn [bind] in He; try congruence.
      * now rewrite (IH l (Ret vl) El ltac:(discriminate) m Hnm).
      * now rewrite (IH l AssertFail El ltac:(discriminate) m Hnm).
    + destruct (aliasLoop als nm) as [e'|]; [|assumption].
      apply (IH e' r He Hr m Hnm).
Qed.

Lemma evaluates_functional (als : list AliasList) (apIds : list Z)
    (value : Z) (e : BTree) (v w : Z) :
  evaluates als apIds value e v -> evaluates als apIds value e w -> v = w.
Proof.
  intros [n Hn] [m Hm].
  specialize (Hn (Nat.max n m) (Nat.le_max_l n m)).
  specialize (Hm (Nat.max n m) (Nat.le_max_r n m)).
  congruence.
Qed.

Ltac fuel_succ fuel H :=
  destruct fuel as [|fuel]; [exfalso; lia | apply le_S_n in H].

Section Kleene.

Variables (als : list AliasList) (apIds : list Z) (value : Z).

Lemma evaluates_bool l r nm id :
  evaluates als apIds value (BNode l r nm id NT_BOOL)
    (if id =? 0 then -1 else 1).
Proof. exists 1%nat. intros fuel H. fuel_succ fuel H. reflexivity. Qed.

Lemma evaluates_ap l r nm id :
  evaluates als apIds value (BNode l r nm id NT_AP)
    (apLoop id apIds 1 value).
Proof. exists 1%nat. intros fuel H. fuel_succ fuel H. reflexivity. Qed.

Lemma evaluates_and l r nm id vl vr :
  evaluates als apIds value l vl -> evaluates als apIds value r vr ->
  evaluates als apIds value (BNode l r nm id NT_AND)
    (if (vl =? -1) || (vr =? -1) then -1
     else if (vl =? 0) || (vr =? 0) then 0 else 1).
Proof.
  intros [n Hn] [m Hm]. exists (S (Nat.max n m)). intros fuel H.
  fuel_succ fuel H. cbn [evalLabel].
  rewrite Hn, Hm by lia. cbn [bind].
  destruct ((vl =? -1) || (vr =? -1)); [reflexivity|].
  destruct ((vl =? 0) || (vr =? 0)); reflexivity.
Qed.

Lemma evaluates_or l r nm id vl vr :
  evaluates als apIds value l vl -> evaluates als apIds value r vr ->
  evaluates als apIds value (BNode l r nm id NT_OR)
    (if (vl =? 1) || (vr =? 1) then 1
     else if (vl =? 0) || (vr =? 0) then 0 else -1).
Proof.
  intros [n Hn] [m Hm]. exists (S (Nat.max n m)). intros fuel H.
  fuel_succ fuel H. cbn [evalLabel].
  rewrite Hn, Hm by lia. cbn [bind].
  destruct ((vl =? 1) || (vr =? 1)); [reflexivity|].
  destruct ((vl =? 0) || (vr =? 0)); reflexivity.
Qed.

Lemma evaluates_not l r nm id v :
  evaluates als apIds value l v ->
  evaluates als apIds value (BNode l r nm id NT_NOT) (int_mul (-1) v).
Proof.
  intros [n Hn]. exists (S n). intros fuel H. fuel_succ fuel H.
  cbn [evalLabel]. rewrite Hn by lia. reflexivity.
Qed.

Lemma evaluates_alias l r nm id e v :
  aliasLoop als nm = Some e -> evaluates als apIds value e v ->
  evaluates als apIds value (BNode l r nm id NT_ALIAS) v.
Proof.
  intros Ha [n Hn]. exists (S n). intros fuel H. fuel_succ fuel H.
  cbn [evalLabel]. rewrite Ha. apply Hn. lia.
Qed.

Lemma int_mul_flip (v : Z) : ternary v -> int_mul (-1) v = flip v.
Proof.
  unfold ternary, flip. intros [-> | [-> | ->]]; reflexivity.
Qed.

Lemma flip_ternary (v : Z) : ternary v -> ternary (flip v).
Proof. unfold ternary, flip. lia. Qed.

(** On a label [evalLabel] returns, and returns a truth value. *)
Lemma evalLabel_wf_total (e : BTree) :
  wf_label als e -> exists v, ternary v /\ evaluates als apIds value e v.
Proof.
  induction 1 as [l r nm id | l r nm id _ [vl [Tl El]] _ [vr [Tr Er]]
                 | l r nm id _ [vl [Tl El]] _ [vr [Tr Er]]
                 | l r nm id _ [v [Tv Ev]] | l r nm id
                 | l r nm id e Ha _ [v [Tv Ev]]].
  - eexists. split; [|apply evaluates_bool].
    unfold ternary. destruct (id =? 0); auto.
  - eexists. split; [|apply evaluates_and; eassumption].
    unfold ternary.
    destruct ((vl =? -1) || (vr =? -1)); auto.
    destruct ((vl =? 0) || (vr =? 0)); auto.
  - eexists. split; [|apply evaluates_or; eassumption].
    unfold ternary.
    destruct ((vl =? 1) || (vr =? 1)); auto.
    destruct ((vl =? 0) || (vr =? 0)); auto.
  - exists (flip v). split; [now apply flip_ternary|].
    rewrite <- int_mul_flip by assumption. now apply evaluates_not.
  - eexists. split; [apply apLoop_ternary | apply evaluates_ap].
  - exists v. split; [assumption|].
    eapply evaluates_alias; eassumption.
Qed.

Lemma and_true_neutral (v t : Z) :
  ternary v -> t = 1 ->
  (if (v =? -1) || (t =? -1) then -1
   else if (v =? 0) || (t =? 0) then 0 else 1) = v.
Proof. unfold ternary. intros [-> | [-> | ->]] ->; reflexivity. Qed.

Lemma or_false_neutral (v t : Z) :
  ternary v -> t = -1 ->
  (if (v =? 1) || (t =? 1) then 1
   else if (v =? 0) || (t =? 0) then 0 else -1) = v.
Proof. unfold ternary. intros [-> | [-> | ->]] ->; reflexivity. Qed.

End Kleene.

(** C7: on labels, [evalLabel] follows Kleene's three-valued logic: the
    negation of [e] evaluates to the flipped value of [e], the conjunction
    of [e] with the constant true and the disjunction of [e] with the
    constant false evaluate to the value of [e], and an atomic proposition
    that is not among the relevant ones evaluates to unknown whatever the
    valuation. *)
Theorem evalLabel_kleene :
  forall (als : list AliasList) (apIds : list Z) (value : Z),
    (forall e, wf_label als e ->
       exists v, ternary v
         /\ evaluates als apIds value e v
         /\ (forall r nm id,
               evaluates als apIds value (BNode e r nm id NT_NOT) (flip v))
         /\ (forall tl tr tnm tid nm id, tid <> 0 ->
               evaluates als apIds value
                 (BNode e (BNode tl tr tnm tid NT_BOOL) nm id NT_AND) v)
         /\ (forall tl tr tnm nm id,
               evaluates als apIds value
                 (BNode e (BNode tl tr tnm 0 NT_BOOL) nm id NT_OR) v))
    /\ (forall i l r nm, ~ In i apIds ->
          evaluates als apIds value (BNode l r nm i NT_AP) 0).
Proof.
  intros als apIds value. split.
  - intros e Hwf.
    destruct (evalLabel_wf_total als apIds value e Hwf) as (v & Tv & Ev).
    exists v. repeat split; try assumption.
    + intros r nm id. rewrite <- int_mul_flip by assumption.
      now apply evaluates_not.
    + intros tl tr tnm tid nm id Htid.
      pose proof (evaluates_and als apIds value e _ nm id v _ Ev
                    (evaluates_bool als apIds value tl tr tnm tid)) as H.
      rewrite and_true_neutral in H; [exact H | assumption |].
      destruct (Z.eqb_spec tid 0); [contradiction | reflexivity].
    + intros tl tr tnm nm id.
      pose proof (evaluates_or als apIds value e _ nm id v _ Ev
                    (evaluates_bool als apIds value tl tr tnm 0)) as H.
      rewrite or_false_neutral in H; [exact H | assumption | reflexivity].
  - intros i l r nm Hin.
    rewrite <- (apLoop_not_in i apIds 1 value Hin).
    apply evaluates_ap.
Qed.

Lemma evalLabel_kleene_witness :
  evaluates [mkAlias "a" (ap_node 0)] [0] 1
    (not_node (alias_node "a")) (-1)
  /\ evaluates [] [0] 1 (ap_node 5) 0.
Proof.
  split.
  - destruct (proj1 (evalLabel_kleene [mkAlias "a" (ap_node 0)] [0] 1)
                (alias_node "a")) as (v & Tv & Ev & Hnot & _).
    + eapply wf_alias; [reflexivity | apply wf_ap].
    + assert (Hv : v = 1).
      { apply (evaluates_functional _ _ _ _ _ _ Ev).
        exists 2%nat. intros fuel H.
        apply (evalLabel_fuel_mono _ _ _ 2); [reflexivity | discriminate
                                             | exact H]. }
      subst v. apply Hnot.
  - apply (proj2 (evalLabel_kleene [] [0] 1)).
    intros [H|[]]. discriminate H.
Defined.

Lemma evalLabel_self_alias_diverges (apIds : list Z) (value : Z) :
  forall fuel,
    evalLabel fuel (alias_node "a") self_alias apIds value = OutOfFuel.
Proof.
  induction fuel as [|fuel IH]; [reflexivity|]. exact IH.
Qed.

(** An alias may also be bound to what is no label, or to a name that is
    bound to nothing. *)
Example evalLabel_alias_of_fin :
  evalLabel 2 (alias_node "a") [mkAlias "a" (fin_node 0)] [] 0 = AssertFail.
Proof. reflexivity. Qed.

Example evalLabel_alias_of_unbound :
  evalLabel 2 (alias_node "a") [mkAlias "a" (alias_node "b")] [] 0
  = Ret (-2).
Proof. reflexivity. Qed.

(** C9, as stated, fails: in a table that binds [a] to a reference to [a]
    every name resolves, in the tree and in the table, and [evalLabel]
    does not return. *)
Lemma evalLabel_not_total_when_names_resolve :
  ~ (forall (als : list AliasList) (apIds : list Z) (value : Z) (e : BTree),
        names_resolve als e = true ->
        Forall (fun c => names_resolve als (labelExpr c) = true) als ->
        exists fuel v,
          evalLabel fuel e als apIds value = Ret v /\ ternary v).
Proof.
  intros H.
  destruct (H self_alias [] 0 (alias_node "a") eq_refl) as (fuel & v & E & _).
  - constructor; [reflexivity | constructor].
  - rewrite evalLabel_self_alias_diverges in E. discriminate.
Qed.

(** C9, amended: on a tree built of the five label kinds and of aliases
    that the table resolves, through finitely many look-ups, to such trees,
    [evalLabel] returns with every large enough budget, its value is -1, 0
    or 1, and with no budget does it fail an assertion or return -2. *)
Theorem evalLabel_total_on_labels :
  forall (als : list AliasList) (apIds : list Z) (value : Z) (e : BTree),
    wf_label als e ->
    (exists v, ternary v /\ evaluates als apIds value e v)
    /\ (forall fuel,
          evalLabel fuel e als apIds value <> AssertFail
          /\ evalLabel fuel e als apIds value <> Ret (-2)).
Proof.
  intros als apIds value e Hwf.
  destruct (evalLabel_wf_total als apIds value e Hwf) as (v & Tv & n & Hn).
  split.
  - exists v. split; [assumption | now exists n].
  - intros fuel.
    assert (Hcases : evalLabel fuel e als apIds value = OutOfFuel
                     \/ evalLabel fuel e als apIds value = Ret v).
    { destruct (evalLabel fuel e als apIds value) as [w| |] eqn:E; auto;
        right.
      - rewrite <- (Hn (Nat.max fuel n)) by lia.
        symmetry. apply (evalLabel_fuel_mono _ _ _ fuel);
          [assumption | discriminate | lia].
      - rewrite <- (Hn (Nat.max fuel n)) by lia.
        symmetry. apply (evalLabel_fuel_mono _ _ _ fuel);
          [assumption | discriminate | lia]. }
    destruct Hcases as [-> | ->]; split; try discriminate.
    intros [= ->]. unfold ternary in Tv. lia.
Qed.

Lemma evalLabel_total_on_labels_witness :
  exists v, ternary v
    /\ evaluates [mkAlias "a" (ap_node 0)] [0] 1
         (and_node (alias_node "a") (bool_node true)) v.
Proof.
  apply (evalLabel_total_on_labels [mkAlias "a" (ap_node 0)] [0] 1
           (and_node (alias_node "a") (bool_node true))).
  apply wf_and.
  - eapply wf_alias; [reflexivity | apply wf_ap].
  - apply wf_bool.
Defined.

(** The alias loop stops at the first cell that has the name. *)
Lemma aliasLoop_first (pre post : list AliasList) (c : AliasList) :
  Forall (fun c' => alias c' <> alias c) pre ->
  aliasLoop (pre ++ c :: post) (alias c) = Some (labelExpr c).
Proof.
  induction 1 as [|c' pre Hc' _ IH]; cbn.
  - now rewrite String.eqb_refl.
  - destruct (String.eqb_spec (alias c') (alias c)); [contradiction|].
    exact IH.
Qed.

Lemma aliasLoop_none (als : list AliasList) (nm : string) :
  aliasLoop als nm = None <-> Forall (fun c => alias c <> nm) als.
Proof.
  induction als as [|c als IH]; cbn.
  - split; [constructor | reflexivity].
  - destruct (String.eqb_spec (alias c) nm) as [Heq|Hne].
    + split; [discriminate|]. intros H. inversion H. contradiction.
    + rewrite IH. split; [now constructor | intros H; now inversion H].
Qed.

(** A bound alias is evaluated as the expression of its first cell. *)
Lemma evalLabel_bound_alias (fuel : nat) (pre post : list AliasList)
    (c : AliasList) (l r : BTree) (id : Z) (apIds : list Z) (value : Z) :
  Forall (fun c' => alias c' <> alias c) pre ->
  evalLabel (S fuel) (BNode l r (alias c) id NT_ALIAS) (pre ++ c :: post)
    apIds value
  = evalLabel fuel (labelExpr c) (pre ++ c :: post) apIds value.
Proof.
  intros H. cbn [evalLabel]. now rewrite aliasLoop_first.
Qed.

(** An alias that no cell binds is not a failed assertion: [evalLabel]
    returns -2. *)
Lemma evalLabel_unbound_alias (fuel : nat) (als : list AliasList)
    (l r : BTree) (nm : string) (id : Z) (apIds : list Z) (value : Z) :
  Forall (fun c => alias c <> nm) als ->
  evalLabel (S fuel) (BNode l r nm id NT_ALIAS) als apIds value = Ret (-2).
Proof.
  intros H. apply aliasLoop_none in H. cbn [evalLabel]. now rewrite H.
Qed.

(** C5: what the code does on an alias that the table does not bind.
    [evalLabel] returns -2 and no assertion fails; under a conjunction with
    true the -2 turns into true, under a negation into 2; and [main]
    takes the -2 for a compatible transition, prints its vertex and ends
    with [EXIT_SUCCESS]. *)
Theorem evalLabel_unbound_alias_no_abort :
  evalLabel 1 (alias_node "x") [] [] 0 = Ret (-2)
  /\ evalLabel 2 (and_node (alias_node "x") (bool_node true)) [] [] 0 = Ret 1
  /\ evalLabel 2 (not_node (alias_node "x")) [] [] 0 = Ret 2
  /\ main 1 0 (loop_hoa [alias_node "x"] ["max"; "even"]%string)
     = ([Header 1;
         Vertex CompatV 2 2 0 [0] (LInt 2);
         Vertex ValuationV 1 0 0 [2] (LInt 1);
         Vertex DecisionV 0 0 1 [1; 1] (LInt 0)], Ret EXIT_SUCCESS).
Proof. repeat split. Qed.

(** ** The run monad *)

Lemma assert_bind {A : Type} (b : bool) (k : run A) :
  (assert b ;;; k) = if b then k else ([], AssertFail).
Proof. destruct b, k as [out r]; reflexivity. Qed.

Lemma lift_bind {A B : Type} (m : result A) (k : A -> run B) :
  (x <-- lift m ;; k x)
  = match m with
    | Ret a => k a
    | AssertFail => ([], AssertFail)
    | OutOfFuel => ([], OutOfFuel)
    end.
Proof.
  destruct m as [a| |]; cbn; try reflexivity. now destruct (k a).
Qed.

Lemma printf_bind {A : Type} (o : OutLine) (k : run A) :
  (printf o ;;; k) = (o :: fst k, snd k).
Proof. destruct k as [out r]; reflexivity. Qed.

Lemma rbind_inv {A B : Type} (m : run A) (f : A -> run B)
    (out : list OutLine) (r : result B) :
  rbind m f = (out, r) ->
  (exists o1 a o2, m = (o1, Ret a) /\ f a = (o2, r) /\ out = o1 ++ o2)
  \/ (m = (out, AssertFail) /\ r = AssertFail)
  \/ (m = (out, OutOfFuel) /\ r = OutOfFuel).
Proof.
  destruct m as [o1 [a| |]]; cbn.
  - destruct (f a) as [o2 r'] eqn:E. intros [= <- <-].
    left. now exists o1, a, o2.
  - intros [= <- <-]. right. left. split; reflexivity.
  - intros [= <- <-]. right. right. split; reflexivity.
Qed.

(** ** Ranges of identifiers *)

Lemma intRange_nil (lo hi : Z) : hi <= lo -> intRange lo hi = [].
Proof.
  intros H. unfold intRange. replace (Z.to_nat (hi - lo)) with 0%nat by lia.
  reflexivity.
Qed.

Lemma intRange_cons (lo hi : Z) :
  lo < hi -> intRange lo hi = lo :: intRange (lo + 1) hi.
Proof.
  intros H. unfold intRange.
  replace (Z.to_nat (hi - lo)) with (S (Z.to_nat (hi - (lo + 1)))) by lia.
  cbn [seq map]. rewrite Z.add_0_r. f_equal.
  rewrite <- seq_shift, map_map. apply map_ext. intros k. lia.
Qed.

Lemma map_seq_offset {A : Type} (f : nat -> A) (a len s : nat) :
  map f (seq (a + s) len) = map (fun k => f (a + k)%nat) (seq s len).
Proof.
  revert s. induction len as [|len IH]; intros s; [reflexivity|].
  cbn [seq map]. f_equal. rewrite <- IH. f_equal. f_equal. lia.
Qed.

Lemma intRange_app (lo mid hi : Z) :
  lo <= mid <= hi -> intRange lo hi = intRange lo mid ++ intRange mid hi.
Proof.
  intros H. unfold intRange.
  replace (Z.to_nat (hi - lo))
    with (Z.to_nat (mid - lo) + Z.to_nat (hi - mid))%nat by lia.
  rewrite seq_app, map_app. f_equal.
  rewrite (Nat.add_comm 0), map_seq_offset.
  apply map_ext. intros k. lia.
Qed.

Lemma intRange_In (lo hi i : Z) : In i (intRange lo hi) <-> lo <= i < hi.
Proof.
  unfold intRange. rewrite in_map_iff. split.
  - intros (k & <- & Hk). apply in_seq in Hk. lia.
  - intros H. exists (Z.to_nat (i - lo)). split; [lia|].
    apply in_seq. lia.
Qed.

Lemma intRange_length (lo hi : Z) :
  List.length (intRange lo hi) = Z.to_nat (hi - lo).
Proof. unfold intRange. now rewrite length_map, length_seq. Qed.

Lemma intRange_sorted (lo hi : Z) : StronglySorted Z.lt (intRange lo hi).
Proof.
  destruct (Z_le_gt_dec hi lo) as [Hle|Hgt].
  - rewrite intRange_nil by assumption. constructor.
  - remember (Z.to_nat (hi - lo)) as n eqn:Hn.
    revert lo Hgt Hn. induction n as [|n IH]; intros lo Hgt Hn; [lia|].
    rewrite intRange_cons by lia. constructor.
    + destruct (Z_le_gt_dec hi (lo + 1)).
      * rewrite intRange_nil by assumption. constructor.
      * apply IH; lia.
    + apply Forall_forall. intros i Hi. apply intRange_In in Hi. lia.
Qed.

(** ** The lines of the output, by the place that printed them *)

Lemma ids_of_kind_app (k : VertexKind) (a b : list OutLine) :
  ids_of_kind k (a ++ b) = ids_of_kind k a ++ ids_of_kind k b.
Proof.
  induction a as [|[n|k' id p o s l] a IH]; cbn; [reflexivity|exact IH|].
  destruct (kind_eqb k k'); cbn; now rewrite IH.
Qed.

Lemma vertex_ids_app (a b : list OutLine) :
  vertex_ids (a ++ b) = vertex_ids a ++ vertex_ids b.
Proof.
  induction a as [|[n|k' id p o s l] a IH]; cbn; [reflexivity|exact IH|].
  now rewrite IH.
Qed.

Lemma ids_of_kind_compat_lines (k : VertexKind) (out : list OutLine) :
  Forall is_compat_line out ->
  ids_of_kind k out
  = if kind_eqb k CompatV then vertex_ids out else [].
Proof.
  induction 1 as [|o out (id & prio & succ & ->) _ IH]; cbn.
  - now destruct (kind_eqb k CompatV).
  - rewrite IH. now destruct (kind_eqb k CompatV).
Qed.

(** ** Blocks of fresh identifiers *)

Lemma StronglySorted_lt_app (l1 l2 : list Z) :
  StronglySorted Z.lt l1 -> StronglySorted Z.lt l2 ->
  (forall x y, In x l1 -> In y l2 -> x < y) ->
  StronglySorted Z.lt (l1 ++ l2).
Proof.
  intros H1 H2 H12. induction H1 as [|x l1 Hs IH Hx]; cbn; [assumption|].
  constructor.
  - apply IH. intros a b Ha Hb. apply H12; [now right | assumption].
  - apply Forall_app. split; [assumption|].
    apply Forall_forall. intros y Hy. apply H12; [now left | assumption].
Qed.

Lemma StronglySorted_lt_NoDup (l : list Z) :
  StronglySorted Z.lt l -> NoDup l.
Proof.
  induction 1 as [|x l Hs IH Hx]; constructor; [|assumption].
  intros Hin. rewrite Forall_forall in Hx. specialize (Hx x Hin). lia.
Qed.

Lemma StronglySorted_lt_rev (l : list Z) :
  StronglySorted Z.lt l -> StronglySorted Z.gt (rev l).
Proof.
  induction 1 as [|x l Hs IH Hx]; cbn; [constructor|].
  assert (Hgen : forall l', StronglySorted Z.gt l' ->
            Forall (fun y => y > x) l' -> StronglySorted Z.gt (l' ++ [x])).
  { induction 1 as [|y l' Hs' IH' Hy]; intros Hall; cbn.
    - repeat constructor.
    - inversion Hall as [|? ? Hyx Hall']; subst. constructor.
      + now apply IH'.
      + apply Forall_app. split; [assumption|]. now repeat constructor. }
  apply Hgen; [assumption|].
  apply Forall_forall. intros y Hy. apply in_rev in Hy.
  rewrite Forall_forall in Hx. specialize (Hx y Hy). lia.
Qed.

Lemma fresh_block_nil (lo hi : Z) : fresh_block lo hi [].
Proof. unfold fresh_block. cbn. repeat split; try constructor. auto. Qed.

Lemma fresh_block_app (lo mid hi : Z) (o1 o2 : list OutLine) :
  lo <= mid <= hi ->
  fresh_block lo mid o1 -> fresh_block mid hi o2 ->
  fresh_block lo hi (o1 ++ o2).
Proof.
  unfold fresh_block.
  intros Hm (SC1 & SV1 & FC1 & FV1 & D1) (SC2 & SV2 & FC2 & FV2 & D2).
  rewrite !ids_of_kind_app. rewrite Forall_forall in FC1, FV1, FC2, FV2.
  repeat split.
  - apply StronglySorted_lt_app; try assumption.
    intros x y Hx Hy. specialize (FC1 x Hx). specialize (FC2 y Hy). lia.
  - apply StronglySorted_lt_app; try assumption.
    intros x y Hx Hy. specialize (FV1 x Hx). specialize (FV2 y Hy). lia.
  - apply Forall_forall. intros i Hi. apply in_app_or in Hi.
    destruct Hi as [Hi|Hi]; [specialize (FC1 i Hi) | specialize (FC2 i Hi)];
      lia.
  - apply Forall_forall. intros i Hi. apply in_app_or in Hi.
    destruct Hi as [Hi|Hi]; [specialize (FV1 i Hi) | specialize (FV2 i Hi)];
      lia.
  - intros i HC HV. apply in_app_or in HC. apply in_app_or in HV.
    destruct HC as [HC|HC], HV as [HV|HV].
    + eapply D1; eassumption.
    + specialize (FC1 i HC). specialize (FV2 i HV). lia.
    + specialize (FC2 i HC). specialize (FV1 i HV). lia.
    + eapply D2; eassumption.
Qed.

Lemma fresh_block_ranges (lo mid hi : Z) (j : Z) (out : list OutLine) :
  lo <= lo + j <= mid -> mid <= hi ->
  ids_of_kind CompatV out = intRange mid hi ->
  ids_of_kind ValuationV out = intRange lo (lo + j) ->
  fresh_block lo hi out.
Proof.
  unfold fresh_block. intros Hj Hm -> ->.
  repeat split; try apply intRange_sorted.
  - apply Forall_forall. intros i Hi. apply intRange_In in Hi. lia.
  - apply Forall_forall. intros i Hi. apply intRange_In in Hi. lia.
  - intros i HC HV. apply intRange_In in HC. apply intRange_In in HV. lia.
Qed.

(** ** The loops of step 2 *)

Section ConstructionFacts.

Variable fuel : nat.
Variable data : HoaData.
Variable maxPrio : bool.
Variable winR : Z.
Variable ucntAPs : list Z.
Variable numValuations : Z.

Local Abbreviation transLoop' := (transLoop fuel data maxPrio winR ucntAPs).
Local Abbreviation valuationBody' :=
  (valuationBody fuel data maxPrio winR ucntAPs).
Local Abbreviation valuationLoop' :=
  (valuationLoop fuel data maxPrio winR ucntAPs).
Local Abbreviation stateBody' :=
  (stateBody fuel data maxPrio winR ucntAPs numValuations).
Local Abbreviation stateLoop' :=
  (stateLoop fuel data maxPrio winR ucntAPs numValuations).

(** The transition loop prints compatible-transition lines only, and
    [validVals] grows at its front: it ends as the identifiers of the
    lines, last printed first, before what it held. *)
Lemma transLoop_shape (s : StateList) (value : Z) :
  forall trans n vv out r,
    transLoop' s value trans n vv = (out, r) ->
    Forall is_compat_line out
    /\ (List.length out <= List.length trans)%nat
    /\ forall n' vv', r = Ret (n', vv') ->
         vv' = rev (vertex_ids out) ++ vv.
Proof.
  induction trans as [|t next IH]; intros n vv out r.
  - cbn. intros [= <- <-]. repeat split; [constructor | cbn; lia |].
    intros n' vv' [= <- <-]. reflexivity.
  - cbn [transLoop]. rewrite !assert_bind.
    destruct (successors t) as [|succ [|]];
      try (intros [= <- <-]; repeat split;
           [constructor | cbn; lia | discriminate]).
    set (lbl := match s_label s with
                | BNull => label t
                | BNode _ _ _ _ _ => s_label s
                end).
    destruct lbl eqn:Elbl;
      try (intros [= <- <-]; repeat split;
           [constructor | cbn; lia | discriminate]).
    set (acc := match s_accSig s with
                | [] => accSig t
                | _ :: _ => s_accSig s
                end).
    destruct acc as [|a [|]] eqn:Eacc;
      try (intros [= <- <-]; repeat split;
           [constructor | cbn; lia | discriminate]).
    rewrite lift_bind.
    destruct (evalLabel fuel _ (aliases data) ucntAPs value)
      as [evald| |];
      try (intros [= <- <-]; repeat split;
           [constructor | cbn; lia | discriminate]).
    destruct (negb (evald =? -1)).
    + rewrite printf_bind.
      destruct (transLoop' s value next (int_add n 1)
                  (prependIntNode vv n)) as [out' r'] eqn:E.
      cbn [fst snd]. intros [= <- <-].
      destruct (IH _ _ _ _ E) as (Hc & Hlen & Hvv).
      repeat split.
      * constructor; [|assumption]. now exists n, (adjustPriority
          (hd 0 [a]) maxPrio winR (noAccSets data)), (hd 0 [succ]).
      * cbn. lia.
      * intros n' vv' Hr. rewrite (Hvv n' vv' Hr). cbn [vertex_ids rev].
        unfold prependIntNode. now rewrite <- app_assoc.
    + intros E. destruct (IH _ _ _ _ E) as (Hc & Hlen & Hvv).
      repeat split; [assumption | cbn; lia | assumption].
Qed.

(** Without overflow, the identifiers of the lines are consecutive from
    [nextIndex] on, and [nextIndex] ends right after them. *)
Lemma transLoop_ids (s : StateList) (value : Z) :
  forall trans n vv out r,
    transLoop' s value trans n vv = (out, r) ->
    INT_MIN <= n -> n + Z.of_nat (List.length trans) <= INT_MAX ->
    vertex_ids out = intRange n (n + Z.of_nat (List.length out))
    /\ forall n' vv', r = Ret (n', vv') ->
         n' = n + Z.of_nat (List.length out).
Proof.
  induction trans as [|t next IH]; intros n vv out r.
  - cbn. intros [= <- <-] _ _. split.
    + cbn. now rewrite intRange_nil by lia.
    + intros n' vv' [= <- <-]. cbn. lia.
  - cbn [transLoop]. rewrite !assert_bind.
    assert (Hstop : forall x : result (Z * list Z),
               (forall a, x <> Ret a) ->
               vertex_ids [] = intRange n (n + Z.of_nat (@List.length OutLine []))
               /\ forall n' vv', x = Ret (n', vv') ->
                    n' = n + Z.of_nat (@List.length OutLine [])).
    { intros x Hx. split.
      - cbn. now rewrite intRange_nil by lia.
      - intros n' vv' E. now apply Hx in E. }
    destruct (successors t) as [|succ [|]];
      try (intros [= <- <-] _ _; apply Hstop; discriminate).
    destruct (match s_label s with
              | BNull => label t
              | BNode _ _ _ _ _ => s_label s
              end);
      try (intros [= <- <-] _ _; apply Hstop; discriminate).
    destruct (match s_accSig s with
              | [] => accSig t
              | _ :: _ => s_accSig s
              end) as [|a [|]];
      try (intros [= <- <-] _ _; apply Hstop; discriminate).
    rewrite lift_bind.
    destruct (evalLabel fuel _ (aliases data) ucntAPs value)
      as [evald| |];
      try (intros [= <- <-] _ _; apply Hstop; discriminate).
    cbn [List.length]. intros E Hlo Hhi.
    destruct (negb (evald =? -1)).
    + rewrite printf_bind in E.
      rewrite int_add_small in E by (unfold in_int; lia).
      destruct (transLoop' s value next (n + 1)
                  (prependIntNode vv n)) as [out' r'] eqn:E'.
      cbn [fst snd] in E. injection E as <- <-.
      destruct (IH _ _ _ _ E' ltac:(lia) ltac:(lia)) as (Hids & Hn').
      pose proof (transLoop_shape _ _ _ _ _ _ _ E') as (_ & Hlen & _).
      split.
      * cbn [vertex_ids List.length]. rewrite Hids.
        rewrite (intRange_cons n) by lia. f_equal. f_equal. lia.
      * intros n' vv' Hr. rewrite (Hn' n' vv' Hr). cbn [List.length]. lia.
    + apply (IH _ _ _ _ E); lia.
Qed.

Lemma int_uint_wrap (z : Z) : in_int z -> int_wrap (uint_wrap z) = z.
Proof.
  intros H. rewrite <- (int_wrap_small z H) at 2.
  unfold int_wrap, uint_wrap. now rewrite Zplus_mod_idemp_l.
Qed.

(** The body of the valuation loop prints the lines of the compatible
    transitions and then, unless something went wrong, the line of the
    valuation vertex; the successors on that line are the identifiers of
    the lines before it, last printed first. *)
Lemma valuationBody_shape (s : StateList) (f value n : Z)
    (out : list OutLine) (r : result Z) :
  valuationBody' s f value n = (out, r) ->
  let pv := int_wrap (uint_wrap (f + value)) in
  exists cs,
    Forall is_compat_line cs
    /\ (List.length cs <= List.length (transitions s))%nat
    /\ ((exists n', r = Ret n' /\ cs <> []
         /\ out = cs ++ [Vertex ValuationV pv 0 0 (rev (vertex_ids cs))
                           (LInt pv)])
        \/ ((forall a, r <> Ret a) /\ out = cs))
    /\ (INT_MIN <= n ->
        n + Z.of_nat (List.length (transitions s)) <= INT_MAX ->
        vertex_ids cs = intRange n (n + Z.of_nat (List.length cs))
        /\ forall n', r = Ret n' -> n' = n + Z.of_nat (List.length cs)).
Proof.
  intros E pv. unfold valuationBody in E.
  destruct (transLoop' s value (transitions s) n []) as [cs r0] eqn:Et.
  pose proof (transLoop_shape _ _ _ _ _ _ _ Et) as (Hc & Hlen & Hvv).
  exists cs. split; [assumption|]. split; [assumption|].
  destruct r0 as [[n0 vv0]| |]; cbn [rbind] in E.
  - specialize (Hvv n0 vv0 eq_refl). rewrite app_nil_r in Hvv. subst vv0.
    rewrite assert_bind in E.
    destruct (rev (vertex_ids cs)) as [|v0 vs] eqn:Erev.
    + injection E as <- <-. rewrite app_nil_r. split.
      * right. split; [discriminate | reflexivity].
      * intros Hlo Hhi.
        destruct (transLoop_ids _ _ _ _ _ _ _ Et Hlo Hhi) as (Hids & _).
        split; [assumption | discriminate].
    + rewrite printf_bind in E. cbn in E. injection E as <- <-. split.
      * left. exists n0. split; [reflexivity|]. split; [|reflexivity].
        intros ->. cbn in Erev. discriminate.
      * intros Hlo Hhi.
        destruct (transLoop_ids _ _ _ _ _ _ _ Et Hlo Hhi) as (Hids & Hn).
        split; [assumption|].
        intros n' [= <-]. now apply (Hn n0 (v0 :: vs)).
  - injection E as <- <-. split.
    + right. split; [discriminate | reflexivity].
    + intros Hlo Hhi.
      destruct (transLoop_ids _ _ _ _ _ _ _ Et Hlo Hhi) as (Hids & _).
      split; [assumption | discriminate].
  - injection E as <- <-. split.
    + right. split; [discriminate | reflexivity].
    + intros Hlo Hhi.
      destruct (transLoop_ids _ _ _ _ _ _ _ Et Hlo Hhi) as (Hids & _).
      split; [assumption | discriminate].
Qed.

Ltac ret_inj :=
  repeat match goal with
         | H : Ret _ = Ret _ |- _ => injection H as H; try subst
         | H : AssertFail = Ret _ |- _ => discriminate H
         | H : OutOfFuel = Ret _ |- _ => discriminate H
         end.

Lemma valuationBody_ids (s : StateList) (f value n : Z)
    (out : list OutLine) (r : result Z) :
  valuationBody' s f value n = (out, r) ->
  in_int (f + value) -> INT_MIN <= n ->
  n + Z.of_nat (List.length (transitions s)) <= INT_MAX ->
  exists m,
    n <= m <= n + Z.of_nat (List.length (transitions s))
    /\ ids_of_kind CompatV out = intRange n m
    /\ ids_of_kind DecisionV out = []
    /\ (ids_of_kind ValuationV out = []
        \/ ids_of_kind ValuationV out = [f + value])
    /\ forall n', r = Ret n' ->
         n' = m /\ ids_of_kind ValuationV out = [f + value].
Proof.
  intros E Hpv Hlo Hhi.
  destruct (valuationBody_shape _ _ _ _ _ _ E)
    as (cs & Hc & Hlen & Hout & Hids).
  destruct (Hids Hlo Hhi) as (Hcs & Hn').
  exists (n + Z.of_nat (List.length cs)).
  split; [lia|].
  rewrite int_uint_wrap in Hout by assumption.
  pose proof (ids_of_kind_compat_lines CompatV cs Hc) as HC.
  pose proof (ids_of_kind_compat_lines ValuationV cs Hc) as HV.
  pose proof (ids_of_kind_compat_lines DecisionV cs Hc) as HD.
  cbn in HC, HV, HD.
  destruct Hout as [(n' & -> & Hne & ->) | (Hr & ->)].
  - rewrite !ids_of_kind_app, HC, HV, HD.
    cbn. rewrite app_nil_r. repeat split; auto.
    all: intros ? [= <-]; now apply Hn'.
  - rewrite HC, HV, HD.
    repeat split; auto.
    all: intros; exfalso; eapply Hr; eassumption.
Qed.

Lemma valuationLoop_ids (s : StateList) (f : Z) :
  forall (c a : nat) (n : Z) (out : list OutLine) (r : result Z),
    valuationLoop' s f (map Z.of_nat (seq a c)) n = (out, r) ->
    INT_MIN <= f + Z.of_nat a -> f + Z.of_nat a + Z.of_nat c <= INT_MAX + 1 ->
    INT_MIN <= n ->
    n + Z.of_nat c * Z.of_nat (List.length (transitions s)) <= INT_MAX ->
    exists (m : Z) (j : nat),
      (j <= c)%nat
      /\ n <= m <= n + Z.of_nat c * Z.of_nat (List.length (transitions s))
      /\ ids_of_kind CompatV out = intRange n m
      /\ ids_of_kind ValuationV out
         = intRange (f + Z.of_nat a) (f + Z.of_nat a + Z.of_nat j)
      /\ ids_of_kind DecisionV out = []
      /\ forall n', r = Ret n' -> n' = m /\ j = c.
Proof.
  induction c as [|c IH]; intros a n out r E Hflo Hfhi Hlo Hhi.
  - cbn in E. injection E as <- <-. exists n, 0%nat. cbn.
    rewrite !intRange_nil by lia. repeat split; ret_inj; lia.
  - cbn [seq map valuationLoop] in E.
    apply rbind_inv in E.
    destruct E as [(o1 & n1 & o2 & E1 & E2 & ->) | [(E1 & ->) | (E1 & ->)]].
    + destruct (valuationBody_ids _ _ _ _ _ _ E1)
        as (m1 & Hm1 & HC1 & HD1 & _ & Hr1);
        [unfold in_int; lia | lia | nia |].
      destruct (Hr1 n1 eq_refl) as (-> & HV1).
      destruct (IH (S a) m1 o2 r E2) as (m & j & Hj & Hm & HC & HV & HD & Hr);
        [lia | lia | lia | nia |].
      exists m, (S j). rewrite !ids_of_kind_app, HC1, HV1, HC, HV, HD1, HD.
      split; [lia|]. split; [nia|].
      split; [symmetry; apply intRange_app; lia|].
      split; [|split; [reflexivity|]].
      * rewrite (intRange_cons (f + Z.of_nat a)) by lia.
        cbn [app]. f_equal. f_equal; lia.
      * intros n' Hn'. destruct (Hr n' Hn'). split; [assumption | lia].
    + destruct (valuationBody_ids _ _ _ _ _ _ E1)
        as (m1 & Hm1 & HC1 & HD1 & HV1 & _);
        [unfold in_int; lia | lia | nia |].
      exists m1. destruct HV1 as [HV1 | HV1].
      * exists 0%nat. rewrite HC1, HV1, HD1.
        rewrite (intRange_nil (f + Z.of_nat a)) by lia.
        repeat split; ret_inj; try lia; nia.
      * exists 1%nat. rewrite HC1, HV1, HD1.
        rewrite (intRange_cons (f + Z.of_nat a)) by lia.
        rewrite (intRange_nil (f + Z.of_nat a + 1)) by lia.
        repeat split; ret_inj; try lia; nia.
    + destruct (valuationBody_ids _ _ _ _ _ _ E1)
        as (m1 & Hm1 & HC1 & HD1 & HV1 & _);
        [unfold in_int; lia | lia | nia |].
      exists m1. destruct HV1 as [HV1 | HV1].
      * exists 0%nat. rewrite HC1, HV1, HD1.
        rewrite (intRange_nil (f + Z.of_nat a)) by lia.
        repeat split; ret_inj; try lia; nia.
      * exists 1%nat. rewrite HC1, HV1, HD1.
        rewrite (intRange_cons (f + Z.of_nat a)) by lia.
        rewrite (intRange_nil (f + Z.of_nat a + 1)) by lia.
        repeat split; ret_inj; try lia; nia.
Qed.

(** The body of the state loop ends, when all goes well, with the line of
    the decision vertex; on that line [firstSucc] comes first and the
    identifiers from [firstSucc] on come after it. *)
Lemma stateBody_shape (s : StateList) (n : Z)
    (out : list OutLine) (r : result Z) :
  stateBody' s n = (out, r) ->
  exists vs,
    valuationLoop' s n (valuations numValuations) (int_add n numValuations)
    = (vs, r)
    /\ ((exists n', r = Ret n'
         /\ out = vs ++ [Vertex DecisionV (s_id s) 0 1
                           (n :: intRange n (int_add n numValuations))
                           (match s_name s with
                            | Some nm => LStr nm
                            | None => LInt (s_id s)
                            end)])
        \/ ((forall a, r <> Ret a) /\ out = vs)).
Proof.
  unfold stateBody. intros E. apply rbind_inv in E.
  destruct E as [(vs & n1 & o2 & E1 & E2 & ->) | [(E1 & ->) | (E1 & ->)]].
  - rewrite printf_bind in E2. cbn in E2. injection E2 as <- <-.
    exists vs. split; [assumption|]. left. exists n1. split; reflexivity.
  - exists out. split; [assumption|]. right. split; [discriminate|reflexivity].
  - exists out. split; [assumption|]. right. split; [discriminate|reflexivity].
Qed.

Lemma stateBody_ids (s : StateList) (n : Z)
    (out : list OutLine) (r : result Z) :
  stateBody' s n = (out, r) ->
  0 <= numValuations -> INT_MIN <= n ->
  n + numValuations * (1 + Z.of_nat (List.length (transitions s))) <= INT_MAX ->
  exists m,
    n + numValuations <= m
      <= n + numValuations * (1 + Z.of_nat (List.length (transitions s)))
    /\ fresh_block n m out
    /\ (ids_of_kind DecisionV out = []
        \/ ids_of_kind DecisionV out = [s_id s])
    /\ forall n', r = Ret n' ->
         n' = m /\ ids_of_kind DecisionV out = [s_id s].
Proof.
  intros E HNV Hlo Hhi.
  destruct (stateBody_shape _ _ _ _ E) as (vs & Evs & Hout).
  assert (HNVhi : numValuations < 2 ^ 32)
    by (unfold INT_MIN, INT_MAX in *; nia).
  unfold valuations in Evs.
  rewrite uint_wrap_small in Evs by lia.
  rewrite int_add_small in Evs by (unfold in_int; nia).
  pose proof (valuationLoop_ids _ _ _ _ _ _ _ Evs) as H.
  rewrite Z2Nat.id in H by lia. cbn [Z.of_nat] in H.
  rewrite Z.add_0_r in H.
  destruct H as (m & j & Hj & Hm & HC & HV & HD & Hr);
    [lia | nia | lia | nia |].
  assert (Hfb : forall o, ids_of_kind CompatV o = ids_of_kind CompatV vs ->
                  ids_of_kind ValuationV o = ids_of_kind ValuationV vs ->
                  fresh_block n m o).
  { intros o HCo HVo.
    apply (fresh_block_ranges n (n + numValuations) m (Z.of_nat j));
      [lia | lia | congruence | congruence]. }
  exists m. split; [nia|].
  destruct Hout as [(n' & -> & ->) | (Hr' & ->)].
  - split; [|split].
    + apply Hfb; rewrite ids_of_kind_app; cbn; now rewrite app_nil_r.
    + right. rewrite ids_of_kind_app, HD. reflexivity.
    + intros n'' [= <-]. split; [now apply Hr|].
      rewrite ids_of_kind_app, HD. reflexivity.
  - split; [|split].
    + now apply Hfb.
    + now left.
    + intros n' Hn'. now apply Hr' in Hn'.
Qed.

Lemma idBudget_nonneg (sts : list StateList) :
  0 <= numValuations -> 0 <= idBudget numValuations sts.
Proof.
  intros H. induction sts as [|s sts IH]; cbn [idBudget]; [lia|].
  pose proof (Nat2Z.is_nonneg (List.length (transitions s))). nia.
Qed.

Lemma stateLoop_ids :
  forall (sts : list StateList) (n : Z) (out : list OutLine) (r : result Z),
    stateLoop' sts n = (out, r) ->
    0 <= numValuations -> INT_MIN <= n ->
    n + idBudget numValuations sts <= INT_MAX ->
    exists m,
      n <= m <= n + idBudget numValuations sts
      /\ fresh_block n m out
      /\ (exists j, ids_of_kind DecisionV out = map s_id (firstn j sts))
      /\ forall n', r = Ret n' ->
           n' = m /\ ids_of_kind DecisionV out = map s_id sts.
Proof.
  induction sts as [|s sts IH]; intros n out r E HNV Hlo Hhi.
  - cbn in E. injection E as <- <-. exists n. cbn.
    split; [lia|]. split; [apply fresh_block_nil|].
    split; [now exists 0%nat|]. intros n' [= <-]. now split.
  - cbn [stateLoop idBudget] in *.
    pose proof (idBudget_nonneg sts HNV) as Hb.
    apply rbind_inv in E.
    destruct E as [(o1 & n1 & o2 & E1 & E2 & ->) | [(E1 & ->) | (E1 & ->)]].
    + destruct (stateBody_ids _ _ _ _ E1 HNV Hlo ltac:(lia))
        as (m1 & Hm1 & Hf1 & _ & Hr1).
      destruct (Hr1 n1 eq_refl) as (-> & HD1).
      destruct (IH m1 o2 r E2 HNV ltac:(lia) ltac:(lia))
        as (m & Hm & Hf2 & (j & HD2) & Hr2).
      exists m. split; [lia|]. split; [|split].
      * apply (fresh_block_app n m1 m); [lia | assumption | assumption].
      * exists (S j). rewrite ids_of_kind_app, HD1, HD2. reflexivity.
      * intros n' Hn'. destruct (Hr2 n' Hn') as (-> & HD).
        split; [reflexivity|]. rewrite ids_of_kind_app, HD1, HD. reflexivity.
    + destruct (stateBody_ids _ _ _ _ E1 HNV Hlo ltac:(lia))
        as (m1 & Hm1 & Hf1 & HD1 & _).
      exists m1. split; [nia|]. split; [assumption|]. split.
      * destruct HD1 as [-> | ->]; [now exists 0%nat | now exists 1%nat].
      * discriminate.
    + destruct (stateBody_ids _ _ _ _ E1 HNV Hlo ltac:(lia))
        as (m1 & Hm1 & Hf1 & HD1 & _).
      exists m1. split; [nia|]. split; [assumption|]. split.
      * destruct HD1 as [-> | ->]; [now exists 0%nat | now exists 1%nat].
      * discriminate.
Qed.

Lemma stateBody_success_ids (s : StateList) (n n' : Z)
    (out : list OutLine) :
  stateBody' s n = (out, Ret n') ->
  0 <= numValuations -> INT_MIN <= n ->
  n + numValuations * (1 + Z.of_nat (List.length (transitions s))) <= INT_MAX ->
  ids_of_kind ValuationV out = intRange n (n + numValuations)
  /\ ids_of_kind CompatV out = intRange (n + numValuations) n'
  /\ n + numValuations <= n'
  /\ ids_of_kind DecisionV out = [s_id s].
Proof.
  intros E HNV Hlo Hhi.
  destruct (stateBody_shape _ _ _ _ E) as (vs & Evs & Hout).
  assert (HNVhi : numValuations < 2 ^ 32)
    by (unfold INT_MIN, INT_MAX in *; nia).
  unfold valuations in Evs.
  rewrite uint_wrap_small in Evs by lia.
  rewrite int_add_small in Evs by (unfold in_int; nia).
  pose proof (valuationLoop_ids _ _ _ _ _ _ _ Evs) as H.
  rewrite Z2Nat.id in H by lia. cbn [Z.of_nat] in H.
  rewrite Z.add_0_r in H.
  destruct H as (m & j & Hj & Hm & HC & HV & HD & Hr);
    [lia | nia | lia | nia |].
  destruct (Hr n' eq_refl) as (-> & ->).
  rewrite Z2Nat.id in HV by lia.
  destruct Hout as [(n'' & _ & ->) | (Hr' & _)];
    [|exfalso; now apply (Hr' m)].
  rewrite !ids_of_kind_app, HC, HV, HD. cbn. rewrite !app_nil_r.
  repeat split. lia.
Qed.

Lemma stateLoop_blocks :
  forall (sts : list StateList) (n n' : Z) (out : list OutLine),
    stateLoop' sts n = (out, Ret n') ->
    0 <= numValuations -> INT_MIN <= n ->
    n + idBudget numValuations sts <= INT_MAX ->
    state_blocks numValuations n sts out n'.
Proof.
  induction sts as [|s sts IH]; intros n n' out E HNV Hlo Hhi.
  - cbn in E. injection E as <- <-. constructor.
  - cbn [stateLoop idBudget] in *.
    pose proof (idBudget_nonneg sts HNV) as Hb.
    apply rbind_inv in E.
    destruct E as [(o1 & n1 & o2 & E1 & E2 & ->) | [(_ & E) | (_ & E)]];
      try discriminate.
    destruct (stateBody_success_ids _ _ _ _ E1 HNV Hlo ltac:(lia))
      as (HV & HC & Hn1 & HD).
    destruct (stateBody_ids _ _ _ _ E1 HNV Hlo ltac:(lia))
      as (m1 & Hm1 & _ & _ & Hr1).
    destruct (Hr1 n1 eq_refl) as (-> & _).
    apply (sb_cons numValuations n m1 n'); try assumption.
    apply IH; [assumption | assumption | lia | lia].
Qed.

End ConstructionFacts.

(** ** More budget changes nothing *)

Lemma rbind_mono {A B : Type} (m m' : run A) (f f' : A -> run B) :
  (snd m <> OutOfFuel -> m' = m) ->
  (forall a, snd (f a) <> OutOfFuel -> f' a = f a) ->
  snd (rbind m f) <> OutOfFuel -> rbind m' f' = rbind m f.
Proof.
  intros Hm Hf. destruct m as [o [a| |]]; cbn.
  - intros H. rewrite Hm by discriminate. cbn.
    destruct (f a) as [o2 r2] eqn:E. cbn in H.
    now rewrite (Hf a), E by (rewrite E; exact H).
  - intros _. rewrite Hm by discriminate. reflexivity.
  - intros H. now contradiction H.
Qed.

Section FuelMono.

Variables (fuel fuel' : nat) (Hfuel : (fuel <= fuel')%nat).
Variable data : HoaData.
Variable maxPrio : bool.
Variable winR : Z.
Variable ucntAPs : list Z.
Variable numValuations : Z.

Lemma transLoop_mono (s : StateList) (value : Z) :
  forall trans n vv,
    snd (transLoop fuel data maxPrio winR ucntAPs s value trans n vv)
      <> OutOfFuel ->
    transLoop fuel' data maxPrio winR ucntAPs s value trans n vv
    = transLoop fuel data maxPrio winR ucntAPs s value trans n vv.
Proof using Hfuel.
  induction trans as [|t next IH]; intros n vv; [reflexivity|].
  cbn [transLoop]. rewrite !assert_bind.
  destruct (successors t) as [|succ [|]]; try reflexivity.
  destruct (match s_label s with
            | BNull => label t
            | BNode _ _ _ _ _ => s_label s
            end) eqn:Elbl; try reflexivity.
  destruct (match s_accSig s with
            | [] => accSig t
            | _ :: _ => s_accSig s
            end) as [|a [|]]; try reflexivity.
  rewrite !lift_bind.
  destruct (evalLabel fuel _ (aliases data) ucntAPs value)
    as [evald| |] eqn:E.
  - rewrite (evalLabel_fuel_mono _ _ _ _ _ _ E ltac:(discriminate) _ Hfuel).
    destruct (negb (evald =? -1)).
    + rewrite !printf_bind. cbn [snd]. intros H. now rewrite IH.
    + apply IH.
  - now rewrite (evalLabel_fuel_mono _ _ _ _ _ _ E ltac:(discriminate)
                   _ Hfuel).
  - intros H. now contradiction H.
Qed.

Lemma valuationBody_mono (s : StateList) (f value n : Z) :
  snd (valuationBody fuel data maxPrio winR ucntAPs s f value n)
    <> OutOfFuel ->
  valuationBody fuel' data maxPrio winR ucntAPs s f value n
  = valuationBody fuel data maxPrio winR ucntAPs s f value n.
Proof using Hfuel.
  unfold valuationBody. intros H.
  apply rbind_mono; [apply transLoop_mono | | exact H].
  intros [n' vv'] _. reflexivity.
Qed.

Lemma valuationLoop_mono (s : StateList) (f : Z) :
  forall values n,
    snd (valuationLoop fuel data maxPrio winR ucntAPs s f values n)
      <> OutOfFuel ->
    valuationLoop fuel' data maxPrio winR ucntAPs s f values n
    = valuationLoop fuel data maxPrio winR ucntAPs s f values n.
Proof using Hfuel.
  induction values as [|v rest IH]; intros n; [reflexivity|].
  cbn [valuationLoop]. intros H.
  apply rbind_mono; [apply valuationBody_mono | | exact H].
  intros n' H'. now apply IH.
Qed.

Lemma stateBody_mono (s : StateList) (n : Z) :
  snd (stateBody fuel data maxPrio winR ucntAPs numValuations s n)
    <> OutOfFuel ->
  stateBody fuel' data maxPrio winR ucntAPs numValuations s n
  = stateBody fuel data maxPrio winR ucntAPs numValuations s n.
Proof using Hfuel.
  unfold stateBody. intros H.
  apply rbind_mono; [apply valuationLoop_mono | | exact H].
  intros n' _. reflexivity.
Qed.

Lemma stateLoop_mono :
  forall sts n,
    snd (stateLoop fuel data maxPrio winR ucntAPs numValuations sts n)
      <> OutOfFuel ->
    stateLoop fuel' data maxPrio winR ucntAPs numValuations sts n
    = stateLoop fuel data maxPrio winR ucntAPs numValuations sts n.
Proof using Hfuel.
  induction sts as [|s rest IH]; intros n; [reflexivity|].
  cbn [stateLoop]. intros H.
  apply rbind_mono; [apply stateBody_mono | | exact H].
  intros n' H'. now apply IH.
Qed.

End FuelMono.

Lemma main_fuel_mono (fuel fuel' : nat) (ret : Z) (data : HoaData) :
  (fuel <= fuel')%nat ->
  snd (main fuel ret data) <> OutOfFuel ->
  main fuel' ret data = main fuel ret data.
Proof.
  intros Hfuel. unfold main.
  destruct (negb (ret =? 0)); [reflexivity|].
  destruct (negb (accNameID data =? "parity")%string); [reflexivity|].
  destruct (negb (foundOrd _)); [reflexivity|].
  destruct (negb (foundRes _)); [reflexivity|].
  destruct (negb (det _)); [reflexivity|].
  destruct (negb (complete _)); [reflexivity|].
  destruct (negb (colored _)); [reflexivity|].
  destruct (start data) as [|s0 [|]]; try reflexivity.
  cbv zeta. intros H.
  apply rbind_mono; [reflexivity | | exact H]. intros _ H1.
  apply rbind_mono; [reflexivity | | exact H1]. intros _ H2.
  apply rbind_mono; [now apply stateLoop_mono | | exact H2].
  reflexivity.
Qed.

(** Two runs that both end give the same lines and the same result,
    whatever their budgets. *)
Lemma main_deterministic (fuel fuel' : nat) (ret : Z) (data : HoaData) :
  snd (main fuel ret data) <> OutOfFuel ->
  snd (main fuel' ret data) <> OutOfFuel ->
  main fuel' ret data = main fuel ret data.
Proof.
  intros H H'.
  rewrite <- (main_fuel_mono fuel (Nat.max fuel fuel') ret data
                (Nat.le_max_l _ _) H).
  rewrite <- (main_fuel_mono fuel' (Nat.max fuel fuel') ret data
                (Nat.le_max_r _ _) H').
  reflexivity.
Qed.

(** ** The output of main *)

Lemma vertex_ids_perm (out : list OutLine) :
  Permutation (vertex_ids out)
    (ids_of_kind CompatV out ++ ids_of_kind ValuationV out
       ++ ids_of_kind DecisionV out).
Proof.
  induction out as [|[n|k id p o s l] out IH]; cbn.
  - constructor.
  - exact IH.
  - destruct k; cbn.
    + now constructor.
    + now apply Permutation_cons_app.
    + rewrite app_assoc. apply Permutation_cons_app.
      now rewrite <- app_assoc.
Qed.

(** Either [main] stops before the header, with nothing printed, or it
    prints the header and then what the loop over the states prints. *)
Lemma main_output_cases (fuel : nat) (data : HoaData)
    (out : list OutLine) (r : result Z) :
  main fuel 0 data = (out, r) ->
  (out = [] /\ r <> Ret EXIT_SUCCESS)
  \/ exists lo r',
       stateLoop fuel data
         (maxPriority (paramLoop (accNameParameters data)))
         (winRes (paramLoop (accNameParameters data)))
         (collectUcntAPs (noAPs data) (cntAPs data))
         (numValuationsOf data) (states data) (noStates data) = (lo, r')
       /\ out = Header (int_sub (int_mul (noStates data)
                                   (int_add (numValuationsOf data) 1)) 1)
                  :: lo
       /\ r = match r' with
              | Ret _ => Ret EXIT_SUCCESS
              | AssertFail => AssertFail
              | OutOfFuel => OutOfFuel
              end.
Proof.
  rewrite main_gate.
  destruct (negb _); [intros [= <- <-]; left; split; [|discriminate];
                      reflexivity|].
  destruct (negb _); [intros [= <- <-]; left; split; [|discriminate];
                      reflexivity|].
  destruct (negb _); [intros [= <- <-]; left; split; [|discriminate];
                      reflexivity|].
  destruct (negb _); [intros [= <- <-]; left; split; [|discriminate];
                      reflexivity|].
  destruct (negb _); [intros [= <- <-]; left; split; [|discriminate];
                      reflexivity|].
  destruct (negb _); [intros [= <- <-]; left; split; [|discriminate];
                      reflexivity|].
  destruct (start data) as [|s0 [|]];
    try (intros [= <- <-]; left; split; [|discriminate]; reflexivity).
  cbv zeta. rewrite assert_bind.
  destruct (Z.of_nat _ =? _);
    [|intros [= <- <-]; left; split; [|discriminate]; reflexivity].
  rewrite printf_bind. fold (numValuationsOf data).
  destruct (stateLoop fuel data _ _ _ _ (states data) (noStates data))
    as [lo r'] eqn:E.
  intros E'. right. exists lo, r'. split; [reflexivity|].
  destruct r' as [n'| |]; cbn in E'; injection E' as <- <-;
    rewrite ?app_nil_r; split; reflexivity.
Qed.

Lemma NoDup_firstn {A : Type} (j : nat) (l : list A) :
  NoDup l -> NoDup (firstn j l).
Proof.
  intros H. rewrite <- (firstn_skipn j l) in H.
  now apply NoDup_app_remove_r in H.
Qed.

Lemma In_firstn {A : Type} (j : nat) (l : list A) (x : A) :
  In x (firstn j l) -> In x l.
Proof.
  intros H. rewrite <- (firstn_skipn j l). apply in_or_app. now left.
Qed.

(** C8: the identifiers of the vertices are a function of the input and
    no identifier is given twice.  For an automaton whose states have
    distinct identifiers in [0, noStates), and as long as the identifiers
    fit [int]: no two vertex lines of the output have the same identifier;
    the decision vertices have the identifiers of the states, in the order
    of the states; every other vertex has an identifier from [noStates]
    on, and these grow along the output for the valuation vertices and for
    the compatible-transition vertices; a completed run gives each state,
    in the order of the states, the fresh identifiers of one interval,
    first to its valuation vertices and then to its compatible-transition
    vertices, and the intervals follow one another from [noStates] on; and
    any two runs that end print the same lines. *)
Theorem vertex_ids_collision_free :
  forall (fuel : nat) (data : HoaData) (out : list OutLine) (r : result Z),
    main fuel 0 data = (out, r) ->
    NoDup (map s_id (states data)) ->
    Forall (fun s => 0 <= s_id s < noStates data) (states data) ->
    0 <= noStates data -> 0 <= numValuationsOf data ->
    noStates data + idBudget (numValuationsOf data) (states data)
      <= INT_MAX ->
    NoDup (vertex_ids out)
    /\ (exists j, ids_of_kind DecisionV out
                  = map s_id (firstn j (states data)))
    /\ (r = Ret EXIT_SUCCESS ->
        ids_of_kind DecisionV out = map s_id (states data)
        /\ exists hdr lo m,
             out = Header hdr :: lo
             /\ state_blocks (numValuationsOf data) (noStates data)
                  (states data) lo m)
    /\ StronglySorted Z.lt (ids_of_kind ValuationV out)
    /\ StronglySorted Z.lt (ids_of_kind CompatV out)
    /\ Forall (fun i => noStates data <= i)
         (ids_of_kind ValuationV out ++ ids_of_kind CompatV out)
    /\ (forall fuel', r <> OutOfFuel ->
          snd (main fuel' 0 data) <> OutOfFuel ->
          main fuel' 0 data = (out, r)).
Proof.
  intros fuel data out r E Hnd Hids Hn HNV Hb.
  assert (Hdet : forall fuel', r <> OutOfFuel ->
            snd (main fuel' 0 data) <> OutOfFuel ->
            main fuel' 0 data = (out, r)).
  { intros fuel' Hr Hr'. rewrite <- E. apply main_deterministic.
    - now rewrite E.
    - assumption. }
  destruct (main_output_cases _ _ _ _ E) as [(-> & Hr) | (lo & r' & El & -> & ->)].
  - cbn.
    split; [constructor|]. split; [now exists 0%nat|].
    split; [intros Hr'; contradiction|].
    repeat split; try constructor; assumption.
  - destruct (stateLoop_ids _ _ _ _ _ _ _ _ _ _ El HNV)
      as (m & Hm & (SC & SV & FC & FV & Hdis) & (j & HD) & Hr);
      [unfold INT_MIN; lia | assumption |].
    cbn [vertex_ids ids_of_kind].
    rewrite Forall_forall in FC, FV.
    split; [|split; [|split; [|split; [|split; [|split]]]]];
      try assumption.
    + apply (Permutation_NoDup (Permutation_sym (vertex_ids_perm lo))).
      apply NoDup_app; [now apply StronglySorted_lt_NoDup | |].
      * apply NoDup_app; [now apply StronglySorted_lt_NoDup | |].
        -- rewrite HD, <- firstn_map. now apply NoDup_firstn.
        -- intros i HV HDi. rewrite HD in HDi.
           apply in_map_iff in HDi. destruct HDi as (s & <- & Hs).
           apply In_firstn in Hs. rewrite Forall_forall in Hids.
           specialize (Hids s Hs). specialize (FV _ HV). lia.
      * intros i HC Hi. apply in_app_or in Hi. destruct Hi as [HV | HDi].
        -- eapply Hdis; eassumption.
        -- rewrite HD in HDi.
           apply in_map_iff in HDi. destruct HDi as (s & <- & Hs).
           apply In_firstn in Hs. rewrite Forall_forall in Hids.
           specialize (Hids s Hs). specialize (FC _ HC). lia.
    + now exists j.
    + destruct r' as [n'| |]; try discriminate. intros _.
      split; [now apply (Hr n')|].
      eexists _, lo, n'. split; [reflexivity|].
      apply (stateLoop_blocks _ _ _ _ _ _ _ _ _ _ El HNV);
        [unfold INT_MIN; lia | assumption].
    + apply Forall_forall. intros i Hi. apply in_app_or in Hi.
      destruct Hi as [Hi|Hi]; [specialize (FV i Hi) | specialize (FC i Hi)];
        lia.
Qed.

Lemma vertex_ids_collision_free_witness :
  NoDup [2; 3; 1; 0]
  /\ main 7 0 (loop_hoa [bool_node true; bool_node true]
                 ["max"; "even"]%string)
     = main 1 0 (loop_hoa [bool_node true; bool_node true]
                   ["max"; "even"]%string).
Proof.
  destruct (vertex_ids_collision_free 1%nat
              (loop_hoa [bool_node true; bool_node true]
                 ["max"; "even"]%string) _ _ eq_refl)
    as (Hnd & _ & _ & _ & _ & _ & Hdet).
  - cbn. constructor; [intros [] | constructor].
  - cbn. constructor; [cbn; lia | constructor].
  - cbn. lia.
  - vm_compute. discriminate.
  - vm_compute. discriminate.
  - split; [exact Hnd|].
    apply Hdet; vm_compute; discriminate.
Defined.

(** ** The lines of the valuation vertices *)

Lemma closed_nil : closed [].
Proof. intros pre o H. now destruct pre. Qed.

Lemma closed_snoc (l : list OutLine) (o : OutLine) :
  ~ is_compat_line o -> closed (l ++ [o]).
Proof.
  intros Ho pre o' H. apply app_inj_tail in H. destruct H as [_ <-].
  assumption.
Qed.

Lemma closed_app (o1 o2 : list OutLine) :
  closed o1 -> closed o2 -> closed (o1 ++ o2).
Proof.
  intros H1 H2. destruct o2 as [|x l] using rev_ind.
  - now rewrite app_nil_r.
  - intros pre o H. rewrite app_assoc in H. apply app_inj_tail in H.
    destruct H as [_ <-]. apply (H2 l x). reflexivity.
Qed.

Lemma not_compat_valuation id p o succs lbl :
  ~ is_compat_line (Vertex ValuationV id p o succs lbl).
Proof. intros (i & pr & su & H). discriminate H. Qed.

Lemma not_compat_decision id p o succs lbl :
  ~ is_compat_line (Vertex DecisionV id p o succs lbl).
Proof. intros (i & pr & su & H). discriminate H. Qed.

Lemma not_compat_header n : ~ is_compat_line (Header n).
Proof. intros (i & pr & su & H). discriminate H. Qed.

(** Where a line that is no compatible-transition line can stand in a run
    of such lines followed by one more line. *)
Lemma compat_run_then_line (cs : list OutLine) (L L' : OutLine)
    (pre post : list OutLine) :
  Forall is_compat_line cs -> ~ is_compat_line L' ->
  cs ++ [L] = pre ++ L' :: post ->
  pre = cs /\ L' = L /\ post = [].
Proof.
  intros Hcs HL'. revert pre.
  induction Hcs as [|c cs Hc _ IH]; intros pre H.
  - destruct pre as [|x pre]; cbn in H.
    + injection H as <- <-. repeat split.
    + injection H as _ H. now destruct pre.
  - destruct pre as [|x pre]; cbn in H.
    + injection H as <- _. contradiction.
    + injection H as <- H. destruct (IH pre H) as (-> & -> & ->).
      repeat split.
Qed.

Lemma valuation_lines_ok_compat (cs : list OutLine) :
  Forall is_compat_line cs -> valuation_lines_ok cs.
Proof.
  intros Hcs pre id p o succs lbl post H. exfalso.
  rewrite Forall_forall in Hcs.
  apply (not_compat_valuation id p o succs lbl). apply Hcs.
  rewrite H. apply in_or_app. right. now left.
Qed.

Lemma valuation_lines_ok_one (L : OutLine) :
  (forall id p o succs lbl, L <> Vertex ValuationV id p o succs lbl) ->
  valuation_lines_ok [L].
Proof.
  intros HL pre id p o succs lbl post H. exfalso.
  destruct pre as [|x pre]; cbn in H.
  - injection H as H _. now apply HL in H.
  - injection H as _ H. now destruct pre.
Qed.

Lemma valuation_lines_ok_app (o1 o2 : list OutLine) :
  valuation_lines_ok o1 -> closed o1 -> valuation_lines_ok o2 ->
  valuation_lines_ok (o1 ++ o2).
Proof.
  intros H1 Hc H2 pre id p o succs lbl post H.
  apply app_eq_app in H.
  destruct H as (l & [(-> & Hl) | (-> & Hl)]).
  - destruct l as [|x l]; cbn in Hl.
    + subst o2.
      destruct (H2 [] id p o succs lbl post eq_refl)
        as (Hp & Ho & Hlbl & pre' & cs & Hpre & Hcl & Hcs & Hne & Hs).
      symmetry in Hpre. apply app_eq_nil in Hpre. destruct Hpre as [-> ->].
      now contradiction Hne.
    + injection Hl as <- ->.
      apply (H1 pre id p o succs lbl l). reflexivity.
  - destruct (H2 l id p o succs lbl post Hl)
      as (Hp & Ho & Hlbl & pre' & cs & -> & Hcl & Hcs & Hne & Hs).
    repeat split; try assumption.
    exists (o1 ++ pre'), cs. rewrite app_assoc.
    repeat split; try assumption. now apply closed_app.
Qed.

Section ConstructionLines.

Variable fuel : nat.
Variable data : HoaData.
Variable maxPrio : bool.
Variable winR : Z.
Variable ucntAPs : list Z.
Variable numValuations : Z.

Lemma valuationBody_lines (s : StateList) (f value n : Z)
    (out : list OutLine) (r : result Z) :
  valuationBody fuel data maxPrio winR ucntAPs s f value n = (out, r) ->
  valuation_lines_ok out /\ (forall a, r = Ret a -> closed out).
Proof.
  intros E.
  destruct (valuationBody_shape _ _ _ _ _ _ _ _ _ _ _ E)
    as (cs & Hcs & _ & [(n' & -> & Hne & ->) | (Hr & ->)] & _).
  - split.
    + intros pre id p o succs lbl post H.
      apply compat_run_then_line in H;
        [|assumption | apply not_compat_valuation].
      destruct H as (-> & H & ->). injection H as -> -> -> -> ->.
      repeat split. exists [], cs. repeat split; try assumption.
      apply closed_nil.
    + intros _ _. apply closed_snoc, not_compat_valuation.
  - split; [now apply valuation_lines_ok_compat|].
    intros a Ha. now apply Hr in Ha.
Qed.

Lemma valuationLoop_lines (s : StateList) (f : Z) :
  forall values n out r,
    valuationLoop fuel data maxPrio winR ucntAPs s f values n = (out, r) ->
    valuation_lines_ok out /\ (forall a, r = Ret a -> closed out).
Proof.
  induction values as [|v rest IH]; intros n out r E.
  - cbn in E. injection E as <- <-. split.
    + now apply valuation_lines_ok_compat.
    + intros _ _. apply closed_nil.
  - cbn [valuationLoop] in E. apply rbind_inv in E.
    destruct E as [(o1 & n1 & o2 & E1 & E2 & ->) | [(E1 & ->) | (E1 & ->)]].
    + destruct (valuationBody_lines _ _ _ _ _ _ E1) as (Hok1 & Hcl1).
      destruct (IH _ _ _ E2) as (Hok2 & Hcl2).
      specialize (Hcl1 n1 eq_refl). split.
      * now apply valuation_lines_ok_app.
      * intros a Ha. apply closed_app; [assumption | now apply (Hcl2 a)].
    + destruct (valuationBody_lines _ _ _ _ _ _ E1) as (Hok1 & _).
      split; [assumption | discriminate].
    + destruct (valuationBody_lines _ _ _ _ _ _ E1) as (Hok1 & _).
      split; [assumption | discriminate].
Qed.

Lemma stateBody_lines (s : StateList) (n : Z)
    (out : list OutLine) (r : result Z) :
  stateBody fuel data maxPrio winR ucntAPs numValuations s n = (out, r) ->
  valuation_lines_ok out /\ (forall a, r = Ret a -> closed out).
Proof.
  intros E.
  destruct (stateBody_shape _ _ _ _ _ _ _ _ _ _ E) as (vs & Evs & Hout).
  destruct (valuationLoop_lines _ _ _ _ _ _ Evs) as (Hok & Hcl).
  destruct Hout as [(n' & -> & ->) | (Hr & ->)].
  - split.
    + apply valuation_lines_ok_app; [assumption | now apply (Hcl n') |].
      apply valuation_lines_ok_one. discriminate.
    + intros _ _. apply closed_snoc, not_compat_decision.
  - split; [assumption|]. intros a Ha. now apply Hr in Ha.
Qed.

Lemma stateLoop_lines :
  forall sts n out r,
    stateLoop fuel data maxPrio winR ucntAPs numValuations sts n = (out, r) ->
    valuation_lines_ok out /\ (forall a, r = Ret a -> closed out).
Proof.
  induction sts as [|s rest IH]; intros n out r E.
  - cbn in E. injection E as <- <-. split.
    + now apply valuation_lines_ok_compat.
    + intros _ _. apply closed_nil.
  - cbn [stateLoop] in E. apply rbind_inv in E.
    destruct E as [(o1 & n1 & o2 & E1 & E2 & ->) | [(E1 & ->) | (E1 & ->)]].
    + destruct (stateBody_lines _ _ _ _ E1) as (Hok1 & Hcl1).
      destruct (IH _ _ _ E2) as (Hok2 & Hcl2).
      specialize (Hcl1 n1 eq_refl). split.
      * now apply valuation_lines_ok_app.
      * intros a Ha. apply closed_app; [assumption | now apply (Hcl2 a)].
    + destruct (stateBody_lines _ _ _ _ E1) as (Hok1 & _).
      split; [assumption | discriminate].
    + destruct (stateBody_lines _ _ _ _ E1) as (Hok1 & _).
      split; [assumption | discriminate].
Qed.

End ConstructionLines.

Lemma main_valuation_lines (fuel : nat) (data : HoaData)
    (out : list OutLine) (r : result Z) :
  main fuel 0 data = (out, r) -> valuation_lines_ok out.
Proof.
  intros E.
  destruct (main_output_cases _ _ _ _ E)
    as [(-> & _) | (lo & r' & El & -> & _)].
  - now apply valuation_lines_ok_compat.
  - destruct (stateLoop_lines _ _ _ _ _ _ _ _ _ _ El) as (Hok & _).
    apply (valuation_lines_ok_app [_] lo).
    + apply valuation_lines_ok_one. discriminate.
    + apply (closed_snoc []), not_compat_header.
    + assumption.
Qed.

Lemma StronglySorted_lt_app_inv (l1 l2 : list Z) :
  StronglySorted Z.lt (l1 ++ l2) ->
  StronglySorted Z.lt l1 /\ StronglySorted Z.lt l2.
Proof.
  induction l1 as [|x l1 IH]; cbn; intros H.
  - split; [constructor | assumption].
  - inversion H as [|? ? Hs Hx]; subst. destruct (IH Hs) as (H1 & H2).
    split; [|assumption]. constructor; [assumption|].
    apply Forall_app in Hx. tauto.
Qed.

(** C3, as stated, fails: with two transitions compatible with the one
    valuation, the vertices 2 and 3 are allocated in this order and the
    line of the valuation vertex lists them as 3,2. *)
Lemma valuation_successors_not_ascending :
  ~ (forall fuel data out r pre id p o succs lbl post,
        main fuel 0 data = (out, r) ->
        out = pre ++ Vertex ValuationV id p o succs lbl :: post ->
        StronglySorted Z.lt succs).
Proof.
  intros H.
  specialize (H 1%nat
                (loop_hoa [bool_node true; bool_node true]
                   ["max"; "even"]%string)
                _ _
                [Header 1; Vertex CompatV 2 2 0 [0] (LInt 2);
                 Vertex CompatV 3 2 0 [0] (LInt 3)]
                1 0 0 [3; 2] (LInt 1)
                [Vertex DecisionV 0 0 1 [1; 1] (LInt 0)]
                eq_refl eq_refl).
  inversion H as [|? ? _ Hall]; subst.
  inversion Hall as [|? ? Hlt _]; subst. lia.
Qed.

Example valuation_line_text :
  print_line (Vertex ValuationV 1 0 0 [3; 2] (LInt 1))
  = ("1 0 0 3,2 " ++ quote ++ "1" ++ quote ++ newline)%string.
Proof. reflexivity. Qed.

(** C3, amended: every line of a valuation vertex that [main] prints has
    priority 0 and owner 0; right before it stand the lines of the
    compatible transitions of that valuation, at least one, and its
    successors are their identifiers in the reverse of the order of
    allocation, the last allocated first; as long as the identifiers fit
    [int] that order is descending. *)
Theorem valuation_vertex_successors_latest_first :
  forall (fuel : nat) (data : HoaData) (out : list OutLine) (r : result Z),
    main fuel 0 data = (out, r) ->
    forall pre id p o succs lbl post,
      out = pre ++ Vertex ValuationV id p o succs lbl :: post ->
      p = 0 /\ o = 0 /\ lbl = LInt id
      /\ (exists pre' cs,
            pre = pre' ++ cs /\ closed pre'
            /\ Forall is_compat_line cs /\ cs <> []
            /\ succs = rev (vertex_ids cs))
      /\ (0 <= noStates data -> 0 <= numValuationsOf data ->
          noStates data + idBudget (numValuationsOf data) (states data)
            <= INT_MAX ->
          StronglySorted Z.gt succs).
Proof.
  intros fuel data out r E pre id p o succs lbl post Hout.
  destruct (main_valuation_lines _ _ _ _ E _ _ _ _ _ _ _ Hout)
    as (Hp & Ho & Hlbl & pre' & cs & Hpre & Hcl & Hcs & Hne & Hs).
  repeat split; try assumption.
  - now exists pre', cs.
  - intros Hn HNV Hb.
    destruct (main_output_cases _ _ _ _ E)
      as [(-> & _) | (lo & r' & El & Hlo & _)].
    { now destruct pre. }
    destruct (stateLoop_ids _ _ _ _ _ _ _ _ _ _ El HNV)
      as (m & _ & (SC & _) & _); [unfold INT_MIN; lia | assumption |].
    assert (HC : ids_of_kind CompatV out = ids_of_kind CompatV lo)
      by (rewrite Hlo; reflexivity).
    rewrite <- HC, Hout, Hpre, <- app_assoc, !ids_of_kind_app in SC.
    apply StronglySorted_lt_app_inv in SC. destruct SC as (_ & SC).
    apply StronglySorted_lt_app_inv in SC. destruct SC as (SC & _).
    rewrite (ids_of_kind_compat_lines CompatV cs Hcs) in SC. cbn in SC.
    subst succs. now apply StronglySorted_lt_rev.
Qed.

Lemma valuation_vertex_successors_latest_first_witness :
  StronglySorted Z.gt [3; 2]
  /\ exists pre' cs,
       [Header 1; Vertex CompatV 2 2 0 [0] (LInt 2);
        Vertex CompatV 3 2 0 [0] (LInt 3)] = pre' ++ cs
       /\ closed pre' /\ Forall is_compat_line cs /\ cs <> []
       /\ [3; 2] = rev (vertex_ids cs).
Proof.
  destruct (valuation_vertex_successors_latest_first 1%nat
              (loop_hoa [bool_node true; bool_node true]
                 ["max"; "even"]%string)
              _ _ eq_refl
              [Header 1; Vertex CompatV 2 2 0 [0] (LInt 2);
               Vertex CompatV 3 2 0 [0] (LInt 3)]
              1 0 0 [3; 2] (LInt 1)
              [Vertex DecisionV 0 0 1 [1; 1] (LInt 0)] eq_refl)
    as (_ & _ & _ & Hcs & Hsorted).
  split; [|exact Hcs].
  apply Hsorted; vm_compute; discriminate.
Defined.

(** C1: what the code prints for the decision vertex.  With one
    valuation per state the vertex 1 is listed twice on the line of state
    0; with two valuations the vertex 1 is listed twice and the vertex 2
    once. *)
Theorem decision_vertex_first_successor_twice :
  main 1 0 (loop_hoa [bool_node true] ["max"; "even"]%string)
  = ([Header 1;
      Vertex CompatV 2 2 0 [0] (LInt 2);
      Vertex ValuationV 1 0 0 [2] (LInt 1);
      Vertex DecisionV 0 0 1 [1; 1] (LInt 0)], Ret EXIT_SUCCESS)
  /\ main 1 0 (one_ap_hoa [bool_node true])
     = ([Header 2;
         Vertex CompatV 3 2 0 [0] (LInt 3);
         Vertex ValuationV 1 0 0 [3] (LInt 1);
         Vertex CompatV 4 2 0 [0] (LInt 4);
         Vertex ValuationV 2 0 0 [4] (LInt 2);
         Vertex DecisionV 0 0 1 [1; 1; 2] (LStr "q0")], Ret EXIT_SUCCESS)
  /\ count_occ Z.eq_dec [1; 1; 2] 1 = 2%nat
  /\ print_line (Vertex DecisionV 0 0 1 [1; 1; 2] (LStr "q0"))
     = ("0 0 1 1,1,2 " ++ quote ++ "q0" ++ quote ++ newline)%string.
Proof. repeat split. Qed.

(** The text of a whole run. *)
Example loop_game_text :
  print_lines
    (fst (main 1 0 (loop_hoa [bool_node true] ["max"; "even"]%string)))
  = ("parity 1;" ++ newline
     ++ "2 2 0 0 " ++ quote ++ "2" ++ quote ++ newline
     ++ "1 0 0 2 " ++ quote ++ "1" ++ quote ++ newline
     ++ "0 0 1 1,1 " ++ quote ++ "0" ++ quote ++ newline)%string.
Proof. reflexivity. Qed.

(** C4: what the code prints as the bound.  For one state with one
    self-loop and no atomic proposition the header says 1 and the
    vertices are 0, 1 and 2; with one atomic proposition the header says 2
    and the vertices go up to 4. *)
Theorem header_bound_below_highest_id :
  declared_bound
    (fst (main 1 0 (loop_hoa [bool_node true] ["max"; "even"]%string)))
  = Some 1
  /\ highest_id
       (fst (main 1 0 (loop_hoa [bool_node true] ["max"; "even"]%string)))
     = 2
  /\ declared_bound (fst (main 1 0 (one_ap_hoa [bool_node true]))) = Some 2
  /\ highest_id (fst (main 1 0 (one_ap_hoa [bool_node true]))) = 4.
Proof. repeat split. Qed.

(** ** The lines of the decision vertices *)

Section DecisionLines.

Variable fuel : nat.
Variable data : HoaData.
Variable maxPrio : bool.
Variable winR : Z.
Variable ucntAPs : list Z.
Variable numValuations : Z.

Lemma compat_not_decision (cs : list OutLine) :
  Forall is_compat_line cs -> Forall not_decision cs.
Proof.
  intros H. eapply Forall_impl; [|exact H].
  intros L (id & prio & succ & ->). exact I.
Qed.

Lemma valuationLoop_not_decision (s : StateList) (f : Z) :
  forall values n out r,
    valuationLoop fuel data maxPrio winR ucntAPs s f values n = (out, r) ->
    Forall not_decision out.
Proof.
  assert (Hbody : forall value n out r,
            valuationBody fuel data maxPrio winR ucntAPs s f value n
            = (out, r) -> Forall not_decision out).
  { intros value n out r E.
    destruct (valuationBody_shape _ _ _ _ _ _ _ _ _ _ _ E)
      as (cs & Hcs & _ & [(n' & _ & _ & ->) | (_ & ->)] & _).
    - apply Forall_app. split; [now apply compat_not_decision|].
      repeat constructor.
    - now apply compat_not_decision. }
  induction values as [|v rest IH]; intros n out r E.
  - cbn in E. injection E as <- <-. constructor.
  - cbn [valuationLoop] in E. apply rbind_inv in E.
    destruct E as [(o1 & n1 & o2 & E1 & E2 & ->) | [(E1 & ->) | (E1 & ->)]].
    + apply Forall_app. split; [eapply Hbody | eapply IH]; eassumption.
    + eapply Hbody; eassumption.
    + eapply Hbody; eassumption.
Qed.

Lemma not_decision_ok (out : list OutLine) :
  Forall not_decision out ->
  Forall (decision_line_ok data numValuations) out.
Proof.
  intros H. eapply Forall_impl; [|exact H].
  intros [n|[] id p o succs lbl]; cbn; tauto.
Qed.

Lemma stateLoop_decision_lines :
  forall sts n out r,
    incl sts (states data) ->
    stateLoop fuel data maxPrio winR ucntAPs numValuations sts n = (out, r) ->
    Forall (decision_line_ok data numValuations) out.
Proof.
  assert (Hbody : forall s n out r,
            In s (states data) ->
            stateBody fuel data maxPrio winR ucntAPs numValuations s n
            = (out, r) ->
            Forall (decision_line_ok data numValuations) out).
  { intros s n out r Hs E.
    destruct (stateBody_shape _ _ _ _ _ _ _ _ _ _ E) as (vs & Evs & Hout).
    apply valuationLoop_not_decision, not_decision_ok in Evs.
    destruct Hout as [(n' & _ & ->) | (_ & ->)]; [|assumption].
    apply Forall_app. split; [assumption|].
    constructor; [|constructor]. cbn. repeat split.
    exists s, n. repeat split. assumption. }
  induction sts as [|s rest IH]; intros n out r Hincl E.
  - cbn in E. injection E as <- <-. constructor.
  - cbn [stateLoop] in E. apply rbind_inv in E.
    assert (Hs : In s (states data)) by (apply Hincl; now left).
    assert (Hrest : incl rest (states data))
      by (intros x Hx; apply Hincl; now right).
    destruct E as [(o1 & n1 & o2 & E1 & E2 & ->) | [(E1 & ->) | (E1 & ->)]].
    + apply Forall_app. split; [eapply Hbody | eapply IH]; eassumption.
    + eapply Hbody; eassumption.
    + eapply Hbody; eassumption.
Qed.

End DecisionLines.

(** Every line of a decision vertex that [main] prints is the line of a
    state, with priority 0, owner 1 and the state's name or identifier as
    label; its successor list starts with [firstSucc] and goes on with
    [firstSucc] again. *)
Lemma main_decision_lines (fuel : nat) (data : HoaData)
    (out : list OutLine) (r : result Z) :
  main fuel 0 data = (out, r) ->
  Forall (decision_line_ok data (numValuationsOf data)) out.
Proof.
  intros E.
  destruct (main_output_cases _ _ _ _ E)
    as [(-> & _) | (lo & r' & El & -> & _)]; [constructor|].
  constructor; [exact I|].
  eapply stateLoop_decision_lines; [apply incl_refl | exact El].
Qed.

(** With at least one valuation, and without overflow, the first
    successor of a decision line stands twice on the line and the line has
    one successor more than there are valuations. *)
Lemma decision_successors_duplicate (firstSucc numValuations : Z) :
  1 <= numValuations -> in_int (firstSucc + numValuations) ->
  let succs :=
    firstSucc :: intRange firstSucc (int_add firstSucc numValuations) in
  count_occ Z.eq_dec succs firstSucc = 2%nat
  /\ Z.of_nat (List.length succs) = numValuations + 1.
Proof.
  intros HNV Hin succs. unfold succs.
  rewrite int_add_small by assumption.
  rewrite (intRange_cons firstSucc) by lia. split.
  - cbn [count_occ]. destruct (Z.eq_dec firstSucc firstSucc); [|contradiction].
    f_equal. f_equal. apply count_occ_not_In.
    intros H. apply intRange_In in H. lia.
  - cbn [List.length]. rewrite intRange_length. lia.
Qed.

(** ** How far the identifiers go *)

Section Allocation.

Variable fuel : nat.
Variable data : HoaData.
Variable maxPrio : bool.
Variable winR : Z.
Variable ucntAPs : list Z.
Variable numValuations : Z.

(** Each valuation that is completed takes at least one identifier for a
    compatible transition. *)
Lemma valuationLoop_allocates (s : StateList) (f : Z) :
  forall (c a : nat) (n n' : Z) (out : list OutLine),
    valuationLoop fuel data maxPrio winR ucntAPs s f
      (map Z.of_nat (seq a c)) n = (out, Ret n') ->
    INT_MIN <= n ->
    n + Z.of_nat c * Z.of_nat (List.length (transitions s)) <= INT_MAX ->
    n + Z.of_nat c <= n'.
Proof.
  induction c as [|c IH]; intros a n n' out E Hlo Hhi.
  - cbn in E. injection E as <- <-. lia.
  - cbn [seq map valuationLoop] in E. apply rbind_inv in E.
    destruct E as [(o1 & n1 & o2 & E1 & E2 & ->) | [(_ & E) | (_ & E)]];
      try discriminate.
    destruct (valuationBody_shape _ _ _ _ _ _ _ _ _ _ _ E1)
      as (cs & _ & Hlen & Hout & Hids).
    destruct (Hids Hlo ltac:(nia)) as (_ & Hn1).
    specialize (Hn1 n1 eq_refl).
    destruct Hout as [(n'' & _ & Hne & _) | (Hr & _)];
      [|exfalso; now apply (Hr n1)].
    assert (Hcs : (1 <= List.length cs)%nat)
      by (destruct cs; [contradiction | cbn; lia]).
    specialize (IH (S a) n1 n' o2 E2 ltac:(lia) ltac:(nia)). lia.
Qed.

Lemma stateBody_allocates (s : StateList) (n n' : Z) (out : list OutLine) :
  stateBody fuel data maxPrio winR ucntAPs numValuations s n
  = (out, Ret n') ->
  0 <= numValuations -> INT_MIN <= n ->
  n + numValuations * (1 + Z.of_nat (List.length (transitions s)))
    <= INT_MAX ->
  n + 2 * numValuations <= n'.
Proof.
  intros E HNV Hlo Hhi.
  destruct (stateBody_shape _ _ _ _ _ _ _ _ _ _ E) as (vs & Evs & _).
  assert (HNVhi : numValuations < 2 ^ 32)
    by (unfold INT_MIN, INT_MAX in *; nia).
  unfold valuations in Evs.
  rewrite uint_wrap_small in Evs by lia.
  rewrite int_add_small in Evs by (unfold in_int; nia).
  pose proof (valuationLoop_allocates _ _ _ _ _ _ _ Evs) as H.
  rewrite Z2Nat.id in H by lia. specialize (H ltac:(lia) ltac:(nia)). lia.
Qed.

Lemma stateLoop_allocates :
  forall (sts : list StateList) (n n' : Z) (out : list OutLine),
    stateLoop fuel data maxPrio winR ucntAPs numValuations sts n
    = (out, Ret n') ->
    0 <= numValuations -> INT_MIN <= n ->
    n + idBudget numValuations sts <= INT_MAX ->
    n + 2 * numValuations * Z.of_nat (List.length sts) <= n'
    /\ (sts <> [] -> 1 <= numValuations ->
        In (n' - 1) (ids_of_kind CompatV out)).
Proof.
  induction sts as [|s sts IH]; intros n n' out E HNV Hlo Hhi.
  - cbn in E. injection E as <- <-. cbn. split; [lia | contradiction].
  - cbn [stateLoop idBudget] in *.
    pose proof (idBudget_nonneg numValuations sts HNV) as Hb.
    apply rbind_inv in E.
    destruct E as [(o1 & n1 & o2 & E1 & E2 & ->) | [(_ & E) | (_ & E)]];
      try discriminate.
    pose proof (stateBody_allocates _ _ _ _ E1 HNV Hlo ltac:(lia)) as Hn1.
    destruct (stateBody_success_ids _ _ _ _ _ _ _ _ _ _ E1 HNV Hlo
                ltac:(lia)) as (_ & HC & _ & _).
    destruct (stateBody_ids _ _ _ _ _ _ _ _ _ _ E1 HNV Hlo ltac:(lia))
      as (m1 & Hm1 & _ & _ & Hr1).
    destruct (Hr1 n1 eq_refl) as (-> & _).
    destruct (IH m1 n' o2 E2 HNV ltac:(lia) ltac:(lia)) as (Hn' & Hin).
    split.
    + cbn [List.length]. lia.
    + intros _ HNV1. rewrite ids_of_kind_app. apply in_or_app.
      destruct sts as [|s' sts'].
      * left. cbn in E2. injection E2 as <- <-.
        rewrite HC. apply intRange_In. lia.
      * right. apply Hin; [discriminate | assumption].
Qed.

Lemma idBudget_ge_states (sts : list StateList) :
  0 <= numValuations ->
  numValuations * Z.of_nat (List.length sts) <= idBudget numValuations sts.
Proof.
  intros H. induction sts as [|s sts IH]; cbn [idBudget List.length];
    [lia|].
  pose proof (Nat2Z.is_nonneg (List.length (transitions s))). nia.
Qed.

End Allocation.

Lemma highest_id_ge (out : list OutLine) (i : Z) :
  In i (vertex_ids out) -> i <= highest_id out.
Proof.
  unfold highest_id. induction (vertex_ids out) as [|x l IH]; cbn.
  - contradiction.
  - intros [-> | H]; [lia | specialize (IH H); lia].
Qed.

(** For every automaton with as many states as [noStates] says, at least
    one, every run of [main] that is completed declares less than the
    highest identifier it uses. *)
Lemma header_bound_too_low (fuel : nat) (data : HoaData)
    (out : list OutLine) :
  main fuel 0 data = (out, Ret EXIT_SUCCESS) ->
  states data <> [] ->
  Z.of_nat (List.length (states data)) = noStates data ->
  1 <= numValuationsOf data ->
  noStates data + idBudget (numValuationsOf data) (states data)
    <= INT_MAX ->
  exists N, declared_bound out = Some N /\ N < highest_id out.
Proof.
  intros E Hne Hlen HNV Hb.
  destruct (main_output_cases _ _ _ _ E)
    as [(_ & Hr) | (lo & r' & El & -> & Hr)]; [contradiction|].
  destruct r' as [n'| |]; try discriminate.
  assert (Hn : 1 <= noStates data)
    by (destruct (states data); [contradiction | cbn in Hlen; lia]).
  pose proof (idBudget_ge_states (numValuationsOf data) (states data)
                ltac:(lia)) as Hge.
  destruct (stateLoop_allocates _ _ _ _ _ _ _ _ _ _ El)
    as (Hn' & Hin); [lia | unfold INT_MIN; lia | assumption |].
  specialize (Hin Hne HNV).
  eexists. split; [reflexivity|].
  rewrite int_add_small by (unfold in_int, INT_MIN, INT_MAX in *; nia).
  rewrite int_mul_small by (unfold in_int, INT_MIN, INT_MAX in *; nia).
  rewrite int_sub_small by (unfold in_int, INT_MIN, INT_MAX in *; nia).
  assert (Htop : n' - 1 <= highest_id
                   (Header (noStates data * (numValuationsOf data + 1) - 1)
                      :: lo)).
  { apply highest_id_ge. cbn [vertex_ids].
    apply (Permutation_in _ (Permutation_sym (vertex_ids_perm lo))).
    apply in_or_app. now left. }
  nia.
Qed.

(** ** Runs on well-formed automata end *)

(** The budget that a label needs does not depend on the valuation. *)
Lemma evalLabel_wf_fuel (als : list AliasList) (e : BTree) :
  wf_label als e ->
  exists n, forall apIds value fuel, (n <= fuel)%nat ->
    exists v, ternary v /\ evalLabel fuel e als apIds value = Ret v.
Proof.
  induction 1 as [l r nm id | l r nm id _ [n1 H1] _ [n2 H2]
                 | l r nm id _ [n1 H1] _ [n2 H2]
                 | l r nm id _ [n1 H1] | l r nm id
                 | l r nm id e Ha _ [n1 H1]].
  - exists 1%nat. intros apIds value fuel Hf. fuel_succ fuel Hf.
    eexists. split; [|reflexivity]. unfold ternary.
    destruct (id =? 0); auto.
  - exists (S (Nat.max n1 n2)). intros apIds value fuel Hf.
    fuel_succ fuel Hf. cbn [evalLabel].
    destruct (H1 apIds value fuel ltac:(lia)) as (vl & Tl & ->).
    destruct (H2 apIds value fuel ltac:(lia)) as (vr & Tr & ->).
    cbn [bind]. unfold ternary.
    destruct ((vl =? -1) || (vr =? -1)); [eauto|].
    destruct ((vl =? 0) || (vr =? 0)); eauto.
  - exists (S (Nat.max n1 n2)). intros apIds value fuel Hf.
    fuel_succ fuel Hf. cbn [evalLabel].
    destruct (H1 apIds value fuel ltac:(lia)) as (vl & Tl & ->).
    destruct (H2 apIds value fuel ltac:(lia)) as (vr & Tr & ->).
    cbn [bind]. unfold ternary.
    destruct ((vl =? 1) || (vr =? 1)); [eauto|].
    destruct ((vl =? 0) || (vr =? 0)); eauto.
  - exists (S n1). intros apIds value fuel Hf. fuel_succ fuel Hf.
    cbn [evalLabel].
    destruct (H1 apIds value fuel ltac:(lia)) as (v & Tv & ->).
    cbn [bind]. exists (flip v). split; [now apply flip_ternary|].
    now rewrite int_mul_flip.
  - exists 1%nat. intros apIds value fuel Hf. fuel_succ fuel Hf.
    eexists. split; [apply apLoop_ternary | reflexivity].
  - exists (S n1). intros apIds value fuel Hf. fuel_succ fuel Hf.
    cbn [evalLabel]. rewrite Ha. apply H1. lia.
Qed.

Lemma evalLabel_wf_fuel_list (als : list AliasList) (ls : list BTree) :
  Forall (wf_label als) ls ->
  exists n, forall e apIds value fuel, In e ls -> (n <= fuel)%nat ->
    evalLabel fuel e als apIds value <> OutOfFuel.
Proof.
  induction 1 as [|e ls He _ [n IH]].
  - exists 0%nat. intros e apIds value fuel [].
  - destruct (evalLabel_wf_fuel als e He) as [n0 H0].
    exists (Nat.max n0 n). intros e' apIds value fuel [<- | Hin] Hf.
    + destruct (H0 apIds value fuel ltac:(lia)) as (v & _ & ->).
      discriminate.
    + apply IH; [assumption | lia].
Qed.

Lemma rbind_ends {A B : Type} (m : run A) (f : A -> run B) :
  snd m <> OutOfFuel -> (forall a, snd (f a) <> OutOfFuel) ->
  snd (rbind m f) <> OutOfFuel.
Proof.
  destruct m as [o [a| |]]; cbn; intros Hm Hf.
  - specialize (Hf a). now destruct (f a).
  - discriminate.
  - now contradiction Hm.
Qed.

Section Ends.

Variable fuel : nat.
Variable data : HoaData.
Variable maxPrio : bool.
Variable winR : Z.
Variable ucntAPs : list Z.
Variable numValuations : Z.

Hypothesis enough : forall s t value,
  In s (states data) -> In t (transitions s) ->
  evalLabel fuel (effective_label s t) (aliases data) ucntAPs value
  <> OutOfFuel.

Lemma transLoop_ends (s : StateList) (value : Z) :
  In s (states data) ->
  forall trans n vv,
    incl trans (transitions s) ->
    snd (transLoop fuel data maxPrio winR ucntAPs s value trans n vv)
    <> OutOfFuel.
Proof using enough.
  intros Hs. induction trans as [|t next IH]; intros n vv Hincl.
  - discriminate.
  - cbn [transLoop]. rewrite !assert_bind.
    destruct (successors t) as [|succ [|]]; try discriminate.
    pose proof (enough s t value Hs (Hincl t (or_introl eq_refl))) as He.
    unfold effective_label in He.
    destruct (match s_label s with
              | BNull => label t
              | BNode _ _ _ _ _ => s_label s
              end); try discriminate.
    destruct (match s_accSig s with
              | [] => accSig t
              | _ :: _ => s_accSig s
              end) as [|a [|]]; try discriminate.
    rewrite lift_bind.
    destruct (evalLabel fuel _ (aliases data) ucntAPs value)
      as [evald| |]; [|discriminate|contradiction].
    assert (Hnext : incl next (transitions s))
      by (intros x Hx; apply Hincl; now right).
    destruct (negb (evald =? -1)).
    + rewrite printf_bind. cbn [snd]. now apply IH.
    + now apply IH.
Qed.

Lemma stateLoop_ends :
  forall sts n,
    incl sts (states data) ->
    snd (stateLoop fuel data maxPrio winR ucntAPs numValuations sts n)
    <> OutOfFuel.
Proof using enough.
  assert (Hbody : forall s f value n, In s (states data) ->
            snd (valuationBody fuel data maxPrio winR ucntAPs s f value n)
            <> OutOfFuel).
  { intros s f value n Hs. unfold valuationBody.
    apply rbind_ends; [apply transLoop_ends; [assumption|apply incl_refl]|].
    intros [n' vv']. apply rbind_ends; [|discriminate].
    unfold assert. cbn. now destruct vv'. }
  assert (Hloop : forall s f values n, In s (states data) ->
            snd (valuationLoop fuel data maxPrio winR ucntAPs s f values n)
            <> OutOfFuel).
  { intros s f values. induction values as [|v rest IH]; intros n Hs.
    - discriminate.
    - cbn [valuationLoop]. apply rbind_ends; [now apply Hbody|].
      intros n'. now apply IH. }
  induction sts as [|s rest IH]; intros n Hincl.
  - discriminate.
  - cbn [stateLoop]. apply rbind_ends.
    + unfold stateBody. apply rbind_ends.
      * apply Hloop. apply Hincl. now left.
      * discriminate.
    + intros n'. apply IH. intros x Hx. apply Hincl. now right.
Qed.

End Ends.

(** When every label that [main] evaluates is a label, [main] ends with
    every large enough budget: it returns or fails an assertion. *)
Lemma main_terminates (data : HoaData) :
  labels_wf data ->
  exists n, forall fuel ret, (n <= fuel)%nat ->
    snd (main fuel ret data) <> OutOfFuel.
Proof.
  intros Hwf.
  destruct (evalLabel_wf_fuel_list (aliases data)
              (flat_map (fun s => map (effective_label s) (transitions s))
                 (states data))) as [n Hn].
  { apply Forall_forall. intros e He. apply in_flat_map in He.
    destruct He as (s & Hs & He). apply in_map_iff in He.
    destruct He as (t & <- & Ht). now apply Hwf. }
  exists n. intros fuel ret Hf. unfold main.
  destruct (negb (ret =? 0)); [discriminate|].
  destruct (negb (accNameID data =? "parity")%string); [discriminate|].
  destruct (negb (foundOrd _)); [discriminate|].
  destruct (negb (foundRes _)); [discriminate|].
  destruct (negb (det _)); [discriminate|].
  destruct (negb (complete _)); [discriminate|].
  destruct (negb (colored _)); [discriminate|].
  destruct (start data) as [|s0 [|]]; try discriminate.
  cbv zeta.
  apply rbind_ends; [unfold assert; cbn; now destruct (_ =? _)|].
  intros _. apply rbind_ends; [discriminate|].
  intros _. apply rbind_ends; [|discriminate].
  apply stateLoop_ends; [|apply incl_refl].
  intros s t value Hs Ht. apply Hn; [|assumption].
  apply in_flat_map. exists s. split; [assumption|].
  apply in_map. assumption.
Qed.

(** * Further properties *)

(** ** evalLabel: atomic propositions and valuations *)

Lemma maskAt_pow2 (k : nat) :
  maskAt k = if (k <? 32)%nat then 2 ^ Z.of_nat k else 0.
Proof.
  induction k as [|k IH]; [reflexivity|].
  cbn [maskAt]. rewrite IH. unfold uint_shl, uint_wrap.
  destruct (Nat.ltb_spec k 32) as [Hk|Hk].
  - rewrite Z.shiftl_mul_pow2 by lia.
    replace (2 ^ Z.of_nat k * 2 ^ 1) with (2 ^ Z.of_nat (S k))
      by (rewrite Nat2Z.inj_succ, Z.pow_succ_r by lia; lia).
    destruct (Nat.ltb_spec (S k) 32) as [Hk'|Hk'].
    + apply Z.mod_small. split; [apply Z.pow_nonneg; lia|].
      apply Z.pow_lt_mono_r; lia.
    + assert (S k = 32%nat) as -> by lia. reflexivity.
  - destruct (Nat.ltb_spec (S k) 32); [lia|]. reflexivity.
Qed.

Lemma land_pow2_test (k v : Z) :
  0 <= k -> (Z.land (2 ^ k) v =? 2 ^ k) = Z.testbit v k.
Proof.
  intros Hk. destruct (Z.testbit v k) eqn:Hbit.
  - apply Z.eqb_eq. apply Z.bits_inj'. intros n Hn.
    rewrite Z.land_spec. destruct (Z.eq_dec n k) as [->|Hne].
    + now rewrite Hbit, andb_true_r.
    + now rewrite Z.pow2_bits_false by lia.
  - apply Z.eqb_neq. intros Heq.
    assert (Hb : Z.testbit (Z.land (2 ^ k) v) k = true)
      by (rewrite Heq; apply Z.pow2_bits_true; lia).
    rewrite Z.land_spec, Hbit, andb_false_r in Hb. discriminate.
Qed.

(** The test of the loop at turn [k]: bit [k] of the valuation for the
    first 32 turns, true after them, when the mask has run out. *)
Lemma mask_test (k : nat) (v : Z) :
  (Z.land (maskAt k) v =? maskAt k)
  = if (k <? 32)%nat then Z.testbit v (Z.of_nat k) else true.
Proof.
  rewrite maskAt_pow2. destruct (k <? 32)%nat.
  - apply land_pow2_test. lia.
  - reflexivity.
Qed.

Lemma apLoop_at (id : Z) (pre post : list Z) (k : nat) (value : Z) :
  ~ In id pre ->
  apLoop id (pre ++ id :: post) (maskAt k) value
  = if Z.land (maskAt (k + List.length pre)) value
       =? maskAt (k + List.length pre)
    then 1 else -1.
Proof.
  revert k. induction pre as [|a pre IH]; intros k Hpre; cbn [app apLoop].
  - rewrite Z.eqb_refl. cbn [List.length]. now rewrite Nat.add_0_r.
  - destruct (Z.eqb_spec id a) as [->|Hne].
    + exfalso. apply Hpre. now left.
    + change (uint_shl (maskAt k) 1) with (maskAt (S k)).
      rewrite IH by (intros H; apply Hpre; now right).
      cbn [List.length]. now rewrite Nat.add_succ_r.
Qed.

Lemma apLoop_agree (id : Z) (apIds : list Z) (v w : Z) :
  forall k,
    (forall j, (j < List.length apIds)%nat ->
       (Z.land (maskAt (k + j)) v =? maskAt (k + j))
       = (Z.land (maskAt (k + j)) w =? maskAt (k + j))) ->
    apLoop id apIds (maskAt k) v = apLoop id apIds (maskAt k) w.
Proof.
  induction apIds as [|a rest IH]; intros k H; cbn [apLoop]; [reflexivity|].
  destruct (id =? a).
  - specialize (H 0%nat ltac:(cbn; lia)). rewrite Nat.add_0_r in H.
    now rewrite H.
  - change (uint_shl (maskAt k) 1) with (maskAt (S k)). apply IH.
    intros j Hj. specialize (H (S j) ltac:(cbn; lia)).
    now rewrite Nat.add_succ_r in H.
Qed.

Lemma agree_below_test (n : nat) (v w : Z) (j : nat) :
  agree_below n v w -> (j < n)%nat ->
  (Z.land (maskAt j) v =? maskAt j) = (Z.land (maskAt j) w =? maskAt j).
Proof.
  intros H Hj. rewrite !mask_test. destruct (j <? 32)%nat; [|reflexivity].
  now apply H.
Qed.

Lemma apLoop_app_in (id : Z) (apIds extra : list Z) (mask value : Z) :
  In id apIds ->
  apLoop id (apIds ++ extra) mask value = apLoop id apIds mask value.
Proof.
  revert mask. induction apIds as [|a rest IH]; intros mask Hin;
    [contradiction|].
  cbn [app apLoop]. destruct (Z.eqb_spec id a) as [->|Hne]; [reflexivity|].
  apply IH. destruct Hin as [Heq|Hin]; [congruence | assumption].
Qed.

(** X1: an atomic proposition that is the [k]-th relevant one (its first
    place in [apIds], [k] below 32) evaluates to true when bit [k] of the
    valuation is set and to false when it is not. *)
Theorem evalLabel_ap_bit :
  forall (fuel : nat) (l r : BTree) (nm : string) (id : Z)
         (als : list AliasList) (pre post : list Z) (value : Z),
    ~ In id pre -> (List.length pre < 32)%nat ->
    evalLabel (S fuel) (BNode l r nm id NT_AP) als (pre ++ id :: post) value
    = Ret (if Z.testbit value (Z.of_nat (List.length pre)) then 1 else -1).
Proof.
  intros fuel l r nm id als pre post value Hpre Hlen. cbn [evalLabel].
  f_equal. change 1 with (maskAt 0) at 1.
  rewrite apLoop_at by assumption. cbn [Nat.add]. rewrite mask_test.
  destruct (Nat.ltb_spec (List.length pre) 32); [reflexivity | lia].
Qed.

Lemma evalLabel_ap_bit_witness :
  evalLabel 1 (ap_node 7) [] [3; 7] 2 = Ret 1
  /\ evalLabel 1 (ap_node 7) [] [3; 7] 1 = Ret (-1).
Proof.
  split.
  - apply (evalLabel_ap_bit 0 BNull BNull EmptyString 7 [] [3] [] 2).
    + intros [H|[]]. discriminate H.
    + cbn. lia.
  - apply (evalLabel_ap_bit 0 BNull BNull EmptyString 7 [] [3] [] 1).
    + intros [H|[]]. discriminate H.
    + cbn. lia.
Defined.

(** X2: the thirty-third relevant atomic proposition and the ones after
    it evaluate to true whatever the valuation: the one-bit mask has been
    shifted out of its 32 bits and is 0. *)
Theorem evalLabel_ap_beyond_mask :
  forall (fuel : nat) (l r : BTree) (nm : string) (id : Z)
         (als : list AliasList) (pre post : list Z) (value : Z),
    ~ In id pre -> (32 <= List.length pre)%nat ->
    evalLabel (S fuel) (BNode l r nm id NT_AP) als (pre ++ id :: post) value
    = Ret 1.
Proof.
  intros fuel l r nm id als pre post value Hpre Hlen. cbn [evalLabel].
  f_equal. change 1 with (maskAt 0) at 1.
  rewrite apLoop_at by assumption. cbn [Nat.add]. rewrite mask_test.
  destruct (Nat.ltb_spec (List.length pre) 32); [lia | reflexivity].
Qed.

Lemma evalLabel_ap_beyond_mask_witness :
  evalLabel 1 (ap_node 32) []
    (map Z.of_nat (seq 0 32) ++ [32]) 0 = Ret 1.
Proof.
  apply (evalLabel_ap_beyond_mask 0 BNull BNull EmptyString 32 []
           (map Z.of_nat (seq 0 32)) [] 0).
  - intros H. apply in_map_iff in H. destruct H as (k & Hk & Hin).
    apply in_seq in Hin. lia.
  - rewrite length_map, length_seq. lia.
Defined.

Lemma apLoop_value_local (id : Z) (apIds : list Z) (v w : Z) :
  agree_below (List.length apIds) v w ->
  apLoop id apIds 1 v = apLoop id apIds 1 w.
Proof.
  intros H. change 1 with (maskAt 0). apply apLoop_agree.
  intros j Hj. cbn [Nat.add]. now apply (agree_below_test _ _ _ _ H).
Qed.

(** X3: the value of a label depends on the valuation only through the
    bits of the relevant atomic propositions: two valuations that agree on
    the first [numAPs] bits give the same result, for every tree and
    every budget. *)
Theorem evalLabel_value_local :
  forall (als : list AliasList) (apIds : list Z) (v w : Z),
    agree_below (List.length apIds) v w ->
    forall (fuel : nat) (e : BTree),
      evalLabel fuel e als apIds v = evalLabel fuel e als apIds w.
Proof.
  intros als apIds v w H. induction fuel as [|fuel IH]; intros e;
    [reflexivity|].
  cbn [evalLabel]. destruct e as [|l r nm id ty]; [reflexivity|].
  destruct ty; try reflexivity.
  - now rewrite (IH l), (IH r).
  - now rewrite (IH l), (IH r).
  - now rewrite (IH l).
  - now rewrite (apLoop_value_local id apIds v w H).
  - destruct (aliasLoop als nm); [apply IH | reflexivity].
Qed.

Lemma evalLabel_value_local_witness :
  evalLabel 3 (and_node (ap_node 0) (not_node (ap_node 1))) [] [0; 1] 5
  = evalLabel 3 (and_node (ap_node 0) (not_node (ap_node 1))) [] [0; 1] 1.
Proof.
  apply (evalLabel_value_local [] [0; 1] 5 1).
  intros k Hk. cbn in Hk.
  destruct k as [|[|k]]; [reflexivity | reflexivity | lia].
Defined.

Lemma refines_refl (v : Z) : refines v v.
Proof. now right. Qed.

Lemma refines_and (l r l' r' : Z) :
  refines l l' -> refines r r' ->
  refines (if (l =? -1) || (r =? -1) then -1
           else if (l =? 0) || (r =? 0) then 0 else 1)
          (if (l' =? -1) || (r' =? -1) then -1
           else if (l' =? 0) || (r' =? 0) then 0 else 1).
Proof.
  unfold refines. intros [-> | ->] [-> | ->]; cbn;
    repeat match goal with
           | |- context [?x =? ?y] => destruct (Z.eqb_spec x y); cbn
           end; auto; lia.
Qed.

Lemma refines_or (l r l' r' : Z) :
  refines l l' -> refines r r' ->
  refines (if (l =? 1) || (r =? 1) then 1
           else if (l =? 0) || (r =? 0) then 0 else -1)
          (if (l' =? 1) || (r' =? 1) then 1
           else if (l' =? 0) || (r' =? 0) then 0 else -1).
Proof.
  unfold refines. intros [-> | ->] [-> | ->]; cbn;
    repeat match goal with
           | |- context [?x =? ?y] => destruct (Z.eqb_spec x y); cbn
           end; auto; lia.
Qed.

Lemma refines_not (x y : Z) :
  refines x y -> refines (int_mul (-1) x) (int_mul (-1) y).
Proof. unfold refines. intros [-> | ->]; [now left | now right]. Qed.

(** X4: knowing more atomic propositions never changes a definite
    answer.  When the list of relevant atomic propositions is extended and
    the new valuation agrees with the old one on the old ones, the two
    runs of [evalLabel] end the same way, and a label that was true or
    false stays so; only an unknown may become anything. *)
Theorem evalLabel_more_aps_refines :
  forall (als : list AliasList) (apIds extra : list Z) (v w : Z),
    agree_below (List.length apIds) v w ->
    forall (fuel : nat) (e : BTree),
      result_refines (evalLabel fuel e als apIds v)
                     (evalLabel fuel e als (apIds ++ extra) w).
Proof.
  intros als apIds extra v w H. induction fuel as [|fuel IH]; intros e;
    [exact I|].
  cbn [evalLabel]. destruct e as [|l r nm id ty]; [exact I|].
  destruct ty; try exact I.
  - apply refines_refl.
  - pose proof (IH l) as Hl. pose proof (IH r) as Hr.
    destruct (evalLabel fuel l als apIds v) as [a| |],
             (evalLabel fuel l als (apIds ++ extra) w) as [a'| |];
      cbn in Hl |- *; try contradiction; try exact I.
    destruct (evalLabel fuel r als apIds v) as [b| |],
             (evalLabel fuel r als (apIds ++ extra) w) as [b'| |];
      cbn in Hr |- *; try contradiction; try exact I.
    pose proof (refines_and a b a' b' Hl Hr) as Hand.
    destruct ((a =? -1) || (b =? -1)), ((a' =? -1) || (b' =? -1)),
      ((a =? 0) || (b =? 0)), ((a' =? 0) || (b' =? 0)); exact Hand.
  - pose proof (IH l) as Hl. pose proof (IH r) as Hr.
    destruct (evalLabel fuel l als apIds v) as [a| |],
             (evalLabel fuel l als (apIds ++ extra) w) as [a'| |];
      cbn in Hl |- *; try contradiction; try exact I.
    destruct (evalLabel fuel r als apIds v) as [b| |],
             (evalLabel fuel r als (apIds ++ extra) w) as [b'| |];
      cbn in Hr |- *; try contradiction; try exact I.
    pose proof (refines_or a b a' b' Hl Hr) as Hor.
    destruct ((a =? 1) || (b =? 1)), ((a' =? 1) || (b' =? 1)),
      ((a =? 0) || (b =? 0)), ((a' =? 0) || (b' =? 0)); exact Hor.
  - pose proof (IH l) as Hl.
    destruct (evalLabel fuel l als apIds v) as [a| |],
             (evalLabel fuel l als (apIds ++ extra) w) as [a'| |];
      cbn in Hl |- *; try contradiction; try exact I.
    now apply refines_not.
  - cbn. destruct (in_dec Z.eq_dec id apIds) as [Hin|Hnin].
    + rewrite apLoop_app_in by assumption.
      rewrite (apLoop_value_local id apIds v w H). apply refines_refl.
    + rewrite (apLoop_not_in id apIds 1 v Hnin). now left.
  - destruct (aliasLoop als nm); [apply IH | apply refines_refl].
Qed.

Lemma evalLabel_more_aps_refines_witness :
  result_refines
    (evalLabel 2 (or_node (ap_node 0) (ap_node 1)) [] [0] 1)
    (evalLabel 2 (or_node (ap_node 0) (ap_node 1)) [] ([0] ++ [1]) 1)
  /\ evalLabel 2 (or_node (ap_node 0) (ap_node 1)) [] [0] 1 = Ret 1.
Proof.
  split; [|reflexivity].
  apply (evalLabel_more_aps_refines [] [0] [1] 1 1).
  intros k Hk. reflexivity.
Defined.

(** ** evalLabel: the connectives *)

Lemma and_is_min (a b : Z) :
  ternary a -> ternary b ->
  (if (a =? -1) || (b =? -1) then -1
   else if (a =? 0) || (b =? 0) then 0 else 1) = Z.min a b.
Proof.
  unfold ternary. intros [-> | [-> | ->]] [-> | [-> | ->]]; reflexivity.
Qed.

Lemma or_is_max (a b : Z) :
  ternary a -> ternary b ->
  (if (a =? 1) || (b =? 1) then 1
   else if (a =? 0) || (b =? 0) then 0 else -1) = Z.max a b.
Proof.
  unfold ternary. intros [-> | [-> | ->]] [-> | [-> | ->]]; reflexivity.
Qed.

(** X5: on labels, with false below unknown below true, a conjunction
    evaluates to the smaller of the values of its two sides and a
    disjunction to the larger. *)
Theorem evalLabel_and_min_or_max :
  forall (als : list AliasList) (apIds : list Z) (value : Z) (l r : BTree),
    wf_label als l -> wf_label als r ->
    exists vl vr,
      evaluates als apIds value l vl /\ evaluates als apIds value r vr
      /\ (forall nm id,
            evaluates als apIds value (BNode l r nm id NT_AND) (Z.min vl vr))
      /\ (forall nm id,
            evaluates als apIds value (BNode l r nm id NT_OR) (Z.max vl vr)).
Proof.
  intros als apIds value l r Hl Hr.
  destruct (evalLabel_wf_total als apIds value l Hl) as (vl & Tl & El).
  destruct (evalLabel_wf_total als apIds value r Hr) as (vr & Tr & Er).
  exists vl, vr. repeat split; try assumption.
  - intros nm id. rewrite <- and_is_min by assumption.
    now apply evaluates_and.
  - intros nm id. rewrite <- or_is_max by assumption.
    now apply evaluates_or.
Qed.

Lemma evalLabel_and_min_or_max_witness :
  exists vl vr,
    evaluates [] [0] 1 (ap_node 0) vl /\ evaluates [] [0] 1 (ap_node 1) vr
    /\ (forall nm id,
          evaluates [] [0] 1 (BNode (ap_node 0) (ap_node 1) nm id NT_AND)
            (Z.min vl vr))
    /\ (forall nm id,
          evaluates [] [0] 1 (BNode (ap_node 0) (ap_node 1) nm id NT_OR)
            (Z.max vl vr)).
Proof.
  apply (evalLabel_and_min_or_max [] [0] 1 (ap_node 0) (ap_node 1));
    apply wf_ap.
Defined.

(** X6: on labels the negation is an involution and De Morgan's laws
    hold: the negation of a conjunction evaluates as the disjunction of
    the negations, and the negation of a disjunction as the conjunction of
    the negations. *)
Theorem evalLabel_de_morgan :
  forall (als : list AliasList) (apIds : list Z) (value : Z) (l r : BTree),
    wf_label als l -> wf_label als r ->
    (exists v, evaluates als apIds value l v
               /\ evaluates als apIds value (not_node (not_node l)) v)
    /\ (exists v,
          evaluates als apIds value (not_node (and_node l r)) v
          /\ evaluates als apIds value
               (or_node (not_node l) (not_node r)) v)
    /\ (exists v,
          evaluates als apIds value (not_node (or_node l r)) v
          /\ evaluates als apIds value
               (and_node (not_node l) (not_node r)) v).
Proof.
  intros als apIds value l r Hl Hr.
  destruct (evalLabel_wf_total als apIds value l Hl) as (vl & Tl & El).
  destruct (evalLabel_wf_total als apIds value r Hr) as (vr & Tr & Er).
  pose proof (evaluates_not als apIds value l BNull EmptyString 0 vl El)
    as Enl.
  pose proof (evaluates_not als apIds value r BNull EmptyString 0 vr Er)
    as Enr.
  split; [|split].
  - exists vl. split; [assumption|].
    pose proof (evaluates_not als apIds value _ BNull EmptyString 0 _ Enl)
      as H.
    replace (int_mul (-1) (int_mul (-1) vl)) with vl in H; [exact H|].
    destruct Tl as [-> | [-> | ->]]; reflexivity.
  - eexists. split.
    + apply evaluates_not. apply evaluates_and; eassumption.
    + pose proof (evaluates_or als apIds value _ _ EmptyString 0 _ _
                    Enl Enr) as H.
      match goal with
      | |- evaluates _ _ _ _ ?x =>
          match type of H with
          | evaluates _ _ _ _ ?y => replace x with y; [exact H|]
          end
      end.
      destruct Tl as [-> | [-> | ->]], Tr as [-> | [-> | ->]]; reflexivity.
  - eexists. split.
    + apply evaluates_not. apply evaluates_or; eassumption.
    + pose proof (evaluates_and als apIds value _ _ EmptyString 0 _ _
                    Enl Enr) as H.
      match goal with
      | |- evaluates _ _ _ _ ?x =>
          match type of H with
          | evaluates _ _ _ _ ?y => replace x with y; [exact H|]
          end
      end.
      destruct Tl as [-> | [-> | ->]], Tr as [-> | [-> | ->]]; reflexivity.
Qed.

Lemma evalLabel_de_morgan_witness :
  exists v,
    evaluates [] [0] 0 (not_node (and_node (ap_node 0) (ap_node 1))) v
    /\ evaluates [] [0] 0
         (or_node (not_node (ap_node 0)) (not_node (ap_node 1))) v.
Proof.
  apply (evalLabel_de_morgan [] [0] 0 (ap_node 0) (ap_node 1));
    apply wf_ap.
Defined.

(** X7: whatever the tree, what [evalLabel] returns lies between -2 and 2;
    at a constant, a conjunction, a disjunction or an atomic proposition
    it is -1, 0 or 1, so that -2 and 2 can only come from an alias that
    nothing binds, through aliases and negations. *)
Theorem evalLabel_range :
  forall (als : list AliasList) (apIds : list Z) (value : Z)
         (fuel : nat) (e : BTree) (v : Z),
    evalLabel fuel e als apIds value = Ret v ->
    -2 <= v <= 2
    /\ (forall l r nm id ty,
          e = BNode l r nm id ty ->
          ty = NT_BOOL \/ ty = NT_AND \/ ty = NT_OR \/ ty = NT_AP ->
          ternary v).
Proof.
  intros als apIds value.
  induction fuel as [|fuel IH]; intros e v E; [discriminate|].
  cbn [evalLabel] in E. destruct e as [|l r nm id ty]; [discriminate|].
  assert (Hand : forall a b, ternary
            (if (a =? -1) || (b =? -1) then -1
             else if (a =? 0) || (b =? 0) then 0 else 1)).
  { intros a b. unfold ternary.
    destruct ((a =? -1) || (b =? -1)); auto.
    destruct ((a =? 0) || (b =? 0)); auto. }
  assert (Hor : forall a b, ternary
            (if (a =? 1) || (b =? 1) then 1
             else if (a =? 0) || (b =? 0) then 0 else -1)).
  { intros a b. unfold ternary.
    destruct ((a =? 1) || (b =? 1)); auto.
    destruct ((a =? 0) || (b =? 0)); auto. }
  assert (Htern : ternary v -> -2 <= v <= 2
            /\ (forall l' r' nm' id' ty',
                  BNode l r nm id ty = BNode l' r' nm' id' ty' ->
                  ty' = NT_BOOL \/ ty' = NT_AND \/ ty' = NT_OR
                  \/ ty' = NT_AP -> ternary v)).
  { intros T. split; [unfold ternary in T; lia | intros; exact T]. }
  destruct ty; try discriminate.
  - injection E as <-. apply Htern. unfold ternary.
    destruct (id =? 0); auto.
  - destruct (evalLabel fuel l als apIds value) as [a| |];
      try discriminate.
    destruct (evalLabel fuel r als apIds value) as [b| |];
      try discriminate.
    cbn [bind] in E. apply Htern. specialize (Hand a b).
    destruct ((a =? -1) || (b =? -1)); [injection E as <-; exact Hand|].
    destruct ((a =? 0) || (b =? 0)); injection E as <-; exact Hand.
  - destruct (evalLabel fuel l als apIds value) as [a| |];
      try discriminate.
    destruct (evalLabel fuel r als apIds value) as [b| |];
      try discriminate.
    cbn [bind] in E. apply Htern. specialize (Hor a b).
    destruct ((a =? 1) || (b =? 1)); [injection E as <-; exact Hor|].
    destruct ((a =? 0) || (b =? 0)); injection E as <-; exact Hor.
  - destruct (evalLabel fuel l als apIds value) as [a| |] eqn:El;
      try discriminate.
    cbn [bind] in E. injection E as <-.
    destruct (IH l a El) as (Ha & _). split.
    + unfold int_mul. rewrite int_wrap_small
        by (unfold in_int, INT_MIN, INT_MAX; lia). lia.
    + intros l' r' nm' id' ty' [= _ _ _ _ <-] [H | [H | [H | H]]];
        discriminate H.
  - injection E as <-. apply Htern. apply apLoop_ternary.
  - destruct (aliasLoop als nm) as [e'|].
    + destruct (IH e' v E) as (Hv & _). split; [assumption|].
      intros l' r' nm' id' ty' [= _ _ _ _ <-] [H | [H | [H | H]]];
        discriminate H.
    + injection E as <-. split; [lia|].
      intros l' r' nm' id' ty' [= _ _ _ _ <-] [H | [H | [H | H]]];
        discriminate H.
Qed.

Lemma evalLabel_range_witness :
  -2 <= 2 <= 2
  /\ ternary 1.
Proof.
  destruct (evalLabel_range [] [] 0 2 (not_node (alias_node "x")) 2 eq_refl)
    as (H & _).
  destruct (evalLabel_range [] [] 0 2
              (and_node (alias_node "x") (bool_node true)) 1 eq_refl)
    as (_ & H').
  split; [exact H|].
  apply (H' _ _ _ _ _ eq_refl). right. left. reflexivity.
Defined.

(** ** adjustPriority: parity, order and range *)

Lemma evenCeil_even (n : Z) : Z.even (evenCeil n) = true.
Proof.
  unfold evenCeil. destruct (Z.even n) eqn:E; [assumption|].
  rewrite Z.even_add, E. reflexivity.
Qed.

(** X8: the adjusted priority is even exactly when the raw priority has
    the winning parity: with even winning, the parity of the priority is
    kept; with odd winning, it is swapped.  This holds for max and for min
    objectives, for raw priorities below [noPriorities] and as long as the
    sums fit [int]. *)
Theorem adjustPriority_parity :
  forall p noPriorities winRes0 maxPriority0,
    0 <= p < noPriorities -> noPriorities <= INT_MAX - 3 ->
    winRes0 = 0 \/ winRes0 = 1 ->
    Z.even (adjustPriority p maxPriority0 winRes0 noPriorities)
    = if winRes0 =? 0 then Z.even p else Z.odd p.
Proof.
  intros p n w m Hp Hn Hw.
  rewrite (adjustPriority_eq p n w m Hp Hn Hw).
  rewrite Z.even_add.
  assert (Hpm : Z.even (if m then p else evenCeil n - p) = Z.even p).
  { destruct m; [reflexivity|].
    rewrite Z.even_sub, evenCeil_even. now destruct (Z.even p). }
  rewrite Hpm. destruct Hw as [-> | ->]; cbn.
  - now destruct (Z.even p).
  - rewrite <- Z.negb_even. now destruct (Z.even p).
Qed.

Lemma adjustPriority_parity_witness :
  Z.even (adjustPriority 3 false 1 5) = true
  /\ Z.even (adjustPriority 2 true 0 5) = true.
Proof.
  split.
  - apply (adjustPriority_parity 3 5 1 false);
      [lia | unfold INT_MAX; lia | right; reflexivity].
  - apply (adjustPriority_parity 2 5 0 true);
      [lia | unfold INT_MAX; lia | left; reflexivity].
Defined.

(** X9: for a max objective the adjustment keeps the order of the raw
    priorities; for max and for min it maps different raw priorities to
    different priorities, and its values do not exceed [noPriorities + 3].
    (Raw priorities below [noPriorities]; sums that fit [int].) *)
Theorem adjustPriority_order_and_range :
  forall p q noPriorities winRes0 maxPriority0,
    0 <= p < noPriorities -> 0 <= q < noPriorities ->
    noPriorities <= INT_MAX - 3 ->
    winRes0 = 0 \/ winRes0 = 1 ->
    (p < q ->
     adjustPriority p true winRes0 noPriorities
     < adjustPriority q true winRes0 noPriorities)
    /\ (adjustPriority p maxPriority0 winRes0 noPriorities
        = adjustPriority q maxPriority0 winRes0 noPriorities -> p = q)
    /\ adjustPriority p maxPriority0 winRes0 noPriorities
       <= noPriorities + 3.
Proof.
  intros p q n w m Hp Hq Hn Hw.
  rewrite (adjustPriority_eq p n w true Hp Hn Hw).
  rewrite (adjustPriority_eq q n w true Hq Hn Hw).
  rewrite (adjustPriority_eq p n w m Hp Hn Hw).
  rewrite (adjustPriority_eq q n w m Hq Hn Hw).
  assert (Hceil : n <= evenCeil n <= n + 1)
    by (unfold evenCeil; destruct (Z.even n); lia).
  repeat split.
  - lia.
  - destruct m; lia.
  - destruct m; lia.
Qed.

Lemma adjustPriority_order_and_range_witness :
  adjustPriority 1 true 1 4 < adjustPriority 2 true 1 4
  /\ adjustPriority 0 false 0 3 <= 3 + 3.
Proof.
  destruct (adjustPriority_order_and_range 1 2 4 1 true)
    as (H & _ & _);
    [lia | lia | unfold INT_MAX; lia | right; reflexivity |].
  destruct (adjustPriority_order_and_range 0 0 3 0 false)
    as (_ & _ & H');
    [lia | lia | unfold INT_MAX; lia | left; reflexivity |].
  split; [apply H; lia | exact H'].
Defined.

(** ** The acceptance-name parameters *)

Lemma paramStep_keeps_ord (l : ParamLocals) (s : string) :
  s <> "max"%string -> s <> "min"%string ->
  maxPriority (paramStep l s) = maxPriority l.
Proof.
  intros H1 H2. unfold paramStep.
  destruct (String.eqb_spec s "max"); [contradiction|].
  destruct (String.eqb_spec s "min"); [contradiction|].
  destruct (String.eqb s "even"), (String.eqb s "odd"); reflexivity.
Qed.

Lemma paramStep_keeps_res (l : ParamLocals) (s : string) :
  s <> "even"%string -> s <> "odd"%string ->
  winRes (paramStep l s) = winRes l.
Proof.
  intros H1 H2. unfold paramStep.
  destruct (String.eqb_spec s "even"); [contradiction|].
  destruct (String.eqb_spec s "odd"); [contradiction|].
  destruct (String.eqb s "max"), (String.eqb s "min"); reflexivity.
Qed.

Lemma fold_paramStep_keeps_ord (post : list string) :
  Forall (fun s => s <> "max"%string /\ s <> "min"%string) post ->
  forall l, maxPriority (fold_left paramStep post l) = maxPriority l.
Proof.
  induction 1 as [|s post [H1 H2] _ IH]; intros l; [reflexivity|].
  cbn [fold_left]. rewrite IH. now apply paramStep_keeps_ord.
Qed.

Lemma fold_paramStep_keeps_res (post : list string) :
  Forall (fun s => s <> "even"%string /\ s <> "odd"%string) post ->
  forall l, winRes (fold_left paramStep post l) = winRes l.
Proof.
  induction 1 as [|s post [H1 H2] _ IH]; intros l; [reflexivity|].
  cbn [fold_left]. rewrite IH. now apply paramStep_keeps_res.
Qed.

(** X10: of several acceptance-name parameters of one pair the last one
    counts: the objective is max when the last of the tokens [max], [min]
    in the list is [max] and min when it is [min], and the winning parity
    is even when the last of the tokens [even], [odd] is [even] and odd
    when it is [odd]; what stands before, and tokens of the other pair,
    change nothing. *)
Theorem paramLoop_last_wins :
  forall (pre post : list string),
    (Forall (fun s => s <> "max"%string /\ s <> "min"%string) post ->
     maxPriority (paramLoop (pre ++ "max"%string :: post)) = true
     /\ maxPriority (paramLoop (pre ++ "min"%string :: post)) = false)
    /\ (Forall (fun s => s <> "even"%string /\ s <> "odd"%string) post ->
        winRes (paramLoop (pre ++ "even"%string :: post)) = 0
        /\ winRes (paramLoop (pre ++ "odd"%string :: post)) = 1).
Proof.
  intros pre post. unfold paramLoop. split; intros H; split;
    rewrite fold_left_app; cbn [fold_left];
    rewrite ?(fold_paramStep_keeps_ord post H),
            ?(fold_paramStep_keeps_res post H); reflexivity.
Qed.

Lemma paramLoop_last_wins_witness :
  maxPriority
    (paramLoop (["max"; "even"]%string ++ "min"%string :: ["odd"]%string))
  = false
  /\ winRes
       (paramLoop (["odd"]%string ++ "even"%string :: ["max"]%string))
     = 0.
Proof.
  split.
  - apply (paramLoop_last_wins ["max"; "even"]%string ["odd"]%string).
    constructor; [split; discriminate | constructor].
  - apply (paramLoop_last_wins ["odd"]%string ["max"]%string).
    constructor; [split; discriminate | constructor].
Defined.

(** ** Exits and output of main *)

(** [main] after a successful parse: it stops at the first check that
    fails, or goes on to the assertion of step 1, the header and the loop
    over the states. *)
Lemma main_first_failure_cases (fuel : nat) (data : HoaData) :
  match firstFailure data with
  | Some c => main fuel 0 data = ([], Ret c)
  | None =>
      main fuel 0 data
      = (assert (apAssertion data) ;;;
         printf (Header (headerOf data)) ;;;
         stateLoop fuel data
           (maxPriority (paramLoop (accNameParameters data)))
           (winRes (paramLoop (accNameParameters data)))
           (collectUcntAPs (noAPs data) (cntAPs data))
           (numValuationsOf data) (states data) (noStates data) ;;;
         rret EXIT_SUCCESS)
  end.
Proof.
  rewrite main_gate. unfold firstFailure, validationChecks.
  cbn [find fst snd option_map].
  destruct (String.eqb (accNameID data) "parity"); cbn [negb];
    [|reflexivity].
  destruct (mem "max" (accNameParameters data)
            || mem "min" (accNameParameters data)); cbn [negb];
    [|reflexivity].
  destruct (mem "even" (accNameParameters data)
            || mem "odd" (accNameParameters data)); cbn [negb];
    [|reflexivity].
  destruct (mem "deterministic" (properties data)); cbn [negb];
    [|reflexivity].
  destruct (mem "complete" (properties data)); cbn [negb]; [|reflexivity].
  destruct (mem "colored" (properties data)); cbn [negb]; [|reflexivity].
  destruct (start data) as [|s0 [|s1 rest]]; reflexivity.
Qed.

Lemma firstFailure_nonzero (data : HoaData) (c : Z) :
  firstFailure data = Some c -> c <> EXIT_SUCCESS.
Proof.
  unfold firstFailure, validationChecks. cbn [find fst snd option_map].
  repeat match goal with
         | |- context [negb ?b] => destruct b; cbn [negb option_map snd]
         end; intros [= <-]; discriminate.
Qed.

(** X11: the ways in which [main] returns.  It passes on a nonzero code
    of the parser; or it returns the code of the first check of the gate
    that fails; or it returns [EXIT_SUCCESS], and then all checks and the
    assertion of step 1 passed and the header is the first line.  In the
    first two cases nothing is printed. *)
Theorem main_exit_characterised :
  forall (fuel : nat) (ret : Z) (data : HoaData)
         (out : list OutLine) (c : Z),
    main fuel ret data = (out, Ret c) ->
    (ret <> 0 /\ c = ret /\ out = [])
    \/ (ret = 0 /\ firstFailure data = Some c /\ c <> EXIT_SUCCESS
        /\ out = [])
    \/ (ret = 0 /\ c = EXIT_SUCCESS /\ firstFailure data = None
        /\ apAssertion data = true
        /\ exists rest, out = Header (headerOf data) :: rest).
Proof.
  intros fuel ret data out c E.
  destruct (Z.eqb_spec ret 0) as [-> | Hret].
  - right. pose proof (main_first_failure_cases fuel data) as H.
    destruct (firstFailure data) as [c'|] eqn:Ef.
    + left. rewrite H in E. injection E as <- <-.
      repeat split. now apply (firstFailure_nonzero data).
    + right. rewrite H in E. rewrite assert_bind in E.
      destruct (apAssertion data); [|discriminate].
      rewrite printf_bind in E.
      destruct (stateLoop fuel data _ _ _ _ (states data) (noStates data))
        as [lo [n'| |]]; cbn in E; try discriminate.
      injection E as <- <-. repeat split. eexists. reflexivity.
  - left. unfold main in E.
    destruct (Z.eqb_spec ret 0); [contradiction|]. cbn in E.
    injection E as <- <-. repeat split. assumption.
Qed.

Lemma main_exit_characterised_witness :
  firstFailure rabin_two_starts = Some 100.
Proof.
  destruct (main_exit_characterised 0 0 rabin_two_starts [] 100 eq_refl)
    as [(H & _) | [(_ & H & _) | (_ & H & _)]].
  - now contradiction H.
  - exact H.
  - discriminate H.
Defined.

(** X12: [main] prints something exactly when the parser succeeded, all
    checks of the gate pass and the assertion of step 1 holds; a run that
    stops before that leaves stdout empty. *)
Theorem main_prints_iff_validated :
  forall (fuel : nat) (ret : Z) (data : HoaData),
    fst (main fuel ret data) <> []
    <-> ret = 0 /\ firstFailure data = None /\ apAssertion data = true.
Proof.
  intros fuel ret data. split.
  - intros Hout. destruct (Z.eqb_spec ret 0) as [-> | Hret].
    + pose proof (main_first_failure_cases fuel data) as H.
      destruct (firstFailure data) as [c'|].
      * rewrite H in Hout. now contradiction Hout.
      * rewrite H, assert_bind in Hout.
        destruct (apAssertion data); [now repeat split|].
        now contradiction Hout.
    + exfalso. apply Hout. unfold main.
      destruct (Z.eqb_spec ret 0); [contradiction | reflexivity].
  - intros (-> & Hf & Ha).
    pose proof (main_first_failure_cases fuel data) as H.
    rewrite Hf in H. rewrite H, assert_bind, Ha, printf_bind. discriminate.
Qed.

Lemma main_prints_iff_validated_witness :
  fst (main 0 0 (loop_hoa [] ["max"; "even"]%string)) <> [].
Proof.
  apply (main_prints_iff_validated 0 0 (loop_hoa [] ["max"; "even"]%string)).
  repeat split.
Defined.

(** ** Step 1: the uncontrollable atomic propositions *)

Lemma foundIn_In (i : Z) (cnt : list Z) : foundIn i cnt = true <-> In i cnt.
Proof.
  induction cnt as [|c cnt IH]; cbn.
  - split; [discriminate | contradiction].
  - destruct (Z.eqb_spec i c) as [-> | Hne].
    + split; auto.
    + rewrite IH. split; [now right | intros [H | H]; congruence].
Qed.

Lemma apRange_In (noAPs i : Z) :
  In i (map Z.of_nat (seq 0 (Z.to_nat noAPs))) <-> 0 <= i < noAPs.
Proof.
  rewrite in_map_iff. split.
  - intros (k & <- & Hk). apply in_seq in Hk. lia.
  - intros H. exists (Z.to_nat i). split; [lia|]. apply in_seq. lia.
Qed.

Lemma apRange_sorted (noAPs : Z) :
  StronglySorted Z.lt (map Z.of_nat (seq 0 (Z.to_nat noAPs))).
Proof.
  generalize 0%nat as a. induction (Z.to_nat noAPs) as [|n IH]; intros a;
    cbn; constructor.
  - apply IH.
  - apply Forall_forall. intros x Hx. apply in_map_iff in Hx.
    destruct Hx as (k & <- & Hk). apply in_seq in Hk. lia.
Qed.

Lemma StronglySorted_lt_filter (f : Z -> bool) (l : list Z) :
  StronglySorted Z.lt l -> StronglySorted Z.lt (filter f l).
Proof.
  induction 1 as [|x l Hs IH Hx]; cbn; [constructor|].
  destruct (f x); [|assumption]. constructor; [assumption|].
  apply Forall_forall. intros y Hy. apply filter_In in Hy.
  rewrite Forall_forall in Hx. now apply Hx.
Qed.

(** X13: step 1 splits the atomic propositions in two: the array
    [ucntAPs] holds, in increasing order and each once, exactly the
    indices below [noAPs] that the list of controllable ones does not
    hold. *)
Theorem collectUcntAPs_partition :
  forall (noAPs0 : Z) (cnt : list Z),
    StronglySorted Z.lt (collectUcntAPs noAPs0 cnt)
    /\ forall i, In i (collectUcntAPs noAPs0 cnt)
                 <-> 0 <= i < noAPs0 /\ ~ In i cnt.
Proof.
  intros n cnt. unfold collectUcntAPs. split.
  - apply StronglySorted_lt_filter, apRange_sorted.
  - intros i. rewrite filter_In, apRange_In, negb_true_iff.
    rewrite <- (foundIn_In i cnt).
    destruct (foundIn i cnt); split; intros [H1 H2]; split;
      try assumption; try discriminate; try reflexivity.
    now contradiction H2.
Qed.

Lemma collectUcntAPs_partition_witness :
  In 1 (collectUcntAPs 3 [0; 2]).
Proof.
  apply (collectUcntAPs_partition 3 [0; 2]). split; [lia|].
  intros [H | [H | []]]; discriminate H.
Defined.

Lemma countUcntAPs_eq (cnt : list Z) :
  forall n, n <= INT_MAX -> INT_MIN <= n - Z.of_nat (List.length cnt) ->
    countUcntAPs n cnt = n - Z.of_nat (List.length cnt).
Proof.
  unfold countUcntAPs.
  induction cnt as [|c cnt IH]; intros n Hhi Hlo;
    cbn [fold_left List.length] in *.
  - lia.
  - rewrite int_sub_small by (unfold in_int; lia).
    rewrite IH by lia. lia.
Qed.

(** X14: the assertion that ends step 1 holds exactly when the list of
    controllable atomic propositions names each of them once and names
    only indices below [noAPs]; a repeated or foreign index makes the run
    abort before the header.  (For [noAPs] that is not negative and a list
    of at most 2^31 cells.) *)
Theorem apAssertion_iff :
  forall (data : HoaData),
    0 <= noAPs data <= INT_MAX ->
    Z.of_nat (List.length (cntAPs data)) <= 2 ^ 31 ->
    apAssertion data = true
    <-> NoDup (cntAPs data)
        /\ Forall (fun c => 0 <= c < noAPs data) (cntAPs data).
Proof.
  intros data Hn Hlen. unfold apAssertion.
  set (cnt := cntAPs data). set (n := noAPs data). fold cnt in Hlen.
  fold n in Hn.
  rewrite countUcntAPs_eq by (unfold INT_MIN, INT_MAX in *; lia).
  rewrite Z.eqb_eq. unfold collectUcntAPs.
  set (U := map Z.of_nat (seq 0 (Z.to_nat n))).
  set (I := filter (fun i => foundIn i cnt) U).
  assert (HU : List.length U = Z.to_nat n)
    by (unfold U; now rewrite length_map, length_seq).
  assert (Hsplit : (List.length I
                    + List.length
                        (filter (fun i => negb (foundIn i cnt)) U))%nat
                   = Z.to_nat n)
    by (rewrite <- HU; apply filter_length).
  assert (HndI : NoDup I).
  { apply NoDup_filter, StronglySorted_lt_NoDup, apRange_sorted. }
  assert (HinclI : incl I cnt).
  { intros i Hi. apply filter_In in Hi. now apply foundIn_In. }
  split.
  - intros Heq.
    assert (HlenI : List.length I = List.length cnt) by lia.
    assert (Hincl : incl cnt I)
      by (apply NoDup_length_incl; [assumption | lia | assumption]).
    split.
    + apply NoDup_incl_NoDup with (l := I); [assumption | lia | assumption].
    + apply Forall_forall. intros c Hc. apply Hincl in Hc.
      apply filter_In in Hc. destruct Hc as [Hc _].
      now apply apRange_In in Hc.
  - intros [Hnd Hall].
    assert (Hincl : incl cnt I).
    { intros c Hc. apply filter_In. split.
      - apply apRange_In. rewrite Forall_forall in Hall. now apply Hall.
      - now apply foundIn_In. }
    pose proof (NoDup_incl_length Hnd Hincl).
    pose proof (NoDup_incl_length HndI HinclI).
    lia.
Qed.

Lemma apAssertion_iff_witness :
  apAssertion (one_ap_hoa []) = true.
Proof.
  apply (apAssertion_iff (one_ap_hoa [])).
  - cbn. unfold INT_MAX. lia.
  - cbn. lia.
  - split; constructor.
Defined.

(** ** The transition loop *)

Section TransitionLoop.

Variable fuel : nat.
Variable data : HoaData.
Variable maxPrio : bool.
Variable winR : Z.
Variable ucntAPs : list Z.
Variable numValuations : Z.

(** One turn of the loop that is followed by a normal end. *)
Lemma transLoop_turn (s : StateList) (value : Z) (t : TransList)
    (next : list TransList) (n : Z) (vv : list Z) (out : list OutLine)
    (x : Z * list Z) :
  transLoop fuel data maxPrio winR ucntAPs s value (t :: next) n vv
  = (out, Ret x) ->
  transition_checked s t
  /\ exists evald,
       evalLabel fuel (effective_label s t) (aliases data) ucntAPs value
       = Ret evald
       /\ ((compatible fuel data ucntAPs value s t = true
            /\ exists L out',
                 compat_line_of data maxPrio winR s t L
                 /\ out = L :: out'
                 /\ transLoop fuel data maxPrio winR ucntAPs s value next
                      (int_add n 1) (prependIntNode vv n) = (out', Ret x))
           \/ (compatible fuel data ucntAPs value s t = false
               /\ transLoop fuel data maxPrio winR ucntAPs s value next
                    n vv = (out, Ret x))).
Proof.
  cbn [transLoop]. rewrite !assert_bind.
  unfold transition_checked, compatible, compat_line_of, effective_label,
    effective_acc.
  destruct (successors t) as [|succ [|]]; try discriminate.
  destruct (match s_label s with
            | BNull => label t
            | BNode _ _ _ _ _ => s_label s
            end) as [|l r nm id ty] eqn:Elbl; try discriminate.
  destruct (match s_accSig s with
            | [] => accSig t
            | _ :: _ => s_accSig s
            end) as [|p [|]] eqn:Eacc; try discriminate.
  rewrite lift_bind.
  destruct (evalLabel fuel _ (aliases data) ucntAPs value)
    as [evald| |]; try discriminate.
  intros E. split.
  - split; [now exists succ|]. split; [discriminate | now exists p].
  - exists evald. split; [reflexivity|].
    destruct (negb (evald =? -1)).
    + left. split; [reflexivity|]. rewrite printf_bind in E.
      destruct (transLoop fuel data maxPrio winR ucntAPs s value next
                  (int_add n 1) (prependIntNode vv n)) as [out' r'].
      cbn [fst snd] in E. injection E as <- ->.
      eexists _, out'. split; [now exists n|]. split; reflexivity.
    + right. split; [reflexivity | exact E].
Qed.

(** X15: when the transition loop ends normally, the lines it printed
    are, in the order of the transitions, one line for each transition
    whose label does not evaluate to false under the valuation, and none
    for the others; the line of a transition carries the adjusted priority
    of its acceptance set, owner 0 and the successor state of the
    transition. *)
Theorem transLoop_lines_of_compatible :
  forall (s : StateList) (value : Z) (trans : list TransList) (n : Z)
         (vv : list Z) (out : list OutLine) (x : Z * list Z),
    transLoop fuel data maxPrio winR ucntAPs s value trans n vv
    = (out, Ret x) ->
    Forall2 (compat_line_of data maxPrio winR s)
      (filter (compatible fuel data ucntAPs value s) trans) out.
Proof.
  intros s value. induction trans as [|t next IH]; intros n vv out x E.
  - cbn in E. injection E as <- _. constructor.
  - destruct (transLoop_turn _ _ _ _ _ _ _ _ E)
      as (_ & evald & _ & [(Hc & L & out' & HL & -> & E') | (Hc & E')]);
      cbn [filter]; rewrite Hc.
    + constructor; [assumption | eapply IH; eassumption].
    + eapply IH; eassumption.
Qed.

(** When the loop ends normally, every transition passed the assertions
    and its label was evaluated. *)
Lemma transLoop_success_checked (s : StateList) (value : Z) :
  forall (trans : list TransList) (n : Z) (vv : list Z)
         (out : list OutLine) (x : Z * list Z),
    transLoop fuel data maxPrio winR ucntAPs s value trans n vv
    = (out, Ret x) ->
    forall t, In t trans ->
      transition_checked s t
      /\ exists evald,
           evalLabel fuel (effective_label s t) (aliases data) ucntAPs value
           = Ret evald.
Proof.
  induction trans as [|t next IH]; intros n vv out x E t' Hin;
    [contradiction|].
  destruct (transLoop_turn _ _ _ _ _ _ _ _ E)
    as (Hchk & evald & He & [(_ & L & out' & _ & _ & E') | (_ & E')]);
    (destruct Hin as [<- | Hin];
     [split; [assumption | now exists evald] | eapply IH; eassumption]).
Qed.

(** When the loop ends normally and printed a line, some transition is
    compatible with the valuation. *)
Lemma transLoop_some_compatible (s : StateList) (value : Z) :
  forall (trans : list TransList) (n : Z) (vv : list Z)
         (out : list OutLine) (x : Z * list Z),
    transLoop fuel data maxPrio winR ucntAPs s value trans n vv
    = (out, Ret x) ->
    out <> [] ->
    exists t, In t trans /\ compatible fuel data ucntAPs value s t = true.
Proof.
  induction trans as [|t next IH]; intros n vv out x E Hout.
  - cbn in E. injection E as <- _. contradiction.
  - destruct (transLoop_turn _ _ _ _ _ _ _ _ E)
      as (_ & evald & _ & [(Hc & _) | (_ & E')]).
    + exists t. split; [now left | exact Hc].
    + destruct (IH _ _ _ _ E' Hout) as (t' & Hin & Hc).
      exists t'. split; [now right | exact Hc].
Qed.

(** X17: a label and an acceptance signature on the state override the
    ones on its transitions: for such a state the loop does the same
    whatever labels and signatures the transitions carry. *)
Theorem transLoop_state_overrides :
  forall (s : StateList) (value : Z) (trans trans' : list TransList)
         (n : Z) (vv : list Z),
    s_label s <> BNull -> s_accSig s <> [] ->
    map successors trans = map successors trans' ->
    transLoop fuel data maxPrio winR ucntAPs s value trans n vv
    = transLoop fuel data maxPrio winR ucntAPs s value trans' n vv.
Proof.
  intros s value trans trans' n vv Hl Ha. revert trans' n vv.
  induction trans as [|t next IH]; intros [|t' next'] n vv Hs;
    try discriminate; [reflexivity|].
  cbn [map] in Hs. injection Hs as Hsucc Hnext.
  cbn [transLoop]. rewrite Hsucc, !assert_bind.
  destruct (s_label s) as [|l r nm id ty]; [contradiction|].
  destruct (s_accSig s) as [|p ps]; [contradiction|].
  destruct (successors t') as [|succ [|]]; try reflexivity.
  destruct ps; try reflexivity.
  rewrite !lift_bind.
  destruct (evalLabel fuel _ (aliases data) ucntAPs value)
    as [evald| |]; try reflexivity.
  destruct (negb (evald =? -1)).
  - rewrite !printf_bind. now rewrite (IH next' _ _ Hnext).
  - now apply IH.
Qed.

End TransitionLoop.

Lemma transLoop_lines_of_compatible_witness :
  Forall2
    (compat_line_of (loop_hoa [] ["max"; "even"]%string) true 0
       two_way_state)
    (filter (compatible 1 (loop_hoa [] ["max"; "even"]%string) [] 0
               two_way_state)
       (transitions two_way_state))
    [Vertex CompatV 5 2 0 [0] (LInt 5)].
Proof.
  apply (transLoop_lines_of_compatible 1
           (loop_hoa [] ["max"; "even"]%string) true 0 []
           two_way_state 0 (transitions two_way_state) 5 []
           [Vertex CompatV 5 2 0 [0] (LInt 5)] (6, [5])).
  reflexivity.
Defined.

Lemma transLoop_state_overrides_witness :
  transLoop 1 (loop_hoa [] ["max"; "even"]%string) true 0 []
    (mkState 0 None (bool_node true) [0] []) 0
    [mkTrans (bool_node false) [0] [1]] 5 []
  = transLoop 1 (loop_hoa [] ["max"; "even"]%string) true 0 []
      (mkState 0 None (bool_node true) [0] []) 0
      [mkTrans BNull [0] []] 5 [].
Proof.
  apply (transLoop_state_overrides 1
           (loop_hoa [] ["max"; "even"]%string) true 0 []).
  - discriminate.
  - discriminate.
  - reflexivity.
Defined.

(** ** What a completed run shows of the automaton *)

Section Served.

Variable fuel : nat.
Variable data : HoaData.
Variable maxPrio : bool.
Variable winR : Z.
Variable ucntAPs : list Z.
Variable numValuations : Z.

Lemma valuationBody_served (s : StateList) (f value n n' : Z)
    (out : list OutLine) :
  valuationBody fuel data maxPrio winR ucntAPs s f value n = (out, Ret n') ->
  valuation_served fuel data ucntAPs s value.
Proof.
  unfold valuationBody. intros E. apply rbind_inv in E.
  destruct E as [(o1 & [n1 vv1] & o2 & E1 & E2 & ->) | [(_ & E) | (_ & E)]];
    try discriminate.
  split.
  - eapply transLoop_success_checked; eassumption.
  - rewrite assert_bind in E2.
    destruct vv1 as [|v0 vs]; [discriminate|].
    pose proof (transLoop_shape _ _ _ _ _ _ _ _ _ _ _ _ E1)
      as (_ & _ & Hvv).
    specialize (Hvv n1 (v0 :: vs) eq_refl). rewrite app_nil_r in Hvv.
    destruct o1 as [|L o1]; [discriminate Hvv|].
    apply (transLoop_some_compatible _ _ _ _ _ _ _ _ _ _ _ _ E1).
    discriminate.
Qed.

Lemma valuationLoop_served (s : StateList) (f : Z) :
  forall (values : list Z) (n n' : Z) (out : list OutLine),
    valuationLoop fuel data maxPrio winR ucntAPs s f values n
    = (out, Ret n') ->
    forall value, In value values ->
      valuation_served fuel data ucntAPs s value.
Proof.
  induction values as [|v rest IH]; intros n n' out E value Hin;
    [contradiction|].
  cbn [valuationLoop] in E. apply rbind_inv in E.
  destruct E as [(o1 & n1 & o2 & E1 & E2 & ->) | [(_ & E) | (_ & E)]];
    try discriminate.
  destruct Hin as [<- | Hin].
  - eapply valuationBody_served; eassumption.
  - eapply IH; eassumption.
Qed.

Lemma stateLoop_served :
  forall (sts : list StateList) (n n' : Z) (out : list OutLine),
    stateLoop fuel data maxPrio winR ucntAPs numValuations sts n
    = (out, Ret n') ->
    forall s value, In s sts -> In value (valuations numValuations) ->
      valuation_served fuel data ucntAPs s value.
Proof.
  induction sts as [|s0 rest IH]; intros n n' out E s value Hs Hv;
    [contradiction|].
  cbn [stateLoop] in E. apply rbind_inv in E.
  destruct E as [(o1 & n1 & o2 & E1 & E2 & ->) | [(_ & E) | (_ & E)]];
    try discriminate.
  destruct Hs as [<- | Hs].
  - destruct (stateBody_shape _ _ _ _ _ _ _ _ _ _ E1) as (vs & Evs & _).
    eapply valuationLoop_served; eassumption.
  - eapply IH; eassumption.
Qed.

End Served.

(** X16: a run that ends with [EXIT_SUCCESS] has checked the whole
    automaton: for every state and every valuation of the uncontrollable
    atomic propositions, every transition has exactly one successor, a
    label (its own or the state's) and exactly one acceptance set, its
    label was evaluated without a failed assertion, and at least one
    transition is compatible with the valuation.  On an automaton that
    lacks one of these [main] never reports success. *)
Theorem main_success_certifies :
  forall (fuel : nat) (data : HoaData) (out : list OutLine),
    main fuel 0 data = (out, Ret EXIT_SUCCESS) ->
    forall s value,
      In s (states data) ->
      In value (valuations (numValuationsOf data)) ->
      valuation_served fuel data
        (collectUcntAPs (noAPs data) (cntAPs data)) s value.
Proof.
  intros fuel data out E s value Hs Hv.
  destruct (main_output_cases _ _ _ _ E)
    as [(_ & H) | (lo & r' & El & _ & Hr)]; [contradiction|].
  destruct r' as [n'| |]; try discriminate.
  eapply stateLoop_served; eassumption.
Qed.

Lemma main_success_certifies_witness :
  valuation_served 1 (one_ap_hoa [bool_node true])
    (collectUcntAPs 1 []) 
    (mkState 0 (Some "q0"%string) BNull []
       [mkTrans (bool_node true) [0] [0]]) 1.
Proof.
  apply (main_success_certifies 1 (one_ap_hoa [bool_node true])
           (fst (main 1 0 (one_ap_hoa [bool_node true])))).
  - reflexivity.
  - left. reflexivity.
  - right. left. reflexivity.
Defined.

(** ** The vertices of a completed run *)

Lemma state_blocks_facts (numValuations : Z) :
  0 <= numValuations ->
  forall n sts out k,
    state_blocks numValuations n sts out k ->
    n <= k
    /\ Permutation
         (ids_of_kind ValuationV out ++ ids_of_kind CompatV out)
         (intRange n k)
    /\ Z.of_nat (List.length (ids_of_kind ValuationV out))
       = numValuations * Z.of_nat (List.length sts)
    /\ ids_of_kind DecisionV out = map s_id sts.
Proof.
  intros HNV. induction 1 as [n | n m k s sts blk rest HV HC Hm HD _ IH].
  - cbn. rewrite intRange_nil by lia. repeat split; try lia. constructor.
  - destruct IH as (Hk & Hperm & Hlen & HDr).
    rewrite !ids_of_kind_app, HV, HC, HD, HDr.
    split; [lia|]. split; [|split].
    + rewrite (intRange_app n m k) by lia.
      rewrite (intRange_app n (n + numValuations) m) by lia.
      rewrite <- !app_assoc. apply Permutation_app_head.
      rewrite Permutation_app_swap_app. apply Permutation_app_head.
      exact Hperm.
    + rewrite length_app, Nat2Z.inj_add, Hlen, intRange_length.
      cbn [List.length]. lia.
    + reflexivity.
Qed.

(** X18: the size of the game of a completed run.  Every state has one
    decision vertex and [numValuations] valuation vertices, and the
    compatible-transition vertices are at least as many as the valuation
    vertices and at most [numValuations] per transition.  (As long as the
    identifiers fit [int].) *)
Theorem main_vertex_counts :
  forall (fuel : nat) (data : HoaData) (out : list OutLine),
    main fuel 0 data = (out, Ret EXIT_SUCCESS) ->
    0 <= noStates data -> 0 <= numValuationsOf data ->
    noStates data + idBudget (numValuationsOf data) (states data)
      <= INT_MAX ->
    let nv := numValuationsOf data in
    let sts := Z.of_nat (List.length (states data)) in
    List.length (ids_of_kind DecisionV out) = List.length (states data)
    /\ Z.of_nat (List.length (ids_of_kind ValuationV out)) = nv * sts
    /\ nv * sts <= Z.of_nat (List.length (ids_of_kind CompatV out))
       <= idBudget nv (states data) - nv * sts.
Proof.
  intros fuel data out E Hn HNV Hb nv sts.
  destruct (main_output_cases _ _ _ _ E)
    as [(_ & H) | (lo & r' & El & -> & Hr)]; [contradiction|].
  destruct r' as [n'| |]; try discriminate.
  cbn [ids_of_kind].
  pose proof (stateLoop_blocks _ _ _ _ _ _ _ _ _ _ El HNV
                ltac:(unfold INT_MIN; lia) Hb) as Hblocks.
  destruct (state_blocks_facts _ HNV _ _ _ _ Hblocks)
    as (Hk & Hperm & Hlen & HD).
  destruct (stateLoop_allocates _ _ _ _ _ _ _ _ _ _ El HNV
              ltac:(unfold INT_MIN; lia) Hb) as (Hlow & _).
  destruct (stateLoop_ids _ _ _ _ _ _ _ _ _ _ El HNV
              ltac:(unfold INT_MIN; lia) Hb) as (m & Hm & _ & _ & Hr').
  destruct (Hr' n' eq_refl) as (-> & _).
  apply Permutation_length in Hperm.
  rewrite length_app, intRange_length in Hperm.
  fold nv in Hlen, Hlow, Hm. fold sts in Hlen.
  split; [now rewrite HD, length_map|].
  split; [exact Hlen|]. unfold sts in *. lia.
Qed.

Lemma main_vertex_counts_witness :
  Z.of_nat (List.length
              (ids_of_kind ValuationV
                 (fst (main 1 0 (one_ap_hoa [bool_node true])))))
  = numValuationsOf (one_ap_hoa [bool_node true]) * 1.
Proof.
  apply (main_vertex_counts 1 (one_ap_hoa [bool_node true])
           (fst (main 1 0 (one_ap_hoa [bool_node true])))).
  - reflexivity.
  - cbn. lia.
  - vm_compute. discriminate.
  - vm_compute. discriminate.
Defined.

(** X19: the vertices of a completed run are numbered without gaps: the
    valuation and compatible-transition vertices have exactly the
    identifiers from [noStates] up to the last one allocated, and when the
    states are numbered 0 to [noStates - 1] the vertices of the game are
    numbered 0 to the last identifier, each number used once.  (As long as
    the identifiers fit [int].) *)
Theorem main_ids_dense :
  forall (fuel : nat) (data : HoaData) (out : list OutLine),
    main fuel 0 data = (out, Ret EXIT_SUCCESS) ->
    0 <= noStates data -> 0 <= numValuationsOf data ->
    noStates data + idBudget (numValuationsOf data) (states data)
      <= INT_MAX ->
    exists k,
      noStates data <= k
      /\ Permutation
           (ids_of_kind ValuationV out ++ ids_of_kind CompatV out)
           (intRange (noStates data) k)
      /\ (Permutation (map s_id (states data))
            (intRange 0 (noStates data)) ->
          Permutation (vertex_ids out) (intRange 0 k)).
Proof.
  intros fuel data out E Hn HNV Hb.
  destruct (main_output_cases _ _ _ _ E)
    as [(_ & H) | (lo & r' & El & -> & Hr)]; [contradiction|].
  destruct r' as [n'| |]; try discriminate.
  cbn [ids_of_kind vertex_ids].
  pose proof (stateLoop_blocks _ _ _ _ _ _ _ _ _ _ El HNV
                ltac:(unfold INT_MIN; lia) Hb) as Hblocks.
  destruct (state_blocks_facts _ HNV _ _ _ _ Hblocks)
    as (Hk & Hperm & _ & HD).
  exists n'. split; [assumption|]. split; [assumption|].
  intros Hstates.
  rewrite (vertex_ids_perm lo), HD, Hstates.
  rewrite (intRange_app 0 (noStates data) n') by lia.
  rewrite app_assoc, Permutation_app_comm.
  apply Permutation_app_head.
  rewrite Permutation_app_comm. exact Hperm.
Qed.

Lemma main_ids_dense_witness :
  exists k,
    Permutation
      (vertex_ids (fst (main 1 0 (one_ap_hoa [bool_node true]))))
      (intRange 0 k).
Proof.
  destruct (main_ids_dense 1 (one_ap_hoa [bool_node true])
              (fst (main 1 0 (one_ap_hoa [bool_node true]))))
    as (k & _ & _ & H).
  - reflexivity.
  - cbn. lia.
  - vm_compute. discriminate.
  - vm_compute. discriminate.
  - exists k. apply H. cbn. apply Permutation_refl.
Defined.

(** ** The edges of the game *)

Section Edges.

Variable fuel : nat.
Variable data : HoaData.
Variable maxPrio : bool.
Variable winR : Z.
Variable ucntAPs : list Z.
Variable numValuations : Z.

Lemma not_decision_In (out : list OutLine) id p o succs lbl :
  Forall not_decision out ->
  ~ In (Vertex DecisionV id p o succs lbl) out.
Proof.
  intros H Hin. rewrite Forall_forall in H. exact (H _ Hin).
Qed.

Lemma stateBody_decision_edges (s : StateList) (n : Z)
    (out : list OutLine) (r : result Z) :
  stateBody fuel data maxPrio winR ucntAPs numValuations s n = (out, r) ->
  1 <= numValuations -> INT_MIN <= n ->
  n + numValuations * (1 + Z.of_nat (List.length (transitions s)))
    <= INT_MAX ->
  forall id p o succs lbl,
    In (Vertex DecisionV id p o succs lbl) out ->
    forall x, In x succs -> In x (ids_of_kind ValuationV out).
Proof.
  intros E HNV Hlo Hhi id p o succs lbl Hin x Hx.
  destruct (stateBody_shape _ _ _ _ _ _ _ _ _ _ E) as (vs & Evs & Hout).
  pose proof (valuationLoop_not_decision _ _ _ _ _ _ _ _ _ _ _ Evs) as Hnd.
  destruct Hout as [(n' & -> & ->) | (_ & ->)];
    [|exfalso; now apply (not_decision_In vs id p o succs lbl Hnd)].
  destruct (stateBody_success_ids _ _ _ _ _ _ _ _ _ _ E ltac:(lia) Hlo Hhi)
    as (HV & _).
  rewrite HV. apply intRange_In.
  apply in_app_or in Hin. destruct Hin as [Hin | [Heq | []]];
    [exfalso; now apply (not_decision_In vs id p o succs lbl Hnd)|].
  injection Heq as _ _ _ Hs _. subst succs.
  rewrite int_add_small in Hx
    by (unfold in_int; pose proof (Nat2Z.is_nonneg
          (List.length (transitions s))); nia).
  destruct Hx as [<- | Hx]; [lia | now apply intRange_In in Hx].
Qed.

Lemma stateLoop_decision_edges :
  forall (sts : list StateList) (n : Z) (out : list OutLine)
         (r : result Z),
    stateLoop fuel data maxPrio winR ucntAPs numValuations sts n
    = (out, r) ->
    1 <= numValuations -> INT_MIN <= n ->
    n + idBudget numValuations sts <= INT_MAX ->
    forall id p o succs lbl,
      In (Vertex DecisionV id p o succs lbl) out ->
      forall x, In x succs -> In x (ids_of_kind ValuationV out).
Proof.
  induction sts as [|s sts IH]; intros n out r E HNV Hlo Hhi
                                       id p o succs lbl Hin x Hx.
  - cbn in E. injection E as <- <-. contradiction.
  - cbn [stateLoop idBudget] in *.
    pose proof (idBudget_nonneg numValuations sts ltac:(lia)) as Hb.
    apply rbind_inv in E.
    destruct E as [(o1 & n1 & o2 & E1 & E2 & ->) | [(E1 & ->) | (E1 & ->)]].
    + rewrite ids_of_kind_app. apply in_or_app.
      apply in_app_or in Hin. destruct Hin as [Hin | Hin].
      * left. eapply stateBody_decision_edges; try eassumption. lia.
      * right.
        destruct (stateBody_ids _ _ _ _ _ _ _ _ _ _ E1 ltac:(lia) Hlo
                    ltac:(lia)) as (m1 & Hm1 & _ & _ & Hr1).
        destruct (Hr1 n1 eq_refl) as (-> & _).
        eapply (IH m1); try eassumption; lia.
    + eapply stateBody_decision_edges; try eassumption. lia.
    + eapply stateBody_decision_edges; try eassumption. lia.
Qed.

End Edges.

(** X20: the printed game has no edge into nothing on its first two
    layers.  Every successor on the line of a valuation vertex is the
    identifier of a compatible-transition vertex of the output; and, with
    at least one valuation and identifiers that fit [int], every successor
    on the line of a decision vertex is the identifier of a valuation
    vertex of the output.  This holds for the lines printed up to any
    point of a run. *)
Theorem main_edges_ok :
  forall (fuel : nat) (data : HoaData) (out : list OutLine) (r : result Z),
    main fuel 0 data = (out, r) ->
    (forall id p o succs lbl,
       In (Vertex ValuationV id p o succs lbl) out ->
       edges_ok out (Vertex ValuationV id p o succs lbl))
    /\ (0 <= noStates data -> 1 <= numValuationsOf data ->
        noStates data + idBudget (numValuationsOf data) (states data)
          <= INT_MAX ->
        Forall (edges_ok out) out).
Proof.
  intros fuel data out r E.
  assert (Hval : forall id p o succs lbl,
            In (Vertex ValuationV id p o succs lbl) out ->
            edges_ok out (Vertex ValuationV id p o succs lbl)).
  { intros id p o succs lbl Hin x Hx. apply in_split in Hin.
    destruct Hin as (pre & post & Hout).
    destruct (main_valuation_lines _ _ _ _ E _ _ _ _ _ _ _ Hout)
      as (_ & _ & _ & pre' & cs & -> & _ & Hcs & _ & ->).
    rewrite Hout, <- app_assoc, !ids_of_kind_app.
    apply in_or_app. right. apply in_or_app. left.
    rewrite (ids_of_kind_compat_lines CompatV cs Hcs). cbn.
    now apply in_rev. }
  split; [exact Hval|].
  intros Hn HNV Hb. apply Forall_forall.
  intros [h | [] id p o succs lbl] Hin; cbn; try exact I.
  - exact (Hval id p o succs lbl Hin).
  - destruct (main_output_cases _ _ _ _ E)
      as [(-> & _) | (lo & r' & El & -> & _)]; [contradiction|].
    destruct Hin as [Hin | Hin]; [discriminate|].
    cbn [ids_of_kind].
    eapply stateLoop_decision_edges; try eassumption.
    unfold INT_MIN. lia.
Qed.

Lemma main_edges_ok_witness :
  Forall (edges_ok (fst (main 1 0 (one_ap_hoa [bool_node true]))))
    (fst (main 1 0 (one_ap_hoa [bool_node true]))).
Proof.
  apply (main_edges_ok 1 (one_ap_hoa [bool_node true]) _ _ eq_refl).
  - cbn. lia.
  - vm_compute. discriminate.
  - vm_compute. discriminate.
Defined.

(** ** Ending *)

(** X21: on an automaton all of whose labels are well-formed labels (with
    aliases that resolve), [main] ends: there is a recursion budget from
    which on every run returns or stops at a failed assertion, and all
    these runs print the same lines and end the same way. *)
Theorem main_ends_on_labels :
  forall (data : HoaData),
    labels_wf data ->
    exists n, forall fuel ret, (n <= fuel)%nat ->
      snd (main fuel ret data) <> OutOfFuel
      /\ main fuel ret data = main n ret data.
Proof.
  intros data Hwf. destruct (main_terminates data Hwf) as [n Hn].
  exists n. intros fuel ret Hf. split; [now apply Hn|].
  apply main_fuel_mono; [assumption|]. apply Hn. lia.
Qed.

Lemma main_ends_on_labels_witness :
  exists n, forall fuel ret, (n <= fuel)%nat ->
    snd (main fuel ret (one_ap_hoa [ap_node 0; not_node (ap_node 0)]))
    <> OutOfFuel
    /\ main fuel ret (one_ap_hoa [ap_node 0; not_node (ap_node 0)])
       = main n ret (one_ap_hoa [ap_node 0; not_node (ap_node 0)]).
Proof.
  apply (main_ends_on_labels
           (one_ap_hoa [ap_node 0; not_node (ap_node 0)])).
  intros s t [<- | []] [<- | [<- | []]]; cbn.
  - apply wf_ap.
  - apply wf_not, wf_ap.
Defined.

(** ** Aliases that are shadowed *)

Lemma aliasLoop_shadow (pre post : list AliasList) (c : AliasList)
    (nm : string) :
  aliasLoop
    (pre ++ c :: filter (fun c' => negb (String.eqb (alias c') (alias c)))
                   post) nm
  = aliasLoop (pre ++ c :: post) nm.
Proof.
  induction pre as [|c0 pre IH]; cbn [app aliasLoop].
  - destruct (String.eqb_spec (alias c) nm) as [Hc | Hc]; [reflexivity|].
    induction post as [|c1 post IHp]; [reflexivity|].
    cbn [filter aliasLoop].
    destruct (String.eqb_spec (alias c1) (alias c)) as [H1 | H1]; cbn [negb].
    + destruct (String.eqb_spec (alias c1) nm); [congruence | exact IHp].
    + cbn [aliasLoop]. destruct (String.eqb (alias c1) nm);
        [reflexivity | exact IHp].
  - destruct (String.eqb (alias c0) nm); [reflexivity | exact IH].
Qed.

(** X22: of several entries of the alias table with one name only the
    first counts: taking the later entries of that name out of the table
    changes no result of [evalLabel]. *)
Theorem evalLabel_first_alias_only :
  forall (pre post : list AliasList) (c : AliasList) (apIds : list Z)
         (value : Z) (fuel : nat) (e : BTree),
    evalLabel fuel e
      (pre ++ c :: filter (fun c' => negb (String.eqb (alias c') (alias c)))
                     post) apIds value
    = evalLabel fuel e (pre ++ c :: post) apIds value.
Proof.
  intros pre post c apIds value.
  induction fuel as [|fuel IH]; intros e; [reflexivity|].
  cbn [evalLabel]. destruct e as [|l r nm id ty]; [reflexivity|].
  destruct ty; try reflexivity.
  - now rewrite (IH l), (IH r).
  - now rewrite (IH l), (IH r).
  - now rewrite (IH l).
  - rewrite aliasLoop_shadow.
    destruct (aliasLoop (pre ++ c :: post) nm); [apply IH | reflexivity].
Qed.

(** ** Where the lines of the compatible transitions come from *)

Section Origin.

Variable fuel : nat.
Variable data : HoaData.
Variable maxPrio : bool.
Variable winR : Z.
Variable ucntAPs : list Z.
Variable numValuations : Z.

Lemma compat_line_from_incl (s : StateList) (value : Z)
    (trans trans' : list TransList) (L : OutLine) :
  incl trans trans' ->
  compat_line_from fuel data maxPrio winR ucntAPs s value trans L ->
  compat_line_from fuel data maxPrio winR ucntAPs s value trans' L.
Proof.
  intros Hincl (t & Hin & H). exists t. split; [now apply Hincl | exact H].
Qed.

Lemma compat_lines_from_incl (values values' : list Z)
    (sts sts' : list StateList) (L : OutLine) :
  incl values values' -> incl sts sts' ->
  compat_lines_from fuel data maxPrio winR ucntAPs values sts L ->
  compat_lines_from fuel data maxPrio winR ucntAPs values' sts' L.
Proof.
  intros Hv Hs. destruct L as [h | [] id p o succs lbl]; cbn; try tauto.
  intros (s & value & H1 & H2 & H3). exists s, value.
  split; [now apply Hs|]. split; [now apply Hv | exact H3].
Qed.

(** The lines of one run of the transition loop, ended or not. *)
Lemma transLoop_origin (s : StateList) (value : Z) :
  forall (trans : list TransList) (n : Z) (vv : list Z)
         (out : list OutLine) (r : result (Z * list Z)),
    transLoop fuel data maxPrio winR ucntAPs s value trans n vv = (out, r) ->
    Forall (compat_line_from fuel data maxPrio winR ucntAPs s value trans)
      out.
Proof.
  induction trans as [|t next IH]; intros n vv out r.
  - cbn. intros [= <- <-]. constructor.
  - assert (Hnext : forall out' r' n' vv',
              transLoop fuel data maxPrio winR ucntAPs s value next n' vv'
              = (out', r') ->
              Forall (compat_line_from fuel data maxPrio winR ucntAPs s
                        value (t :: next)) out').
    { intros out' r' n' vv' E'.
      eapply Forall_impl; [|exact (IH _ _ _ _ E')].
      intros L. apply compat_line_from_incl. intros x Hx. now right. }
    cbn [transLoop]. rewrite !assert_bind.
    destruct (successors t) as [|succ [|]] eqn:Es;
      try (intros [= <- <-]; constructor).
    destruct (match s_label s with
              | BNull => label t
              | BNode _ _ _ _ _ => s_label s
              end) as [|l0 r0 nm id ty] eqn:Elbl;
      try (intros [= <- <-]; constructor).
    destruct (match s_accSig s with
              | [] => accSig t
              | _ :: _ => s_accSig s
              end) as [|p [|]] eqn:Eacc;
      try (intros [= <- <-]; constructor).
    rewrite lift_bind.
    destruct (evalLabel fuel (BNode l0 r0 nm id ty) (aliases data)
                ucntAPs value) as [evald| |] eqn:Ev;
      try (intros [= <- <-]; constructor).
    destruct (negb (evald =? -1)) eqn:Hneg; [|apply Hnext].
    rewrite printf_bind.
    destruct (transLoop fuel data maxPrio winR ucntAPs s value next
                (int_add n 1) (prependIntNode vv n)) as [out' r'] eqn:E'.
    cbn [fst snd]. intros [= <- <-].
    constructor; [|eapply Hnext; eassumption].
    exists t. split; [now left|].
    unfold transition_checked, compatible, compat_line_of,
      effective_label, effective_acc.
    rewrite Es, Elbl, Eacc, Ev.
    split; [|split; [exact Hneg | now exists n]].
    split; [now exists succ|]. split; [discriminate | now exists p].
Qed.

Lemma valuationBody_origin (s : StateList) (f value n : Z)
    (out : list OutLine) (r : result Z) :
  valuationBody fuel data maxPrio winR ucntAPs s f value n = (out, r) ->
  Forall (compat_lines_from fuel data maxPrio winR ucntAPs [value] [s]) out.
Proof.
  assert (Ht : forall o1 r1,
            transLoop fuel data maxPrio winR ucntAPs s value
              (transitions s) n [] = (o1, r1) ->
            Forall (compat_lines_from fuel data maxPrio winR ucntAPs
                      [value] [s]) o1).
  { intros o1 r1 E1.
    eapply Forall_impl; [|exact (transLoop_origin _ _ _ _ _ _ _ E1)].
    intros [h | [] id p o succs lbl] H; try exact I.
    exists s, value. split; [now left|]. split; [now left | exact H]. }
  unfold valuationBody. intros E. apply rbind_inv in E.
  destruct E as [(o1 & [n1 vv1] & o2 & E1 & E2 & ->)
                | [(E1 & ->) | (E1 & ->)]].
  - apply Forall_app. split; [eapply Ht; eassumption|].
    rewrite assert_bind in E2. destruct vv1.
    + injection E2 as <- _. constructor.
    + rewrite printf_bind in E2. cbn in E2. injection E2 as <- _.
      repeat constructor.
  - eapply Ht; eassumption.
  - eapply Ht; eassumption.
Qed.

Lemma valuationLoop_origin (s : StateList) (f : Z) :
  forall (values : list Z) (n : Z) (out : list OutLine) (r : result Z),
    valuationLoop fuel data maxPrio winR ucntAPs s f values n = (out, r) ->
    Forall (compat_lines_from fuel data maxPrio winR ucntAPs values [s])
      out.
Proof.
  induction values as [|v rest IH]; intros n out r E.
  - cbn in E. injection E as <- <-. constructor.
  - assert (Hb : forall o1 r1 n1,
              valuationBody fuel data maxPrio winR ucntAPs s f v n1
              = (o1, r1) ->
              Forall (compat_lines_from fuel data maxPrio winR ucntAPs
                        (v :: rest) [s]) o1).
    { intros o1 r1 n1 E1.
      eapply Forall_impl; [|exact (valuationBody_origin _ _ _ _ _ _ E1)].
      intros L. apply compat_lines_from_incl; [|apply incl_refl].
      intros x [<- | []]. now left. }
    cbn [valuationLoop] in E. apply rbind_inv in E.
    destruct E as [(o1 & n1 & o2 & E1 & E2 & ->) | [(E1 & ->) | (E1 & ->)]].
    + apply Forall_app. split; [eapply Hb; eassumption|].
      eapply Forall_impl; [|exact (IH _ _ _ E2)].
      intros L. apply compat_lines_from_incl; [|apply incl_refl].
      intros x Hx. now right.
    + eapply Hb; eassumption.
    + eapply Hb; eassumption.
Qed.

Lemma stateLoop_origin :
  forall (sts : list StateList) (n : Z) (out : list OutLine)
         (r : result Z),
    stateLoop fuel data maxPrio winR ucntAPs numValuations sts n
    = (out, r) ->
    Forall (compat_lines_from fuel data maxPrio winR ucntAPs
              (valuations numValuations) sts) out.
Proof.
  induction sts as [|s rest IH]; intros n out r E.
  - cbn in E. injection E as <- <-. constructor.
  - assert (Hs : forall o1 r1 n1,
              stateBody fuel data maxPrio winR ucntAPs numValuations s n1
              = (o1, r1) ->
              Forall (compat_lines_from fuel data maxPrio winR ucntAPs
                        (valuations numValuations) (s :: rest)) o1).
    { intros o1 r1 n1 E1.
      destruct (stateBody_shape _ _ _ _ _ _ _ _ _ _ E1) as (vs & Evs & Hout).
      apply valuationLoop_origin in Evs.
      assert (Hvs : Forall (compat_lines_from fuel data maxPrio winR
                              ucntAPs (valuations numValuations)
                              (s :: rest)) vs).
      { eapply Forall_impl; [|exact Evs].
        intros L. apply compat_lines_from_incl; [apply incl_refl|].
        intros x [<- | []]. now left. }
      destruct Hout as [(n' & _ & ->) | (_ & ->)]; [|assumption].
      apply Forall_app. split; [assumption | repeat constructor]. }
    cbn [stateLoop] in E. apply rbind_inv in E.
    destruct E as [(o1 & n1 & o2 & E1 & E2 & ->) | [(E1 & ->) | (E1 & ->)]].
    + apply Forall_app. split; [eapply Hs; eassumption|].
      eapply Forall_impl; [|exact (IH _ _ _ E2)].
      intros L. apply compat_lines_from_incl; [apply incl_refl|].
      intros x Hx. now right.
    + eapply Hs; eassumption.
    + eapply Hs; eassumption.
Qed.

End Origin.

(** X23: every line of a compatible-transition vertex that [main] prints
    comes from the automaton: there are a state, a transition of it that
    passed the assertions and a valuation with which the transition is
    compatible, and the line carries the adjusted priority of the
    transition's acceptance set, owner 0 and, as its only successor, the
    successor state of the transition. *)
Theorem main_compat_lines_origin :
  forall (fuel : nat) (data : HoaData) (out : list OutLine) (r : result Z),
    main fuel 0 data = (out, r) ->
    Forall (compat_line_origin fuel data) out.
Proof.
  intros fuel data out r E.
  destruct (main_output_cases _ _ _ _ E)
    as [(-> & _) | (lo & r' & El & -> & _)]; [constructor|].
  constructor; [exact I|].
  exact (stateLoop_origin _ _ _ _ _ _ _ _ _ _ El).
Qed.

Lemma main_compat_lines_origin_witness :
  Forall (compat_line_origin 1 (one_ap_hoa [bool_node true]))
    (fst (main 1 0 (one_ap_hoa [bool_node true]))).
Proof.
  apply (main_compat_lines_origin 1 (one_ap_hoa [bool_node true]) _ _
           eq_refl).
Defined.

(** X24: with [k] uncontrollable atomic propositions, [k] at most 30, the
    valuation loop goes through the valuations 0, 1, ..., 2^k - 1, each
    once and in this order.  (For a list of controllable atomic
    propositions no longer than [noAPs].) *)
Theorem valuations_all_bitmasks :
  forall (data : HoaData),
    0 <= noAPs data <= INT_MAX ->
    let k := noAPs data - Z.of_nat (List.length (cntAPs data)) in
    0 <= k <= 30 ->
    numValuationsOf data = 2 ^ k
    /\ valuations (numValuationsOf data) = intRange 0 (2 ^ k).
Proof.
  intros data Hn k Hk.
  assert (Hpow : 1 <= 2 ^ k <= 2 ^ 30).
  { split.
    - change 1 with (2 ^ 0). apply Z.pow_le_mono_r; lia.
    - apply Z.pow_le_mono_r; lia. }
  assert (HNV : numValuationsOf data = 2 ^ k).
  { unfold numValuationsOf.
    rewrite countUcntAPs_eq by (unfold INT_MIN, INT_MAX in *; lia).
    fold k. unfold int_shl. rewrite Z.shiftl_mul_pow2 by lia.
    rewrite Z.mul_1_l. apply int_wrap_small.
    unfold in_int, INT_MIN, INT_MAX. lia. }
  split; [exact HNV|].
  rewrite HNV. unfold valuations, intRange.
  rewrite uint_wrap_small by lia. rewrite Z.sub_0_r.
  apply map_ext. intros a. lia.
Qed.

Lemma valuations_all_bitmasks_witness :
  valuations (numValuationsOf (one_ap_hoa [])) = intRange 0 (2 ^ 1).
Proof.
  apply (valuations_all_bitmasks (one_ap_hoa [])).
  - cbn. unfold INT_MAX. lia.
  - cbn. lia.
Defined.
